(** * HeavyHaul AI: order-context resolution and the proactive monitor

    A shallow embedding of [services/order_service.py] and
    [services/proactive_monitor.py] (with the tables of
    [config/constants.py] they read), followed by the properties of the
    specification that concern them; then of [services/user_service.py],
    [services/data_filter.py], [utils/data.py], [services/order_cache.py],
    [get_weather_by_city] of [services/location_weather.py], the delivery
    of alerts in [assistant/voice_app.py] and the choice of the order in
    [assistant/__init__.py], with further properties of the code.

    Conventions of the embedding
    - Python [str] is [string]; the texts are taken to be ASCII, so that
      [str.lower], [str.strip], [\d], [\s] and [\b] are the ASCII ones.
    - Python [int] is [Z]; [datetime] is a number of microseconds on a
      time line, [timedelta] a difference of such numbers.
    - A [dict] read with fixed keys is a record of optional fields
      ([None] = the key is absent, or holds a value the code rejects by
      its own [isinstance]/truth test); sets and maps kept by the monitor
      are [gset] and [gmap].
    - Alert objects and list objects live in a store and are referred to
      by location, since the queue and the lists handed to callers share
      the alert objects.
    - An exception is a value of [exn]; a [try]/[except] is a [match].
    - Documents that the code handles without looking at their keys
      are values of [json]; a file is its JSON content. *)

From Stdlib Require Import ZArith Lia Ascii String Sorted Permutation.
From stdpp Require Import gmap strings list fin_maps pretty.

Open Scope Z_scope.

(** ** Python primitives *)

Module Py.

(** Exceptions raised by the modelled code. *)
Inductive exn :=
| KeyError (key : string)
| IndexError
| ConnectionFailure
| ValueError.

Inductive result (A : Type) :=
| Ok (a : A)
| Raise (e : exn).
Arguments Ok {A} a.
Arguments Raise {A} e.

Definition bind {A B} (r : result A) (f : A -> result B) : result B :=
  match r with Ok a => f a | Raise e => Raise e end.

(** Character classes. *)
Definition code (c : ascii) : N := N_of_ascii c.

Definition is_digit (c : ascii) : bool :=
  ((48 <=? code c) && (code c <=? 57))%N.

Definition is_upper (c : ascii) : bool :=
  ((65 <=? code c) && (code c <=? 90))%N.

Definition is_lower (c : ascii) : bool :=
  ((97 <=? code c) && (code c <=? 122))%N.

(** [\w] *)
Definition is_word (c : ascii) : bool :=
  is_digit c || is_upper c || is_lower c || (code c =? 95)%N.

(** [\s], also what [str.strip()] removes. *)
Definition is_space (c : ascii) : bool :=
  ((9 <=? code c) && (code c <=? 13) || (28 <=? code c) && (code c <=? 32))%N.

Definition lower_char (c : ascii) : ascii :=
  if is_upper c then ascii_of_N (code c + 32) else c.

(** [s.lower()] *)
Fixpoint lower (s : string) : string :=
  match s with
  | EmptyString => EmptyString
  | String c s' => String (lower_char c) (lower s')
  end.

(** [needle in hay] on strings. *)
Fixpoint contains (needle hay : string) : bool :=
  String.prefix needle hay ||
  match hay with
  | EmptyString => false
  | String _ hay' => contains needle hay'
  end.

Fixpoint lstrip (s : string) : string :=
  match s with
  | String c s' => if is_space c then lstrip s' else s
  | EmptyString => EmptyString
  end.

Fixpoint rstrip (s : string) : string :=
  match s with
  | EmptyString => EmptyString
  | String c s' =>
      match rstrip s' with
      | EmptyString => if is_space c then EmptyString else String c EmptyString
      | t => String c t
      end
  end.

(** [s.strip()] *)
Definition strip (s : string) : string := rstrip (lstrip s).

(** The number a run of decimal digits denotes. *)
Definition digits_value (ds : list ascii) : Z :=
  fold_left (fun acc c => 10 * acc + (Z.of_N (code c) - 48)) ds 0.

(** [sys.get_int_max_str_digits()], at its default. *)
Definition int_max_str_digits : nat := 4300.

(** [int(s)] for a run of decimal digits: a run of more digits than
    the limit, leading zeros counted, raises [ValueError]. *)
Definition int_of_digits (ds : list ascii) : result Z :=
  if (int_max_str_digits <? length ds)%nat then Raise Py.ValueError
  else Ok (digits_value ds).

(** [str(n)] *)
Definition str_int (n : Z) : string := pretty n.

(** [f"{x}"] for an [Optional[int]]. *)
Definition str_opt_int (x : option Z) : string :=
  match x with Some n => str_int n | None => "None" end.

(** Truth value of a string, and of an optional field holding one. *)
Definition truthy_str (s : string) : bool :=
  match s with EmptyString => false | _ => true end.

(** [xs[i]] with Python's negative indices. *)
Definition getitem {A} (xs : list A) (i : Z) : result A :=
  let n := Z.of_nat (length xs) in
  let j := if i <? 0 then i + n else i in
  if (j <? 0) || (n <=? j) then Raise IndexError
  else match xs !! Z.to_nat j with
       | Some x => Ok x
       | None => Raise IndexError
       end.

(** [xs.index(x)], for an [x] known to be in [xs]. *)
Fixpoint index (x : Z) (xs : list Z) : Z :=
  match xs with
  | [] => 0
  | y :: ys => if x =? y then 0 else 1 + index x ys
  end.

(** *** [list.sort] / [sorted]

    Python's sort is stable and compares with [__lt__] only.  It is
    modelled as an insertion sort that walks the input from the left and
    puts each element behind every element of the sorted prefix that is
    not greater than it. *)
Section Sort.
Context {A : Type} (lt : A -> A -> bool).

Fixpoint insert_last (x : A) (sorted : list A) : list A :=
  match sorted with
  | [] => [x]
  | y :: ys => if lt x y then x :: y :: ys else y :: insert_last x ys
  end.

Definition sort (xs : list A) : list A :=
  fold_left (fun acc x => insert_last x acc) xs [].
End Sort.

(** [sorted(xs, reverse=True)] on integers. *)
Definition sorted_reverse (xs : list Z) : list Z :=
  sort (fun a b => b <? a) xs.

(** *** The fragment of [re] the code uses

    Patterns are kept as syntax trees that read like the source
    patterns; matching is leftmost, greedy and backtracking as in
    [re].  Repetition is only ever applied to a character class. *)
Inductive regex :=
| RLit (s : string)                       (* literal text *)
| RRep (min : nat) (p : ascii -> bool)    (* class{min,} *)
| ROptChar (c : ascii)                    (* c? *)
| RSeq (r1 r2 : regex)
| RAlt (r1 r2 : regex)
| RGroup (r : regex)                      (* capturing group 1 *)
| RWordB.                                 (* \b *)

Record mstate := MState {
  m_pos : nat;
  m_prev : option ascii;
  m_rest : list ascii;
  m_grp : option (nat * nat)
}.

Fixpoint match_lit (s : string) (st : mstate) : option mstate :=
  match s with
  | EmptyString => Some st
  | String c s' =>
      match m_rest st with
      | d :: rest =>
          if Ascii.eqb c d
          then match_lit s' (MState (S (m_pos st)) (Some d) rest (m_grp st))
          else None
      | [] => None
      end
  end.

Fixpoint match_rep {R} (p : ascii -> bool) (min : nat) (pos : nat)
    (prev : option ascii) (rest : list ascii) (grp : option (nat * nat))
    (k : mstate -> option R) : option R :=
  let stop := match min with
              | O => k (MState pos prev rest grp)
              | S _ => None
              end in
  match rest with
  | c :: rest' =>
      if p c then
        match match_rep p (Nat.pred min) (S pos) (Some c) rest' grp k with
        | Some r => Some r
        | None => stop
        end
      else stop
  | [] => stop
  end.

Definition at_boundary (st : mstate) : bool :=
  let before := match m_prev st with Some c => is_word c | None => false end in
  let after := match m_rest st with c :: _ => is_word c | [] => false end in
  xorb before after.

Fixpoint rmatch {R} (r : regex) (st : mstate) (k : mstate -> option R)
    : option R :=
  match r with
  | RLit s => match match_lit s st with Some st' => k st' | None => None end
  | RRep min p => match_rep p min (m_pos st) (m_prev st) (m_rest st) (m_grp st) k
  | ROptChar c =>
      match match_lit (String c EmptyString) st with
      | Some st' => match k st' with Some r => Some r | None => k st end
      | None => k st
      end
  | RSeq r1 r2 => rmatch r1 st (fun st' => rmatch r2 st' k)
  | RAlt r1 r2 =>
      match rmatch r1 st k with
      | Some x => Some x
      | None => rmatch r2 st k
      end
  | RGroup r1 =>
      rmatch r1 st (fun st' =>
        k (MState (m_pos st') (m_prev st') (m_rest st')
             (Some (m_pos st, m_pos st'))))
  | RWordB => if at_boundary st then k st else None
  end.

(** A match object: start, end and the span of group 1. *)
Record rematch := ReMatch {
  m_start : nat;
  m_end : nat;
  m_group1 : option (nat * nat)
}.

Fixpoint search_from (r : regex) (pos : nat) (prev : option ascii)
    (rest : list ascii) : option rematch :=
  match rmatch r (MState pos prev rest None) Some with
  | Some st => Some (ReMatch pos (m_pos st) (m_grp st))
  | None =>
      match rest with
      | [] => None
      | c :: rest' => search_from r (S pos) (Some c) rest'
      end
  end.

Definition chars (s : string) : list ascii := list_ascii_of_string s.

(** [re.search(r, s)] *)
Definition re_search (r : regex) (s : string) : option rematch :=
  search_from r 0 None (chars s).

Definition span (s : string) (se : nat * nat) : list ascii :=
  take (snd se - fst se) (drop (fst se) (chars s)).

(** [m.group(1)] and [m.group(0)] *)
Definition group1 (s : string) (m : rematch) : list ascii :=
  match m_group1 m with Some se => span s se | None => [] end.

Definition group0 (s : string) (m : rematch) : string :=
  string_of_list_ascii (span s (m_start m, m_end m)).

(** [re.findall(r, s)] for a pattern without groups that never matches
    the empty string: the matched texts, scanning on from the end of
    each match. *)
Fixpoint findall_from (r : regex) (fuel : nat) (pos : nat)
    (prev : option ascii) (rest : list ascii) : list (list ascii) :=
  match fuel with
  | O => []
  | S fuel' =>
      match search_from r pos prev rest with
      | None => []
      | Some m =>
          let skipped := (m_end m - pos)%nat in
          let text := take (m_end m - m_start m) (drop (m_start m - pos) rest) in
          let prev' := match last (take skipped rest) with
                       | Some c => Some c
                       | None => prev
                       end in
          text :: findall_from r fuel' (m_end m) prev' (drop skipped rest)
      end
  end.

Definition re_findall (r : regex) (s : string) : list (list ascii) :=
  findall_from r (S (String.length s)) 0 None (chars s).

End Py.

Import Py.

(** ** The order store (MongoDB collections, read as typed documents) *)

Module Mongo.

(** A value of a date field: a [datetime], or a text still to be
    parsed.  A field holding anything else is read as absent, which
    [_parse_date] maps to [None] as well. *)
Inductive DateVal :=
| DDatetime (t : Z)
| DStr (s : string).

(** One entry of [routeData]. *)
Record RouteEntry := {
  product_name : option string;
  attached_at : option DateVal;
  permit_status : option string
}.

(** The ["order"] sub-document. *)
Record OrderData := {
  status : option string;
  order_status : option string;
  orderStatus : option string;
  state : option string;
  routeData : option (list RouteEntry);
  delivery_date : option DateVal;
  end_date : option DateVal;
  estimated_delivery : option DateVal;
  origin_city : option string;
  pickup_city : option string;
  from_city : option string;
  destination_city : option string;
  delivery_city : option string;
  to_city : option string
}.

(** [doc.get("order", {})] of a document without the key. *)
Definition empty_order : OrderData :=
  {| status := None; order_status := None; orderStatus := None;
     state := None; routeData := None; delivery_date := None;
     end_date := None; estimated_delivery := None; origin_city := None;
     pickup_city := None; from_city := None; destination_city := None;
     delivery_city := None; to_city := None |}.

Record OrderDoc := {
  id : Z;
  order : option OrderData
}.

(** A driver or client document. *)
Record UserDoc := {
  email : string;
  order_ids : option (list Z)
}.

(** The database as one call sees it.  [connected = false] stands for
    a [get_db()] that raises. *)
Record Db := {
  connected : bool;
  orders : list OrderDoc;
  drivers : list UserDoc;
  clients : list UserDoc
}.

(** [get_db()] *)
Definition get_db (db : Db) : result Db :=
  if connected db then Ok db else Raise ConnectionFailure.

(** [db.orders.find_one({"id": oid})] *)
Definition find_order (db : Db) (oid : Z) : option OrderDoc :=
  List.find (fun d => id d =? oid) (orders db).

(** [coll.find_one({"email": e})] *)
Definition find_user (coll : list UserDoc) (e : string) : option UserDoc :=
  List.find (fun u => String.eqb (email u) e) coll.

(** [doc.get("order", {})] *)
Definition order_of (doc : OrderDoc) : OrderData :=
  match order doc with Some o => o | None => empty_order end.

End Mongo.

(** ** [config/constants.py] *)

Module Constants.

(** In the insertion order of the source dictionary, which is the
    order [.items()] yields. *)
Definition POSITION_MAPPINGS : list (string * Z) :=
  [ ("third last", 2); ("third latest", 2);
    ("second last", 1); ("second latest", 1);
    ("fourth last", 3); ("fourth latest", 3);
    ("fifth last", 4); ("fifth latest", 4);
    ("sixth last", 5); ("sixth latest", 5);
    ("seventh last", 6); ("seventh latest", 6);
    ("eighth last", 7); ("eighth latest", 7);
    ("ninth last", 8); ("ninth latest", 8);
    ("tenth last", 9); ("tenth latest", 9);
    ("latest", 0); ("last", 0); ("newest", 0);
    ("second", 1); ("third", 2); ("fourth", 3);
    ("fifth", 4); ("sixth", 5); ("seventh", 6);
    ("eighth", 7); ("ninth", 8); ("tenth", 9) ]%string.

Definition POSITION_DESCRIPTIONS : list (Z * string) :=
  [ (0, "latest"); (1, "second latest"); (2, "third latest");
    (3, "fourth latest"); (4, "fifth latest"); (5, "sixth latest");
    (6, "seventh latest"); (7, "eighth latest"); (8, "ninth latest");
    (9, "tenth latest") ]%string.

(** [POSITION_DESCRIPTIONS.get(i, f"{i + 1}th latest")] *)
Definition position_description (i : Z) : string :=
  match List.find (fun kv => fst kv =? i) POSITION_DESCRIPTIONS with
  | Some kv => snd kv
  | None => str_int (i + 1) +:+ "th latest"
  end.

End Constants.

(** ** [services/order_service.py] *)

Module OrderService.
Import Constants.

(** The value under ["driver_info"] / ["client_info"] / ["admin_info"]:
    only its ["order_ids"] entry is read. *)
Record UserInfo := { order_ids : option (list Z) }.

Definition digits4 : regex := RGroup (RRep 4 is_digit).

(** The four patterns of [get_admin_order_id], in the source order. *)
Definition admin_patterns : list regex :=
  [ (* order\s+#?(\d{4,}) *)
    RSeq (RLit "order") (RSeq (RRep 1 is_space) (RSeq (ROptChar "#") digits4));
    (* #(\d{4,}) *)
    RSeq (RLit "#") digits4;
    (* \b(\d{4,})\b *)
    RSeq RWordB (RSeq digits4 RWordB);
    (* (?:about|for|id)\s+#?(\d{4,}) *)
    RSeq (RAlt (RLit "about") (RAlt (RLit "for") (RLit "id")))
      (RSeq (RRep 1 is_space) (RSeq (ROptChar "#") digits4)) ].

(** The loop over the patterns, under the [try] of
    [get_admin_order_id]. *)
Fixpoint admin_scan (db : Mongo.Db) (patterns : list regex) (q : string)
    : option Z :=
  match patterns with
  | [] => None
  | pattern :: rest =>
      match re_search pattern q with
      | Some m =>
          match int_of_digits (group1 q m) with
          | Ok order_id =>
              match Mongo.find_order db order_id with
              | Some _ => Some order_id
              | None => admin_scan db rest q
              end
          | Raise _ => None
          end
      | None => admin_scan db rest q
      end
  end.

(** [get_db()] is called before the [try], so that its exception goes
    to the caller; the [ValueError] of [int] is raised inside the
    [try], whose handler leaves the loop, and [None] is returned. *)
Definition get_admin_order_id (db : Mongo.Db) (query : string)
    : result (option Z) :=
  bind (Mongo.get_db db) (fun db' =>
    Ok (admin_scan db' admin_patterns (lower query))).

Definition resolution : Type := bool * list Z * string.

(** The loop over [POSITION_MAPPINGS.items()]: [None] when no phrase
    occurs in the query, otherwise what the loop returns. *)
Fixpoint scan_positions (mappings : list (string * Z)) (query_lower : string)
    (order_ids : list Z) (user_type : string) : option (result resolution) :=
  match mappings with
  | [] => None
  | (position_text, index) :: rest =>
      if contains position_text query_lower then
        if index <? Z.of_nat (length order_ids) then
          Some (bind (getitem order_ids index) (fun oid =>
            let desc := position_description index in
            Ok (true, [oid],
                "Using " +:+ desc +:+ " order (" +:+ str_int oid
                +:+ ") for " +:+ user_type)))
        else
          Some (Ok (false, [],
                    "No " +:+ position_text +:+ " order available for "
                    +:+ user_type))
      else scan_positions rest query_lower order_ids user_type
  end.

(** (\d+)(?:st|nd|rd|th)\s+latest *)
Definition ordinal_pattern : regex :=
  RSeq (RGroup (RRep 1 is_digit))
    (RSeq (RAlt (RLit "st") (RAlt (RLit "nd") (RAlt (RLit "rd") (RLit "th"))))
       (RSeq (RRep 1 is_space) (RLit "latest"))).

(** \b\d+\b *)
Definition number_pattern : regex :=
  RSeq RWordB (RSeq (RRep 1 is_digit) RWordB).

(** The loop over the numbers found in the query: [None] when it
    comes to its end without a [return]. *)
Fixpoint scan_numbers (numbers : list (list ascii)) (order_ids : list Z)
    (user_type : string) : result (option resolution) :=
  match numbers with
  | [] => Ok None
  | num :: rest =>
      bind (int_of_digits num) (fun oid =>
        if bool_decide (oid ∈ order_ids) then
          let position := index oid order_ids in
          let desc := position_description position in
          Ok (Some (true, [oid],
                    "Using order " +:+ str_int oid +:+ " (" +:+ desc
                    +:+ " order) for " +:+ user_type))
        else scan_numbers rest order_ids user_type)
  end.

(** The part of [resolve_order_context] after the order list is known. *)
Definition resolve_for_user (query : string) (current_order_id : option Z)
    (order_ids : list Z) (user_type : string) : result resolution :=
  let query_lower := lower query in
  match scan_positions POSITION_MAPPINGS query_lower order_ids user_type with
  | Some r => r
  | None =>
      match re_search ordinal_pattern query_lower with
      | Some ordinal_match =>
          bind (int_of_digits (group1 query_lower ordinal_match)) (fun n =>
            let index := n - 1 in
            if index <? Z.of_nat (length order_ids) then
              bind (getitem order_ids index) (fun oid =>
                Ok (true, [oid],
                    "Using " +:+ group0 query_lower ordinal_match
                    +:+ " order (" +:+ str_int oid +:+ ") for " +:+ user_type))
            else
              Ok (false, [],
                  "No " +:+ group0 query_lower ordinal_match
                  +:+ " order available for " +:+ user_type))
      | None =>
          bind (scan_numbers (re_findall number_pattern query) order_ids
                  user_type) (fun found =>
          match found with
          | Some r => Ok r
          | None =>
              match current_order_id with
              | Some cur =>
                  Ok (false, [cur],
                      "Continuing with current order " +:+ str_int cur
                      +:+ " for " +:+ user_type)
              | None =>
                  match order_ids with
                  | first :: _ =>
                      Ok (true, [first],
                          "Using latest order " +:+ str_int first
                          +:+ " for " +:+ user_type)
                  | [] =>
                      Ok (false, [], "No orders found for " +:+ user_type)
                  end
              end
          end)
      end
  end.

(** [user_data[key]["order_ids"]] *)
Definition order_ids_of (info : UserInfo) : result (list Z) :=
  match order_ids info with
  | Some ids => Ok ids
  | None => Raise (KeyError "order_ids")
  end.

(** The [elif current_order_id: ... / return ...] of the admin branch;
    [0] is false like [None]. *)
Definition admin_fallback (current_order_id : option Z) : resolution :=
  match current_order_id with
  | Some cur =>
      if cur =? 0 then (false, [], "Please specify an order ID"%string)
      else (false, [cur], "Continuing with current order " +:+ str_int cur)
  | None => (false, [], "Please specify an order ID"%string)
  end.

(** The body of the [try] block of [resolve_order_context]. *)
Definition resolve_body (db : Mongo.Db) (query : string)
    (current_order_id : option Z) (user_data : gmap string UserInfo)
    : result resolution :=
  match user_data !! "admin_info" with
  | Some _ =>
      bind (get_admin_order_id db query) (fun found =>
        match found with
        | Some order_id =>
            (* [if order_id:] is false for 0 *)
            if order_id =? 0 then Ok (admin_fallback current_order_id)
            else Ok (true, [order_id],
                     "Accessing order " +:+ str_int order_id +:+ " as admin")
        | None => Ok (admin_fallback current_order_id)
        end)
  | None =>
      match user_data !! "driver_info" with
      | Some info =>
          bind (order_ids_of info) (fun ids =>
            resolve_for_user query current_order_id (sorted_reverse ids) "driver")
      | None =>
          match user_data !! "client_info" with
          | Some info =>
              bind (order_ids_of info) (fun ids =>
                resolve_for_user query current_order_id (sorted_reverse ids)
                  "client")
          | None => Ok (false, [], "Invalid user data")
          end
      end
  end.

(** [resolve_order_context]: the body under [try], and the handler
    [except Exception]. *)
Definition resolve_order_context (db : Mongo.Db) (query : string)
    (current_order_id : option Z) (user_data : gmap string UserInfo)
    : resolution :=
  match resolve_body db query current_order_id user_data with
  | Ok r => r
  | Raise _ => (false, [], "Error in processing")
  end.

End OrderService.

(** ** [services/proactive_monitor.py] *)

Module Monitor.
Import Mongo.

(** [class AlertPriority(IntEnum)] *)
Inductive AlertPriority := CRITICAL | HIGH | MEDIUM | LOW.

Definition priority_value (p : AlertPriority) : Z :=
  match p with CRITICAL => 1 | HIGH => 2 | MEDIUM => 3 | LOW => 4 end.

(** Values stored in an alert's [metadata]. *)
Inductive MetaVal :=
| MStr (s : string)
| MInt (n : Z).

(** [@dataclass class ProactiveAlert] *)
Record ProactiveAlert := {
  alert_type : string;
  priority : AlertPriority;
  title : string;
  message : string;
  order_id : option Z;
  metadata : list (string * MetaVal);
  created_at : Z;
  delivered : bool
}.

Definition with_delivered (b : bool) (a : ProactiveAlert) : ProactiveAlert :=
  {| alert_type := alert_type a; priority := priority a; title := title a;
     message := message a; order_id := order_id a; metadata := metadata a;
     created_at := created_at a; delivered := b |}.

(** Locations of objects: the [n]-th object allocated has location [n]. *)
Definition loc := nat.

(** The monitor object, together with the alert objects and the list
    objects created so far.  [alert_queue] is the location of the list
    the attribute refers to. *)
Record State := {
  alerts : list ProactiveAlert;
  lists : list (list loc);
  user_role : string;
  user_email : string;
  poll_interval : Z;
  weather_interval : Z;
  permit_warning_days : Z;
  deadline_warning_hours : Z;
  alert_queue : loc;
  _delivered_keys : gset string;
  _last_order_statuses : gmap Z string;
  _last_order_ids : gset Z;
  _warned_permits : gset string;
  _warned_deadlines : gset Z;
  _running : bool
}.

Definition set_alerts (v : list ProactiveAlert) (st : State) : State :=
  {| alerts := v; lists := lists st; user_role := user_role st;
     user_email := user_email st; poll_interval := poll_interval st;
     weather_interval := weather_interval st;
     permit_warning_days := permit_warning_days st;
     deadline_warning_hours := deadline_warning_hours st;
     alert_queue := alert_queue st; _delivered_keys := _delivered_keys st;
     _last_order_statuses := _last_order_statuses st;
     _last_order_ids := _last_order_ids st;
     _warned_permits := _warned_permits st;
     _warned_deadlines := _warned_deadlines st; _running := _running st |}.

Definition set_lists (v : list (list loc)) (st : State) : State :=
  {| alerts := alerts st; lists := v; user_role := user_role st;
     user_email := user_email st; poll_interval := poll_interval st;
     weather_interval := weather_interval st;
     permit_warning_days := permit_warning_days st;
     deadline_warning_hours := deadline_warning_hours st;
     alert_queue := alert_queue st; _delivered_keys := _delivered_keys st;
     _last_order_statuses := _last_order_statuses st;
     _last_order_ids := _last_order_ids st;
     _warned_permits := _warned_permits st;
     _warned_deadlines := _warned_deadlines st; _running := _running st |}.

Definition set_alert_queue (v : loc) (st : State) : State :=
  {| alerts := alerts st; lists := lists st; user_role := user_role st;
     user_email := user_email st; poll_interval := poll_interval st;
     weather_interval := weather_interval st;
     permit_warning_days := permit_warning_days st;
     deadline_warning_hours := deadline_warning_hours st;
     alert_queue := v; _delivered_keys := _delivered_keys st;
     _last_order_statuses := _last_order_statuses st;
     _last_order_ids := _last_order_ids st;
     _warned_permits := _warned_permits st;
     _warned_deadlines := _warned_deadlines st; _running := _running st |}.

Definition set_delivered_keys (v : gset string) (st : State) : State :=
  {| alerts := alerts st; lists := lists st; user_role := user_role st;
     user_email := user_email st; poll_interval := poll_interval st;
     weather_interval := weather_interval st;
     permit_warning_days := permit_warning_days st;
     deadline_warning_hours := deadline_warning_hours st;
     alert_queue := alert_queue st; _delivered_keys := v;
     _last_order_statuses := _last_order_statuses st;
     _last_order_ids := _last_order_ids st;
     _warned_permits := _warned_permits st;
     _warned_deadlines := _warned_deadlines st; _running := _running st |}.

Definition set_last_order_statuses (v : gmap Z string) (st : State) : State :=
  {| alerts := alerts st; lists := lists st; user_role := user_role st;
     user_email := user_email st; poll_interval := poll_interval st;
     weather_interval := weather_interval st;
     permit_warning_days := permit_warning_days st;
     deadline_warning_hours := deadline_warning_hours st;
     alert_queue := alert_queue st; _delivered_keys := _delivered_keys st;
     _last_order_statuses := v;
     _last_order_ids := _last_order_ids st;
     _warned_permits := _warned_permits st;
     _warned_deadlines := _warned_deadlines st; _running := _running st |}.

Definition set_last_order_ids (v : gset Z) (st : State) : State :=
  {| alerts := alerts st; lists := lists st; user_role := user_role st;
     user_email := user_email st; poll_interval := poll_interval st;
     weather_interval := weather_interval st;
     permit_warning_days := permit_warning_days st;
     deadline_warning_hours := deadline_warning_hours st;
     alert_queue := alert_queue st; _delivered_keys := _delivered_keys st;
     _last_order_statuses := _last_order_statuses st;
     _last_order_ids := v;
     _warned_permits := _warned_permits st;
     _warned_deadlines := _warned_deadlines st; _running := _running st |}.

Definition set_warned_permits (v : gset string) (st : State) : State :=
  {| alerts := alerts st; lists := lists st; user_role := user_role st;
     user_email := user_email st; poll_interval := poll_interval st;
     weather_interval := weather_interval st;
     permit_warning_days := permit_warning_days st;
     deadline_warning_hours := deadline_warning_hours st;
     alert_queue := alert_queue st; _delivered_keys := _delivered_keys st;
     _last_order_statuses := _last_order_statuses st;
     _last_order_ids := _last_order_ids st;
     _warned_permits := v;
     _warned_deadlines := _warned_deadlines st; _running := _running st |}.

Definition set_warned_deadlines (v : gset Z) (st : State) : State :=
  {| alerts := alerts st; lists := lists st; user_role := user_role st;
     user_email := user_email st; poll_interval := poll_interval st;
     weather_interval := weather_interval st;
     permit_warning_days := permit_warning_days st;
     deadline_warning_hours := deadline_warning_hours st;
     alert_queue := alert_queue st; _delivered_keys := _delivered_keys st;
     _last_order_statuses := _last_order_statuses st;
     _last_order_ids := _last_order_ids st;
     _warned_permits := _warned_permits st;
     _warned_deadlines := v; _running := _running st |}.

Definition set_running (v : bool) (st : State) : State :=
  {| alerts := alerts st; lists := lists st; user_role := user_role st;
     user_email := user_email st; poll_interval := poll_interval st;
     weather_interval := weather_interval st;
     permit_warning_days := permit_warning_days st;
     deadline_warning_hours := deadline_warning_hours st;
     alert_queue := alert_queue st; _delivered_keys := _delivered_keys st;
     _last_order_statuses := _last_order_statuses st;
     _last_order_ids := _last_order_ids st;
     _warned_permits := _warned_permits st;
     _warned_deadlines := _warned_deadlines st; _running := v |}.

(** [ProactiveMonitor.__init__]: the queue is a new empty list. *)
Definition init (role email : string)
    (poll weather warning_days warning_hours : Z) : State :=
  {| alerts := []; lists := [[]]; user_role := role; user_email := email;
     poll_interval := poll; weather_interval := weather;
     permit_warning_days := warning_days;
     deadline_warning_hours := warning_hours;
     alert_queue := 0%nat; _delivered_keys := ∅;
     _last_order_statuses := ∅; _last_order_ids := ∅;
     _warned_permits := ∅; _warned_deadlines := ∅; _running := false |}.

(** *** Reading the store *)

(** The list [self.alert_queue] refers to. *)
Definition queue (st : State) : list loc :=
  default [] (lists st !! alert_queue st).

(** [a.delivered] *)
Definition is_delivered (st : State) (a : loc) : bool :=
  match alerts st !! a with Some al => delivered al | None => false end.

(** [a.priority], as the integer of the enumeration. *)
Definition priority_of (st : State) (a : loc) : Z :=
  match alerts st !! a with
  | Some al => priority_value (priority al)
  | None => 0
  end.

(** [ProactiveAlert.__lt__] *)
Definition alert_lt (st : State) (a b : loc) : bool :=
  priority_of st a <? priority_of st b.

(** A list display or comprehension creates a new list object. *)
Definition new_list (xs : list loc) (st : State) : loc * State :=
  (length (lists st), set_lists (lists st ++ [xs]) st).

(** [ProactiveAlert(...)] creates a new alert object. *)
Definition new_alert (a : ProactiveAlert) (st : State) : loc * State :=
  (length (alerts st), set_alerts (alerts st ++ [a]) st).

(** *** Lifecycle and delivery interface *)

(** [start]: a second call while running does nothing.  The two tasks
    it creates are the loops further down. *)
Definition start (st : State) : State :=
  if _running st then st else set_running true st.

(** [stop] *)
Definition stop (st : State) : State := set_running false st.

(** [has_alerts] *)
Definition has_alerts (st : State) : bool :=
  existsb (fun a => negb (is_delivered st a)) (queue st).

(** [get_pending_alerts]: the comprehension builds a new list, which
    [pending.sort()] then sorts in place; its location is returned. *)
Definition get_pending_alerts (st : State) : loc * State :=
  let '(pending, st1) :=
    new_list (List.filter (fun a => negb (is_delivered st a)) (queue st)) st in
  (pending, set_lists (alter (sort (alert_lt st1)) pending (lists st1)) st1).

(** [_alert_key] *)
Definition _alert_key (alert : ProactiveAlert) : string :=
  alert_type alert +:+ "_" +:+ str_opt_int (order_id alert) +:+ "_"
  +:+ title alert.

(** [mark_delivered]; a location that holds no alert cannot be passed
    by a caller and is left alone. *)
Definition mark_delivered (alert : loc) (st : State) : State :=
  match alerts st !! alert with
  | Some al =>
      let al' := with_delivered true al in
      let st1 := set_alerts (<[alert := al']> (alerts st)) st in
      set_delivered_keys ({[ _alert_key al' ]} ∪ _delivered_keys st1) st1
  | None => st
  end.

Definition us_per_hour : Z := 3600 * 1000000.
Definition us_per_day : Z := 24 * us_per_hour.

(** [clear_old_alerts]: the comprehension is a new list, to which the
    attribute is rebound. *)
Definition clear_old_alerts (now : Z) (max_age_hours : Z) (st : State)
    : State :=
  let cutoff := now - max_age_hours * us_per_hour in
  let keep (a : loc) :=
    match alerts st !! a with
    | Some al => negb (delivered al) || (cutoff <? created_at al)
    | None => true
    end in
  let '(kept, st1) := new_list (List.filter keep (queue st)) st in
  set_alert_queue kept st1.

(** [_enqueue_alert]: [append] changes the queue list in place. *)
Definition _enqueue_alert (alert : loc) (st : State) : State :=
  match alerts st !! alert with
  | Some al =>
      if bool_decide (_alert_key al ∈ _delivered_keys st) then st
      else set_lists (<[alert_queue st := queue st ++ [alert]]> (lists st)) st
  | None => st
  end.

(** [alert = ProactiveAlert(...); self._enqueue_alert(alert)] *)
Definition emit (a : ProactiveAlert) (st : State) : State :=
  let '(l, st1) := new_alert a st in _enqueue_alert l st1.

(** *** Helper methods *)

(** [_get_user_order_ids]; every failure is turned into [[]]. *)
Definition _get_user_order_ids (db : Db) (st : State) : list Z :=
  match get_db db with
  | Raise _ => []
  | Ok db =>
      if String.eqb (user_role st) "admin" then
        take 20 (sorted_reverse (map id (orders db)))
      else if String.eqb (user_role st) "driver" then
        match find_user (drivers db) (user_email st) with
        | Some user_doc => default [] (order_ids user_doc)
        | None => []
        end
      else if String.eqb (user_role st) "client" then
        match find_user (clients db) (user_email st) with
        | Some user_doc => default [] (order_ids user_doc)
        | None => []
        end
      else []
  end.

(** A field that is present, a string and not empty. *)
Definition str_field (v : option string) : option string :=
  match v with
  | Some s => if truthy_str s then Some s else None
  | None => None
  end.

(** [_extract_order_status] *)
Definition _extract_order_status (doc : OrderDoc) : string :=
  let order_data := order_of doc in
  match str_field (status order_data) with
  | Some v => v
  | None =>
  match str_field (order_status order_data) with
  | Some v => v
  | None =>
  match str_field (orderStatus order_data) with
  | Some v => v
  | None =>
  match str_field (state order_data) with
  | Some v => v
  | None => "unknown"
  end end end end.

(** The functions of [datetime] that the monitor calls: parsing with a
    format ([None] for [ValueError]), formatting, ISO text. *)
Class DatetimeLib := {
  strptime : string -> string -> option Z;
  strftime : Z -> string -> string;
  isoformat : Z -> string
}.

Definition date_formats : list string :=
  [ "%Y-%m-%dT%H:%M:%S.%fZ"; "%Y-%m-%dT%H:%M:%SZ"; "%Y-%m-%dT%H:%M:%S";
    "%Y-%m-%d %H:%M:%S"; "%Y-%m-%d"; "%m/%d/%Y"; "%m/%d/%Y %H:%M:%S";
    "%d-%m-%Y"; "%B %d, %Y" ]%string.

Fixpoint try_formats `{DatetimeLib} (s : string) (formats : list string)
    : option Z :=
  match formats with
  | [] => None
  | fmt :: rest =>
      match strptime s fmt with
      | Some t => Some t
      | None => try_formats s rest
      end
  end.

(** [_parse_date] *)
Definition _parse_date `{DatetimeLib} (date_val : DateVal) : option Z :=
  match date_val with
  | DDatetime t => Some t
  | DStr s => try_formats s date_formats
  end.

(** Truth value of a date field's value. *)
Definition truthy_date (v : DateVal) : bool :=
  match v with DDatetime _ => true | DStr s => truthy_str s end.

Definition severe_keywords : list string :=
  [ "storm"; "thunderstorm"; "tornado"; "hurricane";
    "blizzard"; "heavy rain"; "heavy snow"; "ice";
    "freezing rain"; "hail"; "flood"; "warning";
    "extreme"; "severe"; "dangerous"; "advisory";
    "high wind"; "gale"; "fog" ]%string.

(** [_is_severe_weather] *)
Definition _is_severe_weather (weather_info : string) : bool :=
  let info_lower := lower weather_info in
  existsb (fun keyword => contains keyword info_lower) severe_keywords.

(** [s.lower() in (...)] *)
Definition lower_in (s : string) (options : list string) : bool :=
  existsb (String.eqb (lower s)) options.

(** *** The checks of the fast loop

    The clock is taken not to advance while a check runs: [now] is what
    [datetime.now()] returns during the check, both as the check's local
    [now] and as the [created_at] of the alerts it creates. *)

(** [_take_initial_snapshot] *)
Definition snapshot_step (db : Db) (st : State) (oid : Z) : State :=
  match find_order db oid with
  | Some doc =>
      let status := _extract_order_status doc in
      set_last_order_statuses (<[oid := status]> (_last_order_statuses st)) st
  | None => st
  end.

Definition _take_initial_snapshot (db : Db) (st : State) : State :=
  let order_ids := _get_user_order_ids db st in
  let st1 := set_last_order_ids (list_to_set order_ids) st in
  match get_db db with
  | Ok db' => fold_left (snapshot_step db') order_ids st1
  | Raise _ => st1
  end.

(** [_check_order_status_changes] *)
Definition status_alert (now oid : Z) (previous_status current_status : string)
    : ProactiveAlert :=
  {| alert_type := "order_status";
     priority := HIGH;
     title := "Order " +:+ str_int oid +:+ " status changed";
     message := "Heads up! Order " +:+ str_int oid
                +:+ " status has changed from " +:+ previous_status
                +:+ " to " +:+ current_status +:+ ".";
     order_id := Some oid;
     metadata := [("old_status", MStr previous_status);
                  ("new_status", MStr current_status)];
     created_at := now;
     delivered := false |}.

Definition status_step (db : Db) (now : Z) (st : State) (oid : Z) : State :=
  match find_order db oid with
  | None => st
  | Some doc =>
      let current_status := _extract_order_status doc in
      let st1 :=
        match _last_order_statuses st !! oid with
        | Some previous_status =>
            if truthy_str previous_status
               && negb (String.eqb current_status previous_status)
            then emit (status_alert now oid previous_status current_status) st
            else st
        | None => st
        end in
      set_last_order_statuses
        (<[oid := current_status]> (_last_order_statuses st1)) st1
  end.

Definition _check_order_status_changes (db : Db) (now : Z) (st : State)
    : State :=
  match get_db db with
  | Raise _ => st
  | Ok db' => fold_left (status_step db' now) (_get_user_order_ids db st) st
  end.

(** [_check_new_order_assignments] *)
Definition new_order_alert (now oid : Z) : ProactiveAlert :=
  {| alert_type := "new_order";
     priority := MEDIUM;
     title := "New order " +:+ str_int oid +:+ " assigned";
     message := "You have a new order assignment! Order " +:+ str_int oid
                +:+ " has been assigned to you. "
                +:+ "Would you like me to show you the details?";
     order_id := Some oid;
     metadata := [];
     created_at := now;
     delivered := false |}.

Definition _check_new_order_assignments (db : Db) (now : Z) (st : State)
    : State :=
  let current_order_ids : gset Z := list_to_set (_get_user_order_ids db st) in
  let new_ids := current_order_ids ∖ _last_order_ids st in
  let st1 :=
    fold_left (fun s oid => emit (new_order_alert now oid) s)
      (elements new_ids) st in
  set_last_order_ids current_order_ids st1.

(** [_check_permit_expirations] *)
Definition permit_key (oid : Z) (state_name : string) : string :=
  str_int oid +:+ "_" +:+ state_name.

Definition permit_expired_alert (now oid : Z) (state_name : string)
    (days_until_expiry : Z) : ProactiveAlert :=
  {| alert_type := "permit_expired";
     priority := CRITICAL;
     title := "Permit expired: " +:+ state_name;
     message := "Alert! The permit for " +:+ state_name +:+ " on order "
                +:+ str_int oid +:+ " appears to have expired "
                +:+ str_int (Z.abs days_until_expiry) +:+ " days ago. "
                +:+ "Please verify and renew if needed.";
     order_id := Some oid;
     metadata := [("state", MStr state_name);
                  ("days_expired", MInt (Z.abs days_until_expiry))];
     created_at := now;
     delivered := false |}.

Definition permit_expiring_alert (now oid : Z) (state_name : string)
    (days_until_expiry : Z) : ProactiveAlert :=
  {| alert_type := "permit_expiring";
     priority := HIGH;
     title := "Permit expiring: " +:+ state_name;
     message := "Reminder: The permit for " +:+ state_name +:+ " on order "
                +:+ str_int oid +:+ " is expiring in "
                +:+ str_int days_until_expiry +:+ " day"
                +:+ (if days_until_expiry =? 1 then "" else "s") +:+ ". "
                +:+ "Please ensure it's renewed on time.";
     order_id := Some oid;
     metadata := [("state", MStr state_name);
                  ("days_remaining", MInt days_until_expiry)];
     created_at := now;
     delivered := false |}.

Definition permit_issue_alert (now oid : Z) (state_name permit_status : string)
    : ProactiveAlert :=
  {| alert_type := "permit_issue";
     priority := CRITICAL;
     title := "Permit issue: " +:+ state_name;
     message := "Alert! The permit for " +:+ state_name +:+ " on order "
                +:+ str_int oid +:+ " has status: " +:+ permit_status +:+ ". "
                +:+ "This needs immediate attention.";
     order_id := Some oid;
     metadata := [("state", MStr state_name); ("status", MStr permit_status)];
     created_at := now;
     delivered := false |}.

Definition add_warned_permit (key : string) (st : State) : State :=
  set_warned_permits ({[ key ]} ∪ _warned_permits st) st.

Section Checks.
Context `{DatetimeLib}.

(** The [if attached_at:] block of one route entry. *)
Definition expiry_step (now oid : Z) (state_name : string)
    (attached : option DateVal) (st : State) : State :=
  match attached with
  | None => st
  | Some v =>
      if truthy_date v then
        match _parse_date v with
        | Some attach_date =>
            let estimated_expiry := attach_date + 7 * us_per_day in
            let days_until_expiry := (estimated_expiry - now) / us_per_day in
            if days_until_expiry <? 0 then
              add_warned_permit (permit_key oid state_name)
                (emit (permit_expired_alert now oid state_name
                         days_until_expiry) st)
            else if days_until_expiry <=? permit_warning_days st then
              add_warned_permit (permit_key oid state_name)
                (emit (permit_expiring_alert now oid state_name
                         days_until_expiry) st)
            else st
        | None => st
        end
      else st
  end.

(** The [if permit_status and ...] block of one route entry. *)
Definition issue_step (now oid : Z) (state_name : string)
    (permit_status : string) (st : State) : State :=
  if truthy_str permit_status
     && lower_in permit_status ["expired"; "rejected"; "cancelled"]%string
  then
    if bool_decide (permit_key oid state_name ∈ _warned_permits st) then st
    else add_warned_permit (permit_key oid state_name)
           (emit (permit_issue_alert now oid state_name permit_status) st)
  else st.

(** The body of [for state_entry in route_data]. *)
Definition permit_step (now oid : Z) (st : State) (state_entry : RouteEntry)
    : State :=
  let state_name := default "Unknown"%string (product_name state_entry) in
  if bool_decide (permit_key oid state_name ∈ _warned_permits st) then st
  else
    let st1 := expiry_step now oid state_name (attached_at state_entry) st in
    issue_step now oid state_name
      (default ""%string (permit_status state_entry)) st1.

(** The body of [for oid in order_ids]. *)
Definition permit_order_step (db : Db) (now : Z) (st : State) (oid : Z)
    : State :=
  match find_order db oid with
  | None => st
  | Some doc =>
      match routeData (order_of doc) with
      | Some route_data => fold_left (permit_step now oid) route_data st
      | None => st
      end
  end.

Definition _check_permit_expirations (db : Db) (now : Z) (st : State)
    : State :=
  match get_db db with
  | Raise _ => st
  | Ok db' =>
      fold_left (permit_order_step db' now) (_get_user_order_ids db st) st
  end.

(** [_check_delivery_deadlines] *)
Definition deadline_approaching_alert (now oid deadline hours_int : Z)
    : ProactiveAlert :=
  {| alert_type := "deadline_approaching";
     priority := HIGH;
     title := "Deadline: Order " +:+ str_int oid;
     message := "Reminder: Order " +:+ str_int oid
                +:+ " has a delivery deadline in approximately "
                +:+ str_int hours_int +:+ " hours. Scheduled for "
                +:+ strftime deadline "%B %d at %I:%M %p" +:+ ".";
     order_id := Some oid;
     metadata := [("deadline", MStr (isoformat deadline));
                  ("hours_remaining", MInt hours_int)];
     created_at := now;
     delivered := false |}.

Definition deadline_overdue_alert (now oid deadline : Z) (status : string)
    : ProactiveAlert :=
  {| alert_type := "deadline_overdue";
     priority := CRITICAL;
     title := "Overdue: Order " +:+ str_int oid;
     message := "Alert! Order " +:+ str_int oid
                +:+ " appears to be overdue. The deadline was "
                +:+ strftime deadline "%B %d at %I:%M %p"
                +:+ ". Current status: " +:+ status +:+ ".";
     order_id := Some oid;
     metadata := [("deadline", MStr (isoformat deadline));
                  ("status", MStr status)];
     created_at := now;
     delivered := false |}.

Definition add_warned_deadline (oid : Z) (st : State) : State :=
  set_warned_deadlines ({[ oid ]} ∪ _warned_deadlines st) st.

(** What one date field makes of the order: the alert to raise, if
    any.  [hours_remaining] is a float in the source,
    [(deadline - now).total_seconds() / 3600]; the model compares
    the exact quotient, which the float comparison agrees with when
    the difference is a whole number of microseconds and the warning
    window a moderate whole number of hours. [int(hours_remaining)]
    truncates. *)
Definition deadline_field (now oid : Z) (doc : OrderDoc) (st : State)
    (date_val : option DateVal) : option ProactiveAlert :=
  match date_val with
  | None => None
  | Some v =>
      if truthy_date v then
        match _parse_date v with
        | None => None
        | Some deadline =>
            let remaining := deadline - now in
            if (0 <? remaining)
               && (remaining <=? deadline_warning_hours st * us_per_hour)
            then
              let hours_int := Z.quot remaining us_per_hour in
              Some (deadline_approaching_alert now oid deadline hours_int)
            else if remaining <=? 0 then
              let status := _extract_order_status doc in
              if truthy_str status
                 && negb (lower_in status
                            ["completed"; "delivered"; "closed"]%string)
              then Some (deadline_overdue_alert now oid deadline status)
              else None
            else None
        end
      else None
  end.

(** [for date_field in (...)]: the first field that raises an alert
    ends the loop ([break]); a field that raises none is passed
    over. *)
Fixpoint deadline_scan (now : Z) (oid : Z) (doc : OrderDoc)
    (fields : list (option DateVal)) (st : State) : State :=
  match fields with
  | [] => st
  | date_val :: rest =>
      match deadline_field now oid doc st date_val with
      | Some alert => add_warned_deadline oid (emit alert st)
      | None => deadline_scan now oid doc rest st
      end
  end.

Definition deadline_fields (order_data : OrderData) : list (option DateVal) :=
  [delivery_date order_data; end_date order_data;
   estimated_delivery order_data].

(** The body of [for oid in order_ids]. *)
Definition deadline_order_step (db : Db) (now : Z) (st : State) (oid : Z)
    : State :=
  if bool_decide (oid ∈ _warned_deadlines st) then st
  else
    match find_order db oid with
    | None => st
    | Some doc =>
        deadline_scan now oid doc (deadline_fields (order_of doc)) st
    end.

Definition _check_delivery_deadlines (db : Db) (now : Z) (st : State)
    : State :=
  match get_db db with
  | Raise _ => st
  | Ok db' =>
      fold_left (deadline_order_step db' now) (_get_user_order_ids db st) st
  end.

End Checks.

(** *** The check of the slow loop *)

Definition weather_key (oid : Z) (city : string) : string :=
  "weather_" +:+ str_int oid +:+ "_" +:+ city.

Definition weather_alert (now oid : Z) (city weather_info : string)
    : ProactiveAlert :=
  {| alert_type := "weather_alert";
     priority := CRITICAL;
     title := "Severe weather: " +:+ city;
     message := "Weather alert for your route! "
                +:+ "Severe conditions detected near " +:+ city
                +:+ " on order " +:+ str_int oid +:+ ". " +:+ weather_info
                +:+ " Please exercise caution.";
     order_id := Some oid;
     metadata := [("city", MStr city); ("weather", MStr weather_info)];
     created_at := now;
     delivered := false |}.

Definition add_delivered_key (key : string) (st : State) : State :=
  set_delivered_keys ({[ key ]} ∪ _delivered_keys st) st.

(** [cities.add(city.strip())] for a field that holds a non-empty
    string. *)
Definition add_city (v : option string) (cities : gset string) : gset string :=
  match str_field v with
  | Some city => {[ strip city ]} ∪ cities
  | None => cities
  end.

(** [cities.add(state_name)] for the route entries with a name. *)
Definition add_route_state (cities : gset string) (state_entry : RouteEntry)
    : gset string :=
  match str_field (product_name state_entry) with
  | Some state_name => {[ state_name ]} ∪ cities
  | None => cities
  end.

(** The set [cities] of one order. *)
Definition route_cities (order_data : OrderData) : gset string :=
  let c0 : gset string := ∅ in
  let c1 := add_city (from_city order_data)
              (add_city (pickup_city order_data)
                 (add_city (origin_city order_data) c0)) in
  let c2 := add_city (to_city order_data)
              (add_city (delivery_city order_data)
                 (add_city (destination_city order_data) c1)) in
  match routeData order_data with
  | Some route_data => fold_left add_route_state route_data c2
  | None => c2
  end.

(** The body of [for city in cities].  [get_weather_by_city] never
    raises: it returns a text in every case. *)
Definition weather_city_step (get_weather_by_city : string -> string)
    (now oid : Z) (st : State) (city : string) : State :=
  if bool_decide (weather_key oid city ∈ _delivered_keys st) then st
  else
    let weather_info := get_weather_by_city city in
    if truthy_str weather_info && _is_severe_weather weather_info then
      add_delivered_key (weather_key oid city)
        (emit (weather_alert now oid city weather_info) st)
    else st.

(** The body of [for oid in order_ids]; the set is walked in the order
    of [elements]. *)
Definition weather_order_step (db : Db)
    (get_weather_by_city : string -> string) (now : Z) (st : State)
    (oid : Z) : State :=
  match find_order db oid with
  | None => st
  | Some doc =>
      let status := _extract_order_status doc in
      if truthy_str status
         && lower_in status
              ["completed"; "delivered"; "closed"; "cancelled"]%string
      then st
      else
        fold_left (weather_city_step get_weather_by_city now oid)
          (elements (route_cities (order_of doc))) st
  end.

Definition _check_route_weather (db : Db)
    (get_weather_by_city : string -> string) (now : Z) (st : State) : State :=
  match get_db db with
  | Raise _ => st
  | Ok db' =>
      fold_left (weather_order_step db' get_weather_by_city now)
        (_get_user_order_ids db st) st
  end.

(** *** The two loops and the session

    What a loop does up to a point is determined by what the store and
    the clock showed at each of its iterations. *)
Section Loops.
Context `{DatetimeLib}.

(** One iteration of the [while] of [_monitor_loop], after the sleep. *)
Definition fast_cycle (db : Db) (now : Z) (st : State) : State :=
  let st1 := _check_order_status_changes db now st in
  let st2 := _check_new_order_assignments db now st1 in
  let st3 := _check_permit_expirations db now st2 in
  let st4 := _check_delivery_deadlines db now st3 in
  clear_old_alerts now 24 st4.

Fixpoint monitor_cycles (ticks : list (Db * Z)) (st : State) : State :=
  match ticks with
  | [] => st
  | (db, now) :: rest =>
      if _running st then monitor_cycles rest (fast_cycle db now st)
      else st
  end.

(** [_monitor_loop]: the snapshot, then the iterations. *)
Definition _monitor_loop (db0 : Db) (ticks : list (Db * Z)) (st : State)
    : State :=
  monitor_cycles ticks (_take_initial_snapshot db0 st).

Fixpoint weather_cycles (ticks : list (Db * (string -> string) * Z))
    (st : State) : State :=
  match ticks with
  | [] => st
  | (db, get_weather_by_city, now) :: rest =>
      if _running st
      then weather_cycles rest (_check_route_weather db get_weather_by_city now st)
      else st
  end.

Definition _weather_loop := weather_cycles.

(** Everything that can happen to a monitor during a session, in the
    order in which the cooperative tasks happen to run. *)
Inductive op :=
| OpStart
| OpStop
| OpGetPendingAlerts
| OpMarkDelivered (alert : loc)
| OpClearOldAlerts (now max_age_hours : Z)
| OpTakeInitialSnapshot (db : Db)
| OpCheckOrderStatusChanges (db : Db) (now : Z)
| OpCheckNewOrderAssignments (db : Db) (now : Z)
| OpCheckPermitExpirations (db : Db) (now : Z)
| OpCheckDeliveryDeadlines (db : Db) (now : Z)
| OpCheckRouteWeather (db : Db) (get_weather_by_city : string -> string)
    (now : Z).

Definition run_op (st : State) (o : op) : State :=
  match o with
  | OpStart => start st
  | OpStop => stop st
  | OpGetPendingAlerts => snd (get_pending_alerts st)
  | OpMarkDelivered alert => mark_delivered alert st
  | OpClearOldAlerts now max_age_hours => clear_old_alerts now max_age_hours st
  | OpTakeInitialSnapshot db => _take_initial_snapshot db st
  | OpCheckOrderStatusChanges db now => _check_order_status_changes db now st
  | OpCheckNewOrderAssignments db now => _check_new_order_assignments db now st
  | OpCheckPermitExpirations db now => _check_permit_expirations db now st
  | OpCheckDeliveryDeadlines db now => _check_delivery_deadlines db now st
  | OpCheckRouteWeather db w now => _check_route_weather db w now st
  end.

Definition run (ops : list op) (st : State) : State :=
  fold_left run_op ops st.

End Loops.

End Monitor.

Import OrderService.
Import Monitor.
Import Mongo.

(** ** Vocabulary of the statements *)

Module Spec.

(** [appends Q st st']: from [st] to [st'] alerts were only created, all
    of them satisfying [Q], and no key was recorded. *)
Definition appends (Q : ProactiveAlert -> Prop) (st st' : State) : Prop :=
  exists new : list ProactiveAlert,
    alerts st' = alerts st ++ new
    /\ Forall Q new
    /\ _delivered_keys st' = _delivered_keys st.

(** Alerts that are not weather alerts. *)
Definition not_weather (a : ProactiveAlert) : Prop :=
  alert_type a <> "weather_alert"%string.

(** The alerts that concern one order. *)
Definition about_order (oid : Z) (a : ProactiveAlert) : bool :=
  bool_decide (order_id a = Some oid).

(** [emitted_for sel st s expected]: from [st] to [s] alerts were only
    created, and those selected by [sel] are, in order, [expected]. *)
Definition emitted_for (sel : ProactiveAlert -> bool) (st s : State)
    (expected : list ProactiveAlert) : Prop :=
  exists new : list ProactiveAlert,
    alerts s = alerts st ++ new /\ List.filter sel new = expected.

(** The deadline the loop over the date fields computes for a field;
    [None] when the loop moves on ([continue]) because the field is
    absent, empty or not parseable. *)
Definition field_deadline `{DatetimeLib} (f : option DateVal) : option Z :=
  match f with
  | Some v => if truthy_date v then _parse_date v else None
  | None => None
  end.

(** The reading of the specification under which only the first date
    field that is present and parseable counts: if that field raises no
    alert, the order gets none in that cycle. *)
Definition first_parseable_field_only : Prop :=
  forall (lib : DatetimeLib) (st : State) (db : Db) (now oid : Z)
         (doc : OrderDoc) (pre post : list (option DateVal)) (v : DateVal),
    oid ∉ _warned_deadlines st ->
    find_order db oid = Some doc ->
    deadline_fields (order_of doc) = pre ++ Some v :: post ->
    Forall (fun f => field_deadline f = None) pre ->
    is_Some (field_deadline (Some v)) ->
    deadline_field now oid doc st (Some v) = None ->
    deadline_order_step db now st oid = st.

(** While the subject of a check is not warned about, nothing selected
    by [sel] has been created since [st], and the warning windows are
    those of [st]; once it is warned about, exactly [expected] has been
    created. *)
Definition quiet (warned : State -> Prop) (sel : ProactiveAlert -> bool)
    (st s : State) : Prop :=
  ~ warned s
  /\ deadline_warning_hours s = deadline_warning_hours st
  /\ permit_warning_days s = permit_warning_days st
  /\ emitted_for sel st s [].

Definition warned_with (warned : State -> Prop) (sel : ProactiveAlert -> bool)
    (st : State) (expected : list ProactiveAlert) (s : State) : Prop :=
  warned s /\ emitted_for sel st s expected.

(** The two, for an order and the deadline check. *)
Definition deadline_warned (oid : Z) (s : State) : Prop :=
  oid ∈ _warned_deadlines s.

Definition quiet_order (st : State) (oid : Z) : State -> Prop :=
  quiet (deadline_warned oid) (about_order oid) st.

Definition warned_order (st : State) (oid : Z) (a : ProactiveAlert)
    : State -> Prop :=
  warned_with (deadline_warned oid) (about_order oid) st [a].

(** The route a permit alert is about, as its metadata names it. *)
Definition route_of (a : ProactiveAlert) : option string :=
  match metadata a with
  | ("state"%string, MStr name) :: _ => Some name
  | _ => None
  end.

(** The alerts that concern one route of one order. *)
Definition about_route (oid : Z) (name : string) (a : ProactiveAlert) : bool :=
  bool_decide (order_id a = Some oid /\ route_of a = Some name).

(** The name under which a route entry is checked. *)
Definition state_name_of (state_entry : RouteEntry) : string :=
  default "Unknown"%string (product_name state_entry).

Definition permit_warned (oid : Z) (name : string) (s : State) : Prop :=
  permit_key oid name ∈ _warned_permits s.

Definition quiet_route (st : State) (oid : Z) (name : string) : State -> Prop :=
  quiet (permit_warned oid name) (about_route oid name) st.

Definition warned_route (st : State) (oid : Z) (name : string)
    (expected : list ProactiveAlert) : State -> Prop :=
  warned_with (permit_warned oid name) (about_route oid name) st expected.

(** Texts without an underscore. *)
Fixpoint no_underscore (s : string) : bool :=
  match s with
  | EmptyString => true
  | String c s' => negb (Ascii.eqb c "_") && no_underscore s'
  end.

(** A weather alert for one order and one city. *)
Definition weather_alert_for (oid : Z) (city : string) (a : ProactiveAlert)
    : Prop :=
  alert_type a = "weather_alert"%string
  /\ order_id a = Some oid
  /\ title a = ("Severe weather: " +:+ city)%string.

(** Every weather alert ever created has its weather key recorded, and
    no two of them are for the same order and city. *)
Definition weather_keys_recorded (st : State) : Prop :=
  forall l a, alerts st !! l = Some a ->
    alert_type a = "weather_alert"%string ->
    exists oid city, weather_alert_for oid city a
                     /\ weather_key oid city ∈ _delivered_keys st.

Definition weather_alerts_unique (st : State) : Prop :=
  forall l1 l2 a1 a2 oid city,
    alerts st !! l1 = Some a1 -> alerts st !! l2 = Some a2 ->
    weather_alert_for oid city a1 -> weather_alert_for oid city a2 ->
    l1 = l2.

Definition weather_invariant (st : State) : Prop :=
  weather_keys_recorded st /\ weather_alerts_unique st.

End Spec.

Import Spec.

(** ** Concrete situations used further down *)

Module Scenario.

(** A user whose order list is [500, 450, 400, 350]. *)
Definition orders_of_user (role_key : string) : gmap string UserInfo :=
  {[ role_key := {| OrderService.order_ids := Some [500; 450; 400; 350] |} ]}.

(** A database that cannot be reached, and an administrator. *)
Definition unreachable_db : Mongo.Db :=
  {| Mongo.connected := false; Mongo.orders := [];
     Mongo.drivers := []; Mongo.clients := [] |}.

Definition admin_data : gmap string UserInfo :=
  {[ "admin_info"%string := {| OrderService.order_ids := None |} ]}.

(** A store that holds order 2892 and nothing else. *)
Definition one_order_db : Mongo.Db :=
  {| Mongo.connected := true;
     Mongo.orders := [ {| Mongo.id := 2892; Mongo.order := None |} ];
     Mongo.drivers := []; Mongo.clients := [] |}.

(** A [datetime] library that parses nothing: in the situations below
    dates are stored as [datetime] values. *)
#[export] Instance plain_datetime : DatetimeLib :=
  {| strptime := fun _ _ => None;
     strftime := fun _ _ => ""%string;
     isoformat := fun t => str_int t |}.

(** The monitor of a driver, as [__init__] makes it with the default
    intervals. *)
Definition fresh_monitor : State :=
  init "driver" "driver@example.com" 120 1800 3 24.

(** The same with three alerts queued, of priorities MEDIUM, CRITICAL
    and MEDIUM, none of them delivered. *)
Definition three_alerts : State :=
  emit (new_order_alert 30 9)
    (emit (permit_issue_alert 20 7 "Texas" "expired")
       (emit (new_order_alert 10 7) fresh_monitor)).

(** The store of that driver, who has order 7. *)
Definition driver_db (order_docs : list Mongo.OrderDoc) : Mongo.Db :=
  {| Mongo.connected := true;
     Mongo.orders := order_docs;
     Mongo.drivers := [ {| Mongo.email := "driver@example.com";
                           Mongo.order_ids := Some [7] |} ];
     Mongo.clients := [] |}.

(** The first of the three alerts has been delivered; a day later the
    queue is cleaned, and the check for new orders then comes across
    order 7 once more. *)
Definition first_delivered : State := mark_delivered 0%nat three_alerts.

Definition a_day_later : Z := 10 + 25 * us_per_hour.

Definition purge_then_recheck : list op :=
  [ OpClearOldAlerts a_day_later 24;
    OpCheckNewOrderAssignments (driver_db []) a_day_later ].

(** Order 7 as the store holds it, with the given status, routes and
    dates. *)
Definition order7 (status : string) (route : list Mongo.RouteEntry)
    (delivery end_ : option Mongo.DateVal) : Mongo.OrderDoc :=
  {| Mongo.id := 7;
     Mongo.order := Some
       {| Mongo.status := Some status; Mongo.order_status := None;
          Mongo.orderStatus := None; Mongo.state := None;
          Mongo.routeData := Some route;
          Mongo.delivery_date := delivery; Mongo.end_date := end_;
          Mongo.estimated_delivery := None;
          Mongo.origin_city := None; Mongo.pickup_city := None;
          Mongo.from_city := None; Mongo.destination_city := None;
          Mongo.delivery_city := None; Mongo.to_city := None |} |}.

(** The instant at which the checks below run. *)
Definition noon : Z := 1000 * us_per_day.

(** Order 7 is due for delivery in 48 hours, but its [end_date] is 12
    hours away. *)
Definition two_dates_db : Db :=
  driver_db [order7 "open" []
               (Some (DDatetime (noon + 48 * us_per_hour)))
               (Some (DDatetime (noon + 12 * us_per_hour)))].

(** Order 7 with a single date field, [offset] microseconds ahead. *)
Definition due_in_db (offset : Z) : Db :=
  driver_db [order7 "open" [] (Some (DDatetime (noon + offset))) None].

(** Order 7 with one route, through Texas, whose permit was attached
    eight days before noon and whose status says "expired" as well. *)
Definition texas : RouteEntry :=
  {| product_name := Some "Texas"%string;
     attached_at := Some (DDatetime (noon - 8 * us_per_day));
     permit_status := Some "expired"%string |}.

Definition texas_db : Db := driver_db [order7 "open" [texas] None None].

(** A weather service that reports a thunderstorm everywhere, and two
    rounds of the weather check with no delivery in between. *)
Definition stormy (city : string) : string :=
  ("The current weather in " +:+ city +:+ " is thunderstorm.")%string.

Definition two_weather_rounds : list op :=
  [ OpCheckRouteWeather texas_db stormy noon;
    OpCheckRouteWeather texas_db stormy (noon + 1800000000) ].

End Scenario.

Import Scenario.

(** ** [services/user_service.py] *)

Module UserService.

(** What [get_user_info] returns: the dictionary with the single key
    ["error"], or the dictionary with the info of the role. *)
Inductive UserData :=
| ErrorDict (error : string)
| InfoDict (info : gmap string UserInfo).

(** The info dictionary of a driver or client document: of its entries
    only ["order_ids"], which is always put in, is read later. *)
Definition info_of (user_doc : Mongo.UserDoc) : UserInfo :=
  {| OrderService.order_ids := Some (default [] (Mongo.order_ids user_doc)) |}.

(** [get_user_info]; every role other than driver and client gets the
    info of an administrator. *)
Definition get_user_info (db : Mongo.Db) (role email : string) : UserData :=
  match Mongo.get_db db with
  | Raise _ => ErrorDict "Error accessing the database"
  | Ok db' =>
      if String.eqb role "driver" then
        match Mongo.find_user (Mongo.drivers db') email with
        | None => ErrorDict "Driver not found"
        | Some user_data => InfoDict {[ "driver_info"%string := info_of user_data ]}
        end
      else if String.eqb role "client" then
        match Mongo.find_user (Mongo.clients db') email with
        | None => ErrorDict "Client not found"
        | Some user_data => InfoDict {[ "client_info"%string := info_of user_data ]}
        end
      else
        InfoDict {[ "admin_info"%string := {| OrderService.order_ids := None |} ]}
  end.

(** [verify_email] *)
Definition verify_email (db : Mongo.Db) (role email : string) : bool :=
  if String.eqb role "admin" then true
  else
    match Mongo.get_db db with
    | Raise _ => false
    | Ok db' =>
        let collection :=
          if String.eqb role "driver" then Mongo.drivers db'
          else Mongo.clients db' in
        match Mongo.find_user collection email with
        | Some _ => true
        | None => false
        end
    end.

(** [get_order_ids_for_user]; there is no [try] around the subscripts. *)
Definition get_order_ids_for_user (user_data : gmap string UserInfo)
    : result (list Z) :=
  match user_data !! "driver_info" with
  | Some info => bind (order_ids_of info) (fun ids => Ok (sorted_reverse ids))
  | None =>
      match user_data !! "client_info" with
      | Some info => bind (order_ids_of info) (fun ids => Ok (sorted_reverse ids))
      | None => Ok []
      end
  end.

End UserService.

Import UserService.

(** ** Further situations *)

Module Cases.

(** The order list of the driver or client in [user_data], as
    [resolve_order_context] reads it; empty when there is none. *)
Definition listed_orders (user_data : gmap string UserInfo) : list Z :=
  match user_data !! "driver_info" with
  | Some info => default [] (OrderService.order_ids info)
  | None =>
      match user_data !! "client_info" with
      | Some info => default [] (OrderService.order_ids info)
      | None => []
      end
  end.

(** The shape of an answer for a driver or client with the order list
    [ids] and the current order [cur]: a switch names one order of the
    list; without a switch no order is named, or the current one. *)
Definition answer_for (ids : list Z) (cur : option Z) (r : resolution) : Prop :=
  match r with
  | (true, l, _) => exists oid, l = [oid] /\ oid ∈ ids
  | (false, l, _) => l = [] \/ exists c, cur = Some c /\ l = [c]
  end.

(** The shape of an answer for an administrator: a switch names one
    order, which the store holds; without a switch no order is named, or
    the current one. *)
Definition admin_answer (db : Mongo.Db) (cur : option Z) (r : resolution)
    : Prop :=
  match r with
  | (true, l, _) =>
      exists oid, l = [oid] /\ oid <> 0 /\ is_Some (Mongo.find_order db oid)
  | (false, l, _) => l = [] \/ exists c, cur = Some c /\ c <> 0 /\ l = [c]
  end.

(** A store with a driver who has orders 350 to 500, listed out of
    order. *)
Definition four_orders_db : Mongo.Db :=
  {| Mongo.connected := true;
     Mongo.orders := [];
     Mongo.drivers := [ {| Mongo.email := "driver@example.com";
                           Mongo.order_ids := Some [400; 350; 500; 450] |} ];
     Mongo.clients := [] |}.

End Cases.

Import Cases.

(** ** Order documents as loosely typed data

    The functions below take the documents as they come: nested
    dictionaries and lists with scalars at the leaves.  A dictionary is
    the list of its items in insertion order; its keys are distinct.
    Numbers are integers here; the functions treat every scalar
    alike. *)

Module Json.

#[local] Set Warnings "-register-all".

Inductive json :=
| JNull
| JBool (b : bool)
| JInt (n : Z)
| JStr (s : string)
| JList (items : list json)
| JDict (entries : list (string * json)).

(** [d.get(key)] on the items of a dictionary. *)
Fixpoint dict_get (key : string) (entries : list (string * json))
    : option json :=
  match entries with
  | [] => None
  | (k, v) :: rest => if String.eqb k key then Some v else dict_get key rest
  end.

(** The keys that occur in a value, at any depth. *)
Fixpoint all_keys (data : json) : list string :=
  match data with
  | JDict entries =>
      (fix of_entries (es : list (string * json)) : list string :=
         match es with
         | [] => []
         | (k, v) :: rest => k :: all_keys v ++ of_entries rest
         end) entries
  | JList items => flat_map all_keys items
  | _ => []
  end.

(** No [None] among the values of a dictionary or the items of a list,
    at any depth. *)
Fixpoint null_free (data : json) : bool :=
  match data with
  | JDict entries =>
      (fix of_entries (es : list (string * json)) : bool :=
         match es with
         | [] => true
         | (_, JNull) :: _ => false
         | (_, v) :: rest => null_free v && of_entries rest
         end) entries
  | JList items =>
      (fix of_items (l : list json) : bool :=
         match l with
         | [] => true
         | JNull :: _ => false
         | v :: rest => null_free v && of_items rest
         end) items
  | _ => true
  end.

(** Exceptions of the functions on documents, and their outcomes. *)
Inductive error :=
| ValueError (message : string)
| MissingKey (key : string)
| AttributeError.

Inductive outcome (A : Type) :=
| Returned (a : A)
| Raised (e : error).
Arguments Returned {A} a.
Arguments Raised {A} e.

End Json.

Import Json.

(** ** [services/data_filter.py] *)

Module DataFilter.

Definition COMMON_EXCLUDED_FIELDS : gset string :=
  {[ "Company_attribute_Info"; "state_webstie_detail";
     "transactions"; "odOrderLogData"; "meta" ]}%string.

Definition META_EXCLUDED_FIELDS : gset string :=
  {[ "permit_info"; "meta_data"; "truck_meta_data";
     "trailer_meta_data"; "Company_meta_data";
     "client_meta_Data"; "driver_meta_Data" ]}%string.

Definition ADMIN_EXCLUDED_FIELDS : gset string :=
  {[ "Company_attribute_Info"; "state_webstie_detail";
     "odOrderLogData"; "meta" ]}%string.

(** [k not in excluded and k not in meta_excluded] *)
Definition kept (excluded meta_excluded : gset string) (k : string) : bool :=
  bool_decide (k ∉ excluded) && bool_decide (k ∉ meta_excluded).

(** [_filter_recursive] *)
Fixpoint _filter_recursive (excluded meta_excluded : gset string)
    (data : json) : json :=
  match data with
  | JDict entries =>
      JDict ((fix items (es : list (string * json)) : list (string * json) :=
                match es with
                | [] => []
                | (k, v) :: rest =>
                    if kept excluded meta_excluded k
                    then (k, _filter_recursive excluded meta_excluded v)
                         :: items rest
                    else items rest
                end) entries)
  | JList items => JList (map (_filter_recursive excluded meta_excluded) items)
  | _ => data
  end.

Definition filter_order_for_driver (order_data : json) : json :=
  _filter_recursive COMMON_EXCLUDED_FIELDS META_EXCLUDED_FIELDS order_data.

Definition filter_order_for_client (order_data : json) : json :=
  _filter_recursive COMMON_EXCLUDED_FIELDS META_EXCLUDED_FIELDS order_data.

Definition filter_order_for_admin (order_data : json) : json :=
  _filter_recursive ADMIN_EXCLUDED_FIELDS META_EXCLUDED_FIELDS order_data.

(** [filter_order_by_role] *)
Definition filter_order_by_role (order_data : json) (role : string)
    : outcome json :=
  if String.eqb role "driver" then Returned (filter_order_for_driver order_data)
  else if String.eqb role "client" then
    Returned (filter_order_for_client order_data)
  else if String.eqb role "admin" then
    Returned (filter_order_for_admin order_data)
  else
    Raised (ValueError ("Unknown role: " +:+ role
                        +:+ ". Expected 'driver', 'client', or 'admin'.")).

End DataFilter.

Import DataFilter.

(** ** [utils/data.py] *)

Module DataUtils.

(** [remove_null_fields] *)
Fixpoint remove_null_fields (data : json) : json :=
  match data with
  | JDict entries =>
      JDict ((fix items (es : list (string * json)) : list (string * json) :=
                match es with
                | [] => []
                | (_, JNull) :: rest => items rest
                | (k, v) :: rest => (k, remove_null_fields v) :: items rest
                end) entries)
  | JList items =>
      JList ((fix of_items (l : list json) : list json :=
                match l with
                | [] => []
                | JNull :: rest => of_items rest
                | v :: rest => remove_null_fields v :: of_items rest
                end) items)
  | _ => data
  end.

(** [route.get("permit_status") != "Delete"]; a route that is no
    dictionary has no [get]. *)
Definition not_deleted (route : json) : outcome bool :=
  match route with
  | JDict entries =>
      match dict_get "permit_status" entries with
      | Some (JStr status) => Returned (negb (String.eqb status "Delete"))
      | _ => Returned true
      end
  | _ => Raised AttributeError
  end.

(** [remove_deleted_permits] *)
Fixpoint remove_deleted_permits (route_data : list json)
    : outcome (list json) :=
  match route_data with
  | [] => Returned []
  | route :: rest =>
      match not_deleted route with
      | Raised e => Raised e
      | Returned keep =>
          match remove_deleted_permits rest with
          | Raised e => Raised e
          | Returned kept_routes =>
              Returned (if keep then route :: kept_routes else kept_routes)
          end
      end
  end.

End DataUtils.

Import DataUtils.

(** ** [get_order_details] of [services/order_service.py] *)

Module OrderDetails.

(** A document of the orders collection with its ["order"] entry kept
    whole, if it has one. *)
Record RawOrder := {
  raw_id : Z;
  raw_order : option json
}.

Record OrderStore := {
  reachable : bool;
  documents : list RawOrder
}.

(** One element of the list comprehension. *)
Definition detail_entry (role : string) (order : RawOrder) : outcome json :=
  match raw_order order with
  | None => Raised (MissingKey "order")
  | Some payload =>
      match filter_order_by_role payload role with
      | Raised e => Raised e
      | Returned details =>
          Returned (JDict [("Order ID"%string, JInt (raw_id order));
                           ("Order Details"%string, details)])
      end
  end.

Fixpoint detail_entries (role : string) (orders : list RawOrder)
    : outcome (list json) :=
  match orders with
  | [] => Returned []
  | order :: rest =>
      match detail_entry role order with
      | Raised e => Raised e
      | Returned entry =>
          match detail_entries role rest with
          | Raised e => Raised e
          | Returned entries => Returned (entry :: entries)
          end
      end
  end.

(** [db.orders.find({"id": {"$in": order_ids}})] *)
Definition find_in (store : OrderStore) (order_ids : list Z) : list RawOrder :=
  List.filter (fun order => bool_decide (raw_id order ∈ order_ids))
    (documents store).

(** [get_order_details]: whatever is raised on the way, the result is
    the empty list. *)
Definition get_order_details (store : OrderStore) (order_ids : list Z)
    (role : string) : list json :=
  if reachable store then
    match detail_entries role (find_in store order_ids) with
    | Returned entries => entries
    | Raised _ => []
    end
  else [].

End OrderDetails.

Import OrderDetails.

(** ** Sample documents *)

Module Samples.

(** An order with a hidden block at the top and a transactions field
    inside a route. *)
Definition invoice_order : json :=
  JDict [("meta"%string, JDict [("pickup"%string, JInt 1)]);
         ("route"%string,
          JList [JDict [("pickup"%string, JStr "Dallas");
                        ("transactions"%string, JInt 3)]])].

End Samples.

Import Samples.

(** ** Vocabulary for the order details *)

Module Views.

Definition roles : list string := ["driver"; "client"; "admin"]%string.

(** [detail] is what [get_order_details] answers for the document
    [order]: its id, among the requested ones, and its role view. *)
Definition detail_of (order_ids : list Z) (role : string)
    (order : RawOrder) (detail : json) : Prop :=
  raw_id order ∈ order_ids
  /\ exists payload view,
       raw_order order = Some payload
       /\ filter_order_by_role payload role = Returned view
       /\ detail = JDict [("Order ID"%string, JInt (raw_id order));
                          ("Order Details"%string, view)].

Definition is_dict (data : json) : bool :=
  match data with JDict _ => true | _ => false end.

(** The route carries the permit status ["Delete"]. *)
Definition deleted (route : json) : bool :=
  match route with
  | JDict entries =>
      match dict_get "permit_status" entries with
      | Some (JStr status) => String.eqb status "Delete"
      | _ => false
      end
  | _ => false
  end.

(** Two requested orders in the store, the second without its
    ["order"] entry. *)
Definition half_written_store : OrderStore :=
  {| reachable := true;
     documents := [ {| raw_id := 100; raw_order := Some invoice_order |};
                    {| raw_id := 200; raw_order := None |} ] |}.

Definition invoice_store : OrderStore :=
  {| reachable := true;
     documents := [ {| raw_id := 100; raw_order := Some invoice_order |};
                    {| raw_id := 300; raw_order := Some (JDict []) |} ] |}.

End Views.

Import Views.

(** ** [generate_proactive_summary] of [services/proactive_monitor.py] *)

Module Summary.

(** [alert.priority.name] *)
Definition priority_name (p : AlertPriority) : string :=
  match p with
  | CRITICAL => "CRITICAL"
  | HIGH => "HIGH"
  | MEDIUM => "MEDIUM"
  | LOW => "LOW"
  end.

Definition newline : string := String (ascii_of_nat 10) EmptyString.

(** The dash of the system prompt, as its three bytes. *)
Definition em_dash : string :=
  String (ascii_of_nat 226)
    (String (ascii_of_nat 128) (String (ascii_of_nat 148) EmptyString)).

(** [sep.join(parts)] *)
Fixpoint join (sep : string) (parts : list string) : string :=
  match parts with
  | [] => ""
  | [p] => p
  | p :: rest => p +:+ sep +:+ join sep rest
  end.

(** [alert.message] *)
Definition message_of (st : State) (a : loc) : string :=
  match alerts st !! a with Some al => message al | None => "" end.

(** [f"{i}. [{alert.priority.name}] {alert.message}"], the count
    starting at 1. *)
Definition describe (st : State) (i : nat) (a : loc) : string :=
  match alerts st !! a with
  | Some al =>
      str_int (Z.of_nat i + 1) +:+ ". [" +:+ priority_name (priority al)
      +:+ "] " +:+ message al
  | None => ""
  end.

(** The loop over [enumerate(pending[:5], 1)]. *)
Definition alert_descriptions (st : State) (pending : list loc) : list string :=
  imap (describe st) (take 5 pending).

Definition system_prompt : string :=
  "You are a proactive voice assistant for heavy haul logistics. "
  +:+ "Summarize the following alerts into a brief, natural spoken notification. "
  +:+ "Prioritize critical alerts. Keep it concise " +:+ em_dash
  +:+ " under 3 sentences if possible. "
  +:+ "Start with 'I have an update for you.' or similar attention-getting phrase. "
  +:+ "Do not use bullet points or formatting " +:+ em_dash
  +:+ " this will be spoken aloud.".

(** [messages], as pairs of role and content. *)
Definition summary_messages (st : State) (pending : list loc)
    : list (string * string) :=
  [ ("system"%string, system_prompt);
    ("user"%string,
     "Summarize these alerts for the " +:+ user_role st +:+ ":" +:+ newline
     +:+ join newline (alert_descriptions st pending)) ].

(** What [get_llm()] followed by [llm.chat(messages, max_tokens)] comes
    to: a text, nothing, or an exception of either call. *)
Inductive ChatResult :=
| ChatReturns (summary : option string)
| ChatRaises.

Definition Llm := list (string * string) -> Z -> ChatResult.

(** [generate_proactive_summary] *)
Definition generate_proactive_summary (llm : Llm) (st : State)
    : option string * State :=
  let '(pending, st1) := get_pending_alerts st in
  let items := default [] (lists st1 !! pending) in
  match items with
  | [] => (None, st1)
  | top :: _ =>
      match llm (summary_messages st1 items) 200 with
      | ChatReturns (Some summary) =>
          (if truthy_str summary then Some (strip summary) else None, st1)
      | ChatReturns None => (None, st1)
      | ChatRaises => (Some (message_of st1 top), st1)
      end
  end.

End Summary.

Import Summary.

(** ** [_deliver_proactive_alerts] of [assistant/voice_app.py] *)

Module VoiceApp.

(** What the assistant does towards the user: [text_to_speech] and
    [conversation_handler.save].  Console output is left out. *)
Inductive event :=
| Speak (text : string)
| Save (query response : string).

Section Deliver.
Context `{DatetimeLib}.

(** [for alert in proactive_monitor.get_pending_alerts():
       proactive_monitor.mark_delivered(alert)] *)
Definition mark_pending_delivered (st : State) : State :=
  let '(pending, st1) := get_pending_alerts st in
  fold_left (fun s alert => mark_delivered alert s)
    (default [] (lists st1 !! pending)) st1.

(** [_deliver_proactive_alerts].  [proactive_monitor] is the module
    variable, [None] when monitoring is not enabled.  Speaking the
    summary suspends the coroutine until the playback is over;
    [during_speech] is what the tasks of the monitor do to it in the
    meantime. *)
Definition _deliver_proactive_alerts (llm : Llm) (during_speech : list op)
    (force : bool) (proactive_monitor : option State)
    : list event * option State :=
  match proactive_monitor with
  | None =>
      (if force then [Speak "Proactive monitoring is not enabled."] else [],
       None)
  | Some st =>
      if negb (has_alerts st) then
        (if force then
           [Speak "No new updates or alerts at the moment. Everything looks good.";
            Save "Status check" "No new updates."]
         else [],
         Some st)
      else
        let '(summary, st1) := generate_proactive_summary llm st in
        match summary with
        | Some text =>
            if truthy_str text then
              ([Speak text; Save "Proactive notification" text],
               Some (mark_pending_delivered (run during_speech st1)))
            else
              (if force then [Speak "No new updates or alerts at the moment."]
               else [],
               Some st1)
        | None =>
            (if force then [Speak "No new updates or alerts at the moment."]
             else [],
             Some st1)
        end
  end.

End Deliver.

End VoiceApp.

Import VoiceApp.

(** ** Vocabulary for the queue *)

Module Shape.

(** The queue attribute refers to a list that exists, which holds every
    alert at most once and only alerts that exist. *)
Definition well_formed (st : State) : Prop :=
  (alert_queue st < length (lists st))%nat
  /\ NoDup (queue st)
  /\ Forall (fun l => (l < length (alerts st))%nat) (queue st).

(** The queued alerts that are not delivered, in the order of the
    queue. *)
Definition undelivered (st : State) : list loc :=
  List.filter (fun a => negb (is_delivered st a)) (queue st).

(** A language model that is out of order. *)
Definition failing_llm : Llm := fun _ _ => ChatRaises.

(** A language model that answers with nothing but blanks. *)
Definition blank_llm : Llm := fun _ _ => ChatReturns (Some "  "%string).

(** A language model that always gives the same answer. *)
Definition fixed_llm (answer : string) : Llm :=
  fun _ _ => ChatReturns (Some answer).

End Shape.

Import Shape.

(** ** Vocabulary for the delivery *)

Module Delivered.

(** The alert at [l] is marked delivered and its key is recorded. *)
Definition recorded (st : State) (l : loc) : Prop :=
  exists al,
    alerts st !! l = Some al
    /\ delivered al = true
    /\ _alert_key al ∈ _delivered_keys st.

(** While the summary of the three alerts is spoken, the check for new
    orders comes across order 7. *)
Definition order_arrives_during_speech : list op :=
  [ OpCheckNewOrderAssignments (driver_db []) noon ].

End Delivered.

Import Delivered.

(** ** Vocabulary for the detection of changes *)

Module Changes.

(** The alert the status check raises for an order whose remembered
    status is [previous] and whose status is now [current]. *)
Definition status_change (now oid : Z) (previous : option string)
    (current : string) : list ProactiveAlert :=
  match previous with
  | Some p =>
      if truthy_str p && negb (String.eqb current p)
      then [status_alert now oid p current]
      else []
  | None => []
  end.

(** The driver's monitor after its snapshot of a store in which order 7
    is open. *)
Definition watching_order7 : State :=
  _take_initial_snapshot (driver_db [order7 "open" [] None None])
    fresh_monitor.

(** The store once order 7 is delivered. *)
Definition delivered_db : Db := driver_db [order7 "delivered" [] None None].

End Changes.

Import Changes.

(** ** Vocabulary for the deadline alerts *)

Module Once.

(** The two kinds of alert of the deadline check. *)
Definition deadline_alert (a : ProactiveAlert) : bool :=
  String.eqb (alert_type a) "deadline_approaching"
  || String.eqb (alert_type a) "deadline_overdue".

Definition deadline_alert_for (oid : Z) (a : ProactiveAlert) : Prop :=
  deadline_alert a = true /\ order_id a = Some oid.

(** Every deadline alert ever created is for an order that is recorded
    as warned about, and no two of them are for the same order. *)
Definition deadlines_recorded (st : State) : Prop :=
  forall l a, alerts st !! l = Some a -> deadline_alert a = true ->
    exists oid, order_id a = Some oid /\ oid ∈ _warned_deadlines st.

Definition deadlines_unique (st : State) : Prop :=
  forall l1 l2 a1 a2 oid,
    alerts st !! l1 = Some a1 -> alerts st !! l2 = Some a2 ->
    deadline_alert_for oid a1 -> deadline_alert_for oid a2 ->
    l1 = l2.

Definition deadline_invariant (st : State) : Prop :=
  deadlines_recorded st /\ deadlines_unique st.

(** From [st] to [s] alerts were only created, none of them a deadline
    alert, and the orders warned about are the same. *)
Definition keeps_deadlines (st s : State) : Prop :=
  exists new,
    alerts s = alerts st ++ new
    /\ Forall (fun a => deadline_alert a = false) new
    /\ _warned_deadlines s = _warned_deadlines st.

(** A session in which order 7 is first found due in twelve hours, and
    a day later found overdue. *)
Definition due_then_overdue : list op :=
  [ OpCheckDeliveryDeadlines (due_in_db (12 * us_per_hour)) noon;
    OpCheckDeliveryDeadlines (due_in_db (12 * us_per_hour))
      (noon + 24 * us_per_hour) ].

End Once.

Import Once.

(** ** Further monitors and stores *)

Module Watch.

(** The monitor of an administrator. *)
Definition admin_monitor : State := init "admin" "admin" 120 1800 3 24.

(** A store with the orders 1 to 25, in no particular order. *)
Definition order_doc (oid : Z) : OrderDoc := {| id := oid; order := None |}.

Definition many_orders_db : Db :=
  {| connected := true;
     orders := map order_doc
                 [3; 25; 1; 14; 7; 21; 9; 2; 18; 5; 11; 23; 4; 16; 8;
                  20; 6; 12; 24; 10; 13; 22; 15; 17; 19];
     drivers := []; clients := [] |}.

End Watch.

Import Watch.

(** ** [get_weather_by_city] of [services/location_weather.py] *)

Module WeatherService.

(** The degree sign, as its two bytes. *)
Definition degree : string :=
  String (ascii_of_nat 194) (String (ascii_of_nat 176) EmptyString).

(** What [_format_weather] reads in the answer of the weather service,
    the two temperatures after [round]. *)
Record Reading := {
  temperature : Z;
  feels_like : Z;
  humidity : Z;
  description : string
}.

(** What the request comes to: an exception, or an answer with its
    status code and, if it can be read, its content. *)
Inductive Response :=
| RequestRaises
| Answer (status_code : Z) (data : option Reading).

(** [_format_weather] *)
Definition _format_weather (data : Reading) (city_name : string) : string :=
  "The current weather in " +:+ city_name +:+ " is " +:+ description data
  +:+ ". " +:+ "The temperature is " +:+ str_int (temperature data)
  +:+ degree +:+ "C, feels like " +:+ str_int (feels_like data) +:+ degree
  +:+ "C, " +:+ "with " +:+ str_int (humidity data) +:+ "% humidity.".

(** [get_weather_by_city] *)
Definition get_weather_by_city (response : Response) (city_name : string)
    : string :=
  match response with
  | RequestRaises =>
      "Sorry, I encountered an error while fetching weather for "
      +:+ city_name +:+ "."
  | Answer status_code data =>
      if negb (status_code =? 200) then
        "Unable to fetch weather information for " +:+ city_name +:+ "."
      else
        match data with
        | Some reading => _format_weather reading city_name
        | None =>
            "Sorry, I encountered an error while fetching weather for "
            +:+ city_name +:+ "."
        end
  end.

(** A clear day, everywhere. *)
Definition clear_sky : Response :=
  Answer 200 (Some {| temperature := 22; feels_like := 21; humidity := 40;
                      description := "clear sky" |}).

End WeatherService.

Import WeatherService.

(** ** [services/order_cache.py] *)

Module Cache.

(** The content of a file: the JSON document that [json.dump] has
    written in full and that [json.load] reads back as the same value,
    which is taken for granted of the two; or text that is no JSON
    document, as [open(path, "w")] followed by a [json.dump] that
    raises leaves it. *)
Inductive Content :=
| Document (data : json)
| Broken.

(** How the writing of the file ends in [save]: the document is
    written; [open] raises and the file is as it was; or the file is
    opened, by which it loses its content, and [json.dump] raises. *)
Inductive Writing :=
| Written
| NotOpened
| Interrupted.

(** The cache object, with the files of the file system it reads and
    writes: a path is mapped to the content of its file.  Attributes
    that hold [None] or a JSON value hold [JNull] for [None]. *)
Record OrderCache := {
  cache_dir : string;
  files : gmap string Content;
  current_order_id : option Z;
  current_details : json;
  explanation : option string;
  current_role : option string
}.

(** [OrderCache.__init__] *)
Definition new_cache (dir : string) (fs : gmap string Content) : OrderCache :=
  {| cache_dir := dir; files := fs; current_order_id := None;
     current_details := JNull; explanation := None; current_role := None |}.

Definition set_files (v : gmap string Content) (c : OrderCache) : OrderCache :=
  {| cache_dir := cache_dir c; files := v;
     current_order_id := current_order_id c;
     current_details := current_details c;
     explanation := explanation c; current_role := current_role c |}.

(** The assignments to the attributes of the current order. *)
Definition assign (order_id : Z) (details : json) (text : string)
    (c : OrderCache) : OrderCache :=
  {| cache_dir := cache_dir c; files := files c;
     current_order_id := Some order_id; current_details := details;
     explanation := Some text; current_role := current_role c |}.

Definition set_current_role (role : string) (c : OrderCache) : OrderCache :=
  {| cache_dir := cache_dir c; files := files c;
     current_order_id := current_order_id c;
     current_details := current_details c;
     explanation := explanation c; current_role := Some role |}.

(** [s.endswith("/")] *)
Fixpoint ends_with_slash (s : string) : bool :=
  match s with
  | EmptyString => false
  | String c EmptyString => Ascii.eqb c "/"
  | String _ s' => ends_with_slash s'
  end.

(** [os.path.join(a, b)] *)
Definition path_join (a b : string) : string :=
  if String.prefix "/" b then b
  else if negb (truthy_str a) || ends_with_slash a then a +:+ b
  else a +:+ "/" +:+ b.

Definition cache_file (order_id : Z) (role : string) : string :=
  "order_" +:+ str_int order_id +:+ "_" +:+ role +:+ ".json".

(** [_get_cache_path] *)
Definition _get_cache_path (c : OrderCache) (order_id : Z) (role : string)
    : string :=
  path_join (cache_dir c) (cache_file order_id role).

Definition cache_data (order_details : json) (text role : string) : json :=
  JDict [("order_details"%string, order_details);
         ("explanation"%string, JStr text);
         ("role"%string, JStr role)].

(** [save]; every exception is turned into [False]. *)
Definition save (writing : Writing) (order_id : Z) (order_details : json)
    (text role : string) (c : OrderCache) : bool * OrderCache :=
  let cache_path := _get_cache_path c order_id role in
  match writing with
  | Written =>
      (true,
       set_files (<[cache_path
                    := Document (cache_data order_details text role)]>
                    (files c)) c)
  | NotOpened => (false, c)
  | Interrupted => (false, set_files (<[cache_path := Broken]> (files c)) c)
  end.

(** [load]; [(None, None)] also when the content of the file is no
    JSON document or not what [save] writes, by the exception this
    raises. *)
Definition load (order_id : Z) (role : string) (c : OrderCache)
    : json * json :=
  match files c !! _get_cache_path c order_id role with
  | Some (Document (JDict entries)) =>
      match dict_get "role" entries with
      | Some (JStr r) =>
          if String.eqb r role then
            match dict_get "order_details" entries,
                  dict_get "explanation" entries with
            | Some details, Some text => (details, text)
            | _, _ => (JNull, JNull)
            end
          else (JNull, JNull)
      | _ => (JNull, JNull)
      end
  | _ => (JNull, JNull)
  end.

(** [set_current_order] *)
Definition set_current_order (writing : Writing) (order_id : Z)
    (order_details : json) (text role : string) (c : OrderCache)
    : OrderCache :=
  snd (save writing order_id order_details text role
         (set_current_role role (assign order_id order_details text c))).

End Cache.

Import Cache.

(** ** The choice of the order in [generate_response] of
    [assistant/__init__.py] *)

Module Assistant.

(** Truth value of a JSON value. *)
Definition truthy_json (v : json) : bool :=
  match v with
  | JNull => false
  | JBool b => b
  | JInt n => negb (n =? 0)
  | JStr s => truthy_str s
  | JList items => match items with [] => false | _ => true end
  | JDict entries => match entries with [] => false | _ => true end
  end.

(** What the first part of [generate_response] comes to: a reply that
    ends the function, or the order details to answer from. *)
Inductive Choice :=
| Reply (message : string)
| Proceed.

(** The block under [if should_switch or order_cache.current_order_id
    is None]; [inl] is the reply of its [return]. *)
Definition switch_order (store : OrderStore) (writing : Writing)
    (role : string)
    (relevant_order_ids : list Z) (text : string) (c : OrderCache)
    : string + OrderCache :=
  match relevant_order_ids with
  | [] => inr c
  | new_order_id :: _ =>
      let '(cached_details, _) := load new_order_id role c in
      match cached_details with
      | JNull =>
          match get_order_details store relevant_order_ids role with
          | [] =>
              inl "Sorry, couldn't fetch order details from the database."%string
          | order_details =>
              inr (assign new_order_id (JList order_details) text
                     (set_current_order writing new_order_id
                        (JList order_details) text role c))
          end
      | _ => inr (assign new_order_id cached_details text c)
      end
  end.

(** [generate_response] up to the check that there are order details.
    The orders collection is read twice: by [resolve_order_context]
    through [db], and by [get_order_details] through [store]. *)
Definition choose_order (db : Mongo.Db) (store : OrderStore)
    (writing : Writing) (query user_email role : string) (c : OrderCache)
    : Choice * OrderCache :=
  match get_user_info db role user_email with
  | ErrorDict message => (Reply message, c)
  | InfoDict user_data =>
      let '(should_switch, relevant_order_ids, text) :=
        resolve_order_context db query (current_order_id c) user_data in
      let switched :=
        if should_switch
           || match current_order_id c with None => true | Some _ => false end
        then switch_order store writing role relevant_order_ids text c
        else inr c in
      match switched with
      | inl message => (Reply message, c)
      | inr c' =>
          if truthy_json (current_details c') then (Proceed, c')
          else
            (Reply "Sorry, no order details are currently available.", c')
      end
  end.

End Assistant.

Import Assistant.

(** ** Vocabulary for the cache and the choice *)

Module Chosen.

(** The orders of a driver or client, as the store lists them. *)
Definition own_orders (db : Mongo.Db) (role email : string) : list Z :=
  match Mongo.find_user (if String.eqb role "driver" then Mongo.drivers db
                         else Mongo.clients db) email with
  | Some user_doc => default [] (Mongo.order_ids user_doc)
  | None => []
  end.

(** No key of [details], at any depth, is hidden from [role]. *)
Definition clean_for (role : string) (details : json) : Prop :=
  forall k, In k (all_keys details) ->
    (k ∉ META_EXCLUDED_FIELDS)
    /\ (k ∉ ADMIN_EXCLUDED_FIELDS)
    /\ (role <> "admin"%string -> k ∉ COMMON_EXCLUDED_FIELDS).

(** Every file that names a role holds order details that are clean for
    that role. *)
Definition clean_files (c : OrderCache) : Prop :=
  forall path entries role details,
    files c !! path = Some (Document (JDict entries)) ->
    dict_get "role" entries = Some (JStr role) ->
    dict_get "order_details" entries = Some details ->
    clean_for role details.

(** The orders collection as [get_order_details] reads it, with the
    order 500 of the driver. *)
Definition driver_store : OrderStore :=
  {| reachable := true;
     documents := [ {| raw_id := 500; raw_order := Some invoice_order |} ] |}.

Definition empty_cache : OrderCache := new_cache "data/order_cache" ∅.

End Chosen.

Import Chosen.

(** ** Vocabulary for the exceptions of the resolution *)

Module Failure.

(** One of the position phrases occurs in the query. *)
Definition names_position (query : string) : bool :=
  existsb (fun kv => contains (fst kv) (lower query))
    Constants.POSITION_MAPPINGS.

(** Read from the left, the numbers come to a run of more digits than
    [int] accepts before they come to an id of the list. *)
Fixpoint meets_long_number (numbers : list (list ascii)) (order_ids : list Z)
    : bool :=
  match numbers with
  | [] => false
  | num :: rest =>
      if (int_max_str_digits <? length num)%nat then true
      else if bool_decide (digits_value num ∈ order_ids) then false
      else meets_long_number rest order_ids
  end.

(** The info of the driver, or else of the client. *)
Definition user_info (user_data : gmap string UserInfo) : option UserInfo :=
  match user_data !! "driver_info" with
  | Some info => Some info
  | None => user_data !! "client_info"
  end.

(** The inputs on which an exception occurs during the resolution, and
    the exception: an administrator's query while the store cannot be
    reached; a driver or client whose info has no ["order_ids"]; a
    query that names no position and whose numbers come to one that
    [int] refuses. *)
Definition exception_during (db : Mongo.Db) (query : string)
    (user_data : gmap string UserInfo) : option exn :=
  match user_data !! "admin_info" with
  | Some _ => if Mongo.connected db then None else Some ConnectionFailure
  | None =>
      match user_info user_data with
      | None => None
      | Some info =>
          match OrderService.order_ids info with
          | None => Some (KeyError "order_ids")
          | Some ids =>
              if negb (names_position query)
                 && meets_long_number (re_findall number_pattern query) ids
              then Some Py.ValueError
              else None
          end
      end
  end.

(** The first character of the explanation of an answer. *)
Definition opening (r : resolution) : option ascii :=
  match snd r with
  | String c _ => Some c
  | EmptyString => None
  end.

(** A driver whose info has no order list, and a number of 4301
    digits. *)
Definition no_order_list : gmap string UserInfo :=
  {[ "driver_info"%string := {| OrderService.order_ids := None |} ]}.

Definition long_number : string :=
  string_of_list_ascii (replicate 4301 "7"%char).

End Failure.

Import Failure.

(** * Properties *)

(** ** Order-context resolution *)

Section Resolution.
Variable db : Mongo.Db.
Variable current_order_id : option Z.

(** C7. With the order list [500, 450, 400, 350], "the third last
    order" resolves to order 400 (index 2) with a switch, and "the
    tenth last order" to no order and no switch, with a text saying
    that there is none; the current order plays no part in either, and
    drivers and clients are treated alike. *)
Theorem relative_position_resolution :
    resolve_order_context db "show me the third last order" current_order_id
      (orders_of_user "driver_info")
    = (true, [400], "Using third latest order (400) for driver"%string)
    /\ resolve_order_context db "show me the tenth last order" current_order_id
         (orders_of_user "driver_info")
       = (false, [], "No tenth last order available for driver"%string)
    /\ resolve_order_context db "show me the third last order" current_order_id
         (orders_of_user "client_info")
       = (true, [400], "Using third latest order (400) for client"%string)
    /\ resolve_order_context db "show me the tenth last order" current_order_id
         (orders_of_user "client_info")
       = (false, [], "No tenth last order available for client"%string).
Proof. repeat split; vm_compute; reflexivity. Qed.

End Resolution.

(** An administrator naming an order: found when the store holds it,
    and a request for an id when it does not and no order is current. *)
Example admin_explicit_order_id :
  resolve_order_context one_order_db "tell me about order 2892" None admin_data
  = (true, [2892], "Accessing order 2892 as admin"%string)
  /\ resolve_order_context one_order_db "tell me about order 2893" None
       admin_data
     = (false, [], "Please specify an order ID"%string).
Proof. split; vm_compute; reflexivity. Qed.

(** ** The sort *)

Lemma filter_none {A} (f : A -> bool) (l : list A) :
  (forall z, In z l -> f z = false) -> List.filter f l = [].
Proof.
  induction l as [|y l IH]; simpl; intros Hf; [reflexivity |].
  rewrite (Hf y) by now left. apply IH. intros z Hz. apply Hf. now right.
Qed.

Section SortFacts.
Context {A : Type} (key : A -> Z).

Let lt (a b : A) : bool := key a <? key b.
Let le (a b : A) : Prop := key a <= key b.

Lemma sort_snoc (xs : list A) (x : A) :
    sort lt (xs ++ [x]) = insert_last lt x (sort lt xs).
Proof. unfold sort. now rewrite fold_left_app. Qed.

Lemma insert_last_perm (x : A) (l : list A) :
    Permutation (insert_last lt x l) (l ++ [x]).
Proof.
    induction l as [|y l IH]; simpl; [reflexivity |].
    destruct (lt x y).
    - change (x :: y :: l) with ([x] ++ (y :: l)).
      change (y :: l ++ [x]) with ((y :: l) ++ [x]).
      apply Permutation_app_comm.
    - now constructor.
Qed.

Lemma sort_perm (xs : list A) : Permutation (sort lt xs) xs.
Proof.
    induction xs as [|x xs IH] using rev_ind; [reflexivity |].
    rewrite sort_snoc, insert_last_perm. now apply Permutation_app_tail.
Qed.

Lemma insert_last_sorted (x : A) (l : list A) :
    StronglySorted le l -> StronglySorted le (insert_last lt x l).
Proof.
    induction 1 as [|y l Hl IH Hy]; simpl.
    - repeat constructor.
    - destruct (lt x y) eqn:Hxy; unfold lt in Hxy.
      + constructor; [now constructor |].
        constructor; [unfold le; lia |].
        eapply List.Forall_impl; [| exact Hy].
        unfold le; intros z Hz; simpl in *; lia.
      + constructor; [exact IH |].
        eapply Permutation_Forall; [symmetry; apply insert_last_perm |].
        apply Forall_app; split; [exact Hy |].
        repeat constructor. unfold le; lia.
Qed.

Lemma sort_sorted (xs : list A) : StronglySorted le (sort lt xs).
Proof.
    induction xs as [|x xs IH] using rev_ind; [constructor |].
    rewrite sort_snoc. now apply insert_last_sorted.
Qed.

  (** Among the elements of one key, insertion appends. *)
Lemma insert_last_stable (p : Z) (x : A) (l : list A) :
    StronglySorted le l ->
    List.filter (fun a => key a =? p) (insert_last lt x l)
    = List.filter (fun a => key a =? p) (l ++ [x]).
Proof.
    induction 1 as [|y l Hl IH Hy]; simpl; [reflexivity |].
    destruct (lt x y) eqn:Hxy; unfold lt in Hxy; simpl.
    - destruct (key x =? p) eqn:Hx.
      + assert (Hnone : List.filter (fun a => key a =? p) (y :: l) = []).
        { apply filter_none. intros z Hz.
          assert (key y <= key z).
          { destruct Hz as [<- | Hz]; [lia |].
            rewrite List.Forall_forall in Hy. now apply Hy. }
          lia. }
        simpl in Hnone. rewrite List.filter_app. simpl. rewrite Hx.
        destruct (key y =? p); [discriminate |].
        now rewrite Hnone.
      + rewrite List.filter_app. simpl. rewrite Hx. now rewrite app_nil_r.
    - rewrite IH. reflexivity.
Qed.

Lemma sort_stable (p : Z) (xs : list A) :
    List.filter (fun a => key a =? p) (sort lt xs)
    = List.filter (fun a => key a =? p) xs.
Proof.
    induction xs as [|x xs IH] using rev_ind; [reflexivity |].
    rewrite sort_snoc, insert_last_stable by apply sort_sorted.
    rewrite !List.filter_app. now rewrite IH.
Qed.

End SortFacts.

(** ** The delivery interface *)

Section Delivery.

Lemma alter_last {B} (f : B -> B) (l : list B) (x : B) :
  alter f (length l) (l ++ [x]) = l ++ [f x].
Proof.
  replace (length l) with (length l + 0)%nat at 1 by lia.
  now rewrite alter_app_r.
Qed.

Lemma get_pending_alerts_unfold (st : State) :
  get_pending_alerts st
  = (length (lists st),
     set_lists
       (lists st
        ++ [sort (alert_lt st)
              (List.filter (fun a => negb (is_delivered st a)) (queue st))])
       st).
Proof.
  unfold get_pending_alerts, new_list. cbn [lists set_lists].
  now rewrite alter_last.
Qed.

(** C1. The list [get_pending_alerts] returns holds exactly the
    undelivered alerts of the queue, in ascending order of priority
    value, and alerts of one priority stand in it in the order of the
    queue. *)
Theorem get_pending_alerts_sorted_stable (st : State) :
  let pending := fst (get_pending_alerts st) in
  let st' := snd (get_pending_alerts st) in
  let undelivered :=
    List.filter (fun a => negb (is_delivered st a)) (queue st) in
  exists result : list loc,
    lists st' !! pending = Some result
    /\ Permutation result undelivered
    /\ StronglySorted (fun a b => priority_of st a <= priority_of st b) result
    /\ forall p : Z,
         List.filter (fun a => priority_of st a =? p) result
         = List.filter (fun a => priority_of st a =? p) undelivered.
Proof.
  rewrite get_pending_alerts_unfold. cbn [fst snd lists set_lists].
  eexists. split; [apply list_lookup_middle; reflexivity |].
  split; [apply (sort_perm (priority_of st)) |].
  split; [apply (sort_sorted (priority_of st)) |].
  intros p. apply (sort_stable (priority_of st)).
Qed.

(** C10. [get_pending_alerts] leaves the queue as it was (same list
    object, same elements in the same order), touches no alert and none
    of the sets and maps of the monitor, and hands out a list object
    that did not exist before. *)
Theorem get_pending_alerts_read_only (st : State) :
  (alert_queue st < length (lists st))%nat ->
  let pending := fst (get_pending_alerts st) in
  let st' := snd (get_pending_alerts st) in
  alert_queue st' = alert_queue st
  /\ queue st' = queue st
  /\ alerts st' = alerts st
  /\ _delivered_keys st' = _delivered_keys st
  /\ _warned_permits st' = _warned_permits st
  /\ _warned_deadlines st' = _warned_deadlines st
  /\ _last_order_statuses st' = _last_order_statuses st
  /\ _last_order_ids st' = _last_order_ids st
  /\ pending <> alert_queue st
  /\ lists st !! pending = None
  /\ forall l : loc, l <> pending -> lists st' !! l = lists st !! l.
Proof.
  intros Hq. rewrite get_pending_alerts_unfold. cbn [fst snd].
  repeat split; try reflexivity.
  - unfold queue. cbn [lists alert_queue set_lists].
    now rewrite lookup_app_l.
  - lia.
  - apply lookup_ge_None. lia.
  - intros l Hl. cbn [lists set_lists].
    destruct (decide (l < length (lists st))%nat).
    + now rewrite lookup_app_l.
    + rewrite !(proj2 (lookup_ge_None _ _)); [reflexivity | lia |].
      rewrite length_app. simpl. lia.
Qed.

Lemma get_pending_alerts_read_only_witness :
  (alert_queue three_alerts < length (lists three_alerts))%nat
  /\ queue (snd (get_pending_alerts three_alerts)) = [0; 1; 2]%nat
  /\ lists (snd (get_pending_alerts three_alerts))
       !! fst (get_pending_alerts three_alerts) = Some [1; 0; 2]%nat
  /\ fst (get_pending_alerts three_alerts) <> alert_queue three_alerts.
Proof.
  assert (Hq : (alert_queue three_alerts < length (lists three_alerts))%nat)
    by (vm_compute; lia).
  pose proof (get_pending_alerts_read_only three_alerts Hq) as Hro.
  cbv zeta in Hro.
  destruct Hro as (_ & Hqueue & _ & _ & _ & _ & _ & _ & Hfresh & _).
  split; [exact Hq |].
  split; [rewrite Hqueue; vm_compute; reflexivity |].
  split; [vm_compute; reflexivity | exact Hfresh].
Defined.

(** *** What the elementary steps leave alone *)

Lemma emit_alerts (a : ProactiveAlert) (st : State) :
  alerts (emit a st) = alerts st ++ [a].
Proof.
  unfold emit, new_alert, _enqueue_alert. cbn [alerts set_alerts].
  rewrite list_lookup_middle by reflexivity.
  now destruct (bool_decide _).
Qed.

Lemma emit_frame (a : ProactiveAlert) (st : State) :
  _delivered_keys (emit a st) = _delivered_keys st
  /\ _warned_permits (emit a st) = _warned_permits st
  /\ _warned_deadlines (emit a st) = _warned_deadlines st
  /\ _last_order_statuses (emit a st) = _last_order_statuses st
  /\ _last_order_ids (emit a st) = _last_order_ids st
  /\ alert_queue (emit a st) = alert_queue st
  /\ permit_warning_days (emit a st) = permit_warning_days st
  /\ deadline_warning_hours (emit a st) = deadline_warning_hours st
  /\ user_role (emit a st) = user_role st
  /\ user_email (emit a st) = user_email st
  /\ _running (emit a st) = _running st.
Proof.
  unfold emit, new_alert, _enqueue_alert. cbn [alerts set_alerts].
  rewrite list_lookup_middle by reflexivity.
  destruct (bool_decide _); repeat split; reflexivity.
Qed.

Lemma emit_delivered_keys a st : _delivered_keys (emit a st) = _delivered_keys st.
Proof. apply emit_frame. Qed.

Lemma emit_warned_permits a st : _warned_permits (emit a st) = _warned_permits st.
Proof. apply emit_frame. Qed.

Lemma emit_warned_deadlines a st :
  _warned_deadlines (emit a st) = _warned_deadlines st.
Proof. apply emit_frame. Qed.

Lemma emit_last_order_statuses a st :
  _last_order_statuses (emit a st) = _last_order_statuses st.
Proof. apply emit_frame. Qed.

Lemma emit_permit_warning_days a st :
  permit_warning_days (emit a st) = permit_warning_days st.
Proof. apply emit_frame. Qed.

Lemma emit_deadline_warning_hours a st :
  deadline_warning_hours (emit a st) = deadline_warning_hours st.
Proof. apply emit_frame. Qed.

(** A new alert whose key is not recorded goes to the end of the queue. *)
Lemma emit_enqueues (a : ProactiveAlert) (st : State) :
  (alert_queue st < length (lists st))%nat ->
  _alert_key a ∉ _delivered_keys st ->
  queue (emit a st) = queue st ++ [length (alerts st)].
Proof.
  intros Hq Hkey. unfold emit, new_alert, _enqueue_alert.
  cbn [alerts set_alerts _delivered_keys].
  rewrite list_lookup_middle by reflexivity.
  rewrite bool_decide_eq_false_2 by exact Hkey.
  unfold queue. cbn [lists alert_queue set_lists set_alerts].
  now rewrite list_lookup_insert_eq.
Qed.

(** Suppression: an alert whose key is recorded does not reach the queue. *)
Lemma enqueue_suppressed (l : loc) (al : ProactiveAlert) (st : State) :
  alerts st !! l = Some al ->
  _alert_key al ∈ _delivered_keys st ->
  _enqueue_alert l st = st.
Proof.
  intros Hl Hkey. unfold _enqueue_alert. rewrite Hl.
  now rewrite bool_decide_eq_true_2.
Qed.

End Delivery.

(** ** What the checks do to the store of alerts *)

Section Effects.
Context `{DatetimeLib}.

Lemma appends_refl Q st : appends Q st st.
Proof. exists []. now rewrite app_nil_r. Qed.

Lemma appends_trans Q st1 st2 st3 :
  appends Q st1 st2 -> appends Q st2 st3 -> appends Q st1 st3.
Proof.
  intros (n1 & Ha1 & Hq1 & Hk1) (n2 & Ha2 & Hq2 & Hk2).
  exists (n1 ++ n2). rewrite Ha2, Ha1, Hk2, Hk1, app_assoc.
  repeat split. now apply Forall_app.
Qed.

Lemma appends_emit (Q : ProactiveAlert -> Prop) a st :
  Q a -> appends Q st (emit a st).
Proof.
  intros Hq. exists [a]. rewrite emit_alerts, emit_delivered_keys.
  repeat split. now constructor.
Qed.

(** A change of attributes other than the alerts and the keys. *)
Lemma appends_attr Q st st' st'' :
  alerts st'' = alerts st' ->
  _delivered_keys st'' = _delivered_keys st' ->
  appends Q st st' -> appends Q st st''.
Proof.
  intros Ha Hk (n & Ha' & Hq & Hk'). exists n. now rewrite Ha, Hk.
Qed.

Lemma fold_left_appends {X} Q (f : State -> X -> State) (l : list X) :
  (forall s x, appends Q s (f s x)) ->
  forall st, appends Q st (fold_left f l st).
Proof.
  intros Hf. induction l as [|x l IH]; intros st; simpl.
  - apply appends_refl.
  - eapply appends_trans; [apply Hf | apply IH].
Qed.

Lemma fold_left_invariant {X} (I : State -> Prop) (f : State -> X -> State)
    (l : list X) :
  (forall s x, I s -> I (f s x)) ->
  forall st, I st -> I (fold_left f l st).
Proof.
  intros Hf. induction l as [|x l IH]; intros st Hst; simpl; auto.
Qed.

Lemma appends_setters Q st st' :
  appends Q st st' ->
  (forall v, appends Q st (set_last_order_statuses v st'))
  /\ (forall v, appends Q st (set_last_order_ids v st'))
  /\ (forall v, appends Q st (set_warned_permits v st'))
  /\ (forall v, appends Q st (set_warned_deadlines v st'))
  /\ (forall v, appends Q st (set_lists v st'))
  /\ (forall v, appends Q st (set_alert_queue v st'))
  /\ (forall v, appends Q st (set_running v st')).
Proof.
  intros Hst; repeat split; intros v;
    (eapply appends_attr; [| | exact Hst]; reflexivity).
Qed.

Ltac appends_step :=
  first
    [ apply appends_refl
    | apply appends_emit; cbn; first [discriminate | congruence | auto]
    | apply appends_setters ].

Lemma snapshot_step_appends db st oid :
  appends not_weather st (snapshot_step db st oid).
Proof. unfold snapshot_step. repeat case_match; repeat appends_step. Qed.

Lemma take_initial_snapshot_appends db st :
  appends not_weather st (_take_initial_snapshot db st).
Proof.
  unfold _take_initial_snapshot. case_match.
  - eapply appends_trans; [| apply fold_left_appends, snapshot_step_appends].
    repeat appends_step.
  - repeat appends_step.
Qed.

Lemma status_step_appends db now st oid :
  appends not_weather st (status_step db now st oid).
Proof.
  unfold status_step, not_weather. repeat case_match; repeat appends_step.
Qed.

Lemma check_order_status_changes_appends db now st :
  appends not_weather st (_check_order_status_changes db now st).
Proof.
  unfold _check_order_status_changes. case_match; [| apply appends_refl].
  apply fold_left_appends. intros; apply status_step_appends.
Qed.

Lemma check_new_order_assignments_appends db now st :
  appends not_weather st (_check_new_order_assignments db now st).
Proof.
  unfold _check_new_order_assignments, not_weather.
  apply appends_setters.
  apply fold_left_appends. intros; repeat appends_step.
Qed.

Lemma expiry_step_appends now oid name attached st :
  appends not_weather st (expiry_step now oid name attached st).
Proof.
  unfold expiry_step, add_warned_permit, not_weather.
  repeat case_match; repeat appends_step.
Qed.

Lemma issue_step_appends now oid name permit_status st :
  appends not_weather st (issue_step now oid name permit_status st).
Proof.
  unfold issue_step, add_warned_permit, not_weather.
  repeat case_match; repeat appends_step.
Qed.

Lemma permit_step_appends now oid st entry :
  appends not_weather st (permit_step now oid st entry).
Proof.
  unfold permit_step. case_match; [apply appends_refl |].
  eapply appends_trans; [apply expiry_step_appends | apply issue_step_appends].
Qed.

Lemma check_permit_expirations_appends db now st :
  appends not_weather st (_check_permit_expirations db now st).
Proof.
  unfold _check_permit_expirations. case_match; [| apply appends_refl].
  apply fold_left_appends. intros s oid. unfold permit_order_step.
  repeat case_match; try apply appends_refl.
  apply fold_left_appends. intros; apply permit_step_appends.
Qed.

Lemma deadline_scan_appends now oid doc fields st :
  appends not_weather st (deadline_scan now oid doc fields st).
Proof.
  induction fields as [|f fields IH]; simpl; [apply appends_refl |].
  destruct (deadline_field now oid doc st f) as [a|] eqn:Hf; [| exact IH].
  unfold add_warned_deadline.
  apply appends_setters.
  apply appends_emit. unfold not_weather.
  unfold deadline_field in Hf.
  repeat case_match; try discriminate; injection Hf as <-; cbn; discriminate.
Qed.

Lemma check_delivery_deadlines_appends db now st :
  appends not_weather st (_check_delivery_deadlines db now st).
Proof.
  unfold _check_delivery_deadlines. case_match; [| apply appends_refl].
  apply fold_left_appends. intros s oid. unfold deadline_order_step.
  repeat case_match; try apply appends_refl.
  apply deadline_scan_appends.
Qed.

Lemma clear_old_alerts_appends now hours st :
  appends not_weather st (clear_old_alerts now hours st).
Proof. unfold clear_old_alerts, new_list. repeat appends_step. Qed.

Lemma fast_cycle_appends db now st :
  appends not_weather st (fast_cycle db now st).
Proof.
  unfold fast_cycle.
  eapply appends_trans; [apply check_order_status_changes_appends |].
  eapply appends_trans; [apply check_new_order_assignments_appends |].
  eapply appends_trans; [apply check_permit_expirations_appends |].
  eapply appends_trans; [apply check_delivery_deadlines_appends |].
  apply clear_old_alerts_appends.
Qed.

End Effects.

(** ** Delivery keys *)

Section Keys.
Context `{DatetimeLib}.

Lemma mark_delivered_keys_mono alert st :
  _delivered_keys st ⊆ _delivered_keys (mark_delivered alert st).
Proof.
  unfold mark_delivered. case_match; [| reflexivity].
  cbn [_delivered_keys set_delivered_keys set_alerts]. set_solver.
Qed.

Lemma weather_city_step_keys_mono w now oid st city :
  _delivered_keys st ⊆ _delivered_keys (weather_city_step w now oid st city).
Proof.
  unfold weather_city_step, add_delivered_key.
  repeat case_match; try reflexivity.
  cbn [_delivered_keys set_delivered_keys]. rewrite emit_delivered_keys.
  set_solver.
Qed.

Lemma check_route_weather_keys_mono db w now st :
  _delivered_keys st ⊆ _delivered_keys (_check_route_weather db w now st).
Proof.
  unfold _check_route_weather. case_match; [| reflexivity].
  apply (fold_left_invariant (fun s => _delivered_keys st ⊆ _delivered_keys s));
    [| reflexivity].
  intros s oid Hs. unfold weather_order_step.
  repeat case_match; try exact Hs.
  apply (fold_left_invariant (fun s => _delivered_keys st ⊆ _delivered_keys s));
    [| exact Hs].
  intros s' city Hs'. etransitivity; [exact Hs' |].
  apply weather_city_step_keys_mono.
Qed.

Lemma appends_keys Q st st' :
  appends Q st st' -> _delivered_keys st' = _delivered_keys st.
Proof. now intros (n & _ & _ & Hk). Qed.

(** No operation ever forgets a key. *)
Lemma run_op_keys_mono st o :
  _delivered_keys st ⊆ _delivered_keys (run_op st o).
Proof.
  destruct o; cbn [run_op].
  - unfold start. now case_match.
  - reflexivity.
  - now rewrite get_pending_alerts_unfold.
  - apply mark_delivered_keys_mono.
  - now rewrite (appends_keys _ _ _ (clear_old_alerts_appends _ _ _)).
  - now rewrite (appends_keys _ _ _ (take_initial_snapshot_appends _ _)).
  - now rewrite (appends_keys _ _ _ (check_order_status_changes_appends _ _ _)).
  - now rewrite (appends_keys _ _ _ (check_new_order_assignments_appends _ _ _)).
  - now rewrite (appends_keys _ _ _ (check_permit_expirations_appends _ _ _)).
  - now rewrite (appends_keys _ _ _ (check_delivery_deadlines_appends _ _ _)).
  - apply check_route_weather_keys_mono.
Qed.

Lemma run_keys_mono ops st :
  _delivered_keys st ⊆ _delivered_keys (run ops st).
Proof.
  unfold run.
  apply (fold_left_invariant (fun s => _delivered_keys st ⊆ _delivered_keys s));
    [| reflexivity].
  intros s o Hs. etransitivity; [exact Hs | apply run_op_keys_mono].
Qed.

Lemma alert_key_triple (a b : ProactiveAlert) :
  alert_type a = alert_type b -> order_id a = order_id b -> title a = title b ->
  _alert_key a = _alert_key b.
Proof. unfold _alert_key. now intros -> -> ->. Qed.

Lemma mark_delivered_twice alert st :
  mark_delivered alert (mark_delivered alert st) = mark_delivered alert st.
Proof.
  unfold mark_delivered at 2 3.
  destruct (alerts st !! alert) as [al|] eqn:Hal.
  - unfold mark_delivered.
    cbn [alerts set_alerts set_delivered_keys _delivered_keys].
    rewrite list_lookup_insert_eq by (eapply lookup_lt_Some; exact Hal).
    unfold set_delivered_keys, set_alerts; cbn.
    rewrite list_insert_insert_eq. f_equal.
    change (with_delivered true (with_delivered true al))
      with (with_delivered true al).
    now rewrite (assoc_L (∪)), (idemp_L (∪)).
  - unfold mark_delivered. now rewrite Hal.
Qed.

(** C2. Marking an alert delivered a second time changes nothing; the
    first time records its key; and from a state in which a key is
    recorded, whatever happens to the monitor afterwards (the cleaning of
    the queue included), an alert of the same kind, order and title is
    not put on the queue by the enqueue step. *)
Theorem mark_delivered_idempotent_and_final
    (st : State) (alert : loc) (known : ProactiveAlert) (ops : list op)
    (other : loc) (al' : ProactiveAlert) :
  mark_delivered alert (mark_delivered alert st) = mark_delivered alert st
  /\ (forall al, alerts st !! alert = Some al ->
       _alert_key al ∈ _delivered_keys (mark_delivered alert st))
  /\ (_alert_key known ∈ _delivered_keys st ->
      alerts (run ops st) !! other = Some al' ->
      alert_type al' = alert_type known ->
      order_id al' = order_id known ->
      title al' = title known ->
      _enqueue_alert other (run ops st) = run ops st
      /\ queue (_enqueue_alert other (run ops st)) = queue (run ops st)).
Proof.
  split; [apply mark_delivered_twice |]. split.
  - intros al Hal. unfold mark_delivered. rewrite Hal.
    cbn [_delivered_keys set_delivered_keys]. unfold _alert_key. cbn.
    set_solver.
  - intros Hkey Hother Ht Ho Hti.
    assert (Heq : _enqueue_alert other (run ops st) = run ops st).
    { eapply enqueue_suppressed; [exact Hother |].
      rewrite (alert_key_triple al' known Ht Ho Hti).
      now apply run_keys_mono. }
    now rewrite Heq.
Qed.

End Keys.

(** The new-order alert for order 7 is delivered and later purged from
    the queue; when order 7 is announced again, the queue stays as it
    is. *)
Lemma mark_delivered_idempotent_and_final_witness :
  _alert_key (new_order_alert 10 7) ∈ _delivered_keys first_delivered
  /\ alerts (run purge_then_recheck first_delivered) !! 3%nat
     = Some (new_order_alert a_day_later 7)
  /\ queue (run purge_then_recheck first_delivered) = [1; 2]%nat
  /\ _enqueue_alert 3%nat (run purge_then_recheck first_delivered)
     = run purge_then_recheck first_delivered.
Proof.
  assert (Hkey : _alert_key (new_order_alert 10 7)
                 ∈ _delivered_keys first_delivered)
    by (apply (bool_decide_unpack _); vm_compute; exact I).
  assert (Hnew : alerts (run purge_then_recheck first_delivered) !! 3%nat
                 = Some (new_order_alert a_day_later 7))
    by (vm_compute; reflexivity).
  split; [exact Hkey |]. split; [exact Hnew |].
  split; [vm_compute; reflexivity |].
  apply (mark_delivered_idempotent_and_final first_delivered 0%nat
           (new_order_alert 10 7) purge_then_recheck 3%nat
           (new_order_alert a_day_later 7));
    [exact Hkey | exact Hnew | reflexivity | reflexivity | reflexivity].
Defined.

(** ** Cold start *)

Section ColdStart.
Context `{DatetimeLib}.

Lemma snapshot_step_frame db st oid :
  alerts (snapshot_step db st oid) = alerts st
  /\ lists (snapshot_step db st oid) = lists st
  /\ alert_queue (snapshot_step db st oid) = alert_queue st
  /\ _last_order_ids (snapshot_step db st oid) = _last_order_ids st.
Proof. unfold snapshot_step. now case_match. Qed.

Lemma snapshot_step_keeps db st oid o doc :
  find_order db o = Some doc ->
  _last_order_statuses st !! o = Some (_extract_order_status doc) ->
  _last_order_statuses (snapshot_step db st oid) !! o
  = Some (_extract_order_status doc).
Proof.
  intros Hdoc Hst. unfold snapshot_step.
  destruct (find_order db oid) as [doc'|] eqn:Hdoc'; [| exact Hst].
  cbn [_last_order_statuses set_last_order_statuses].
  destruct (decide (oid = o)) as [-> | Hne].
  - rewrite lookup_insert_eq. congruence.
  - now rewrite lookup_insert_ne.
Qed.

Lemma snapshot_fold db (ids : list Z) st :
  let st' := fold_left (snapshot_step db) ids st in
  alerts st' = alerts st
  /\ lists st' = lists st
  /\ alert_queue st' = alert_queue st
  /\ _last_order_ids st' = _last_order_ids st
  /\ forall oid doc, oid ∈ ids -> find_order db oid = Some doc ->
       _last_order_statuses st' !! oid = Some (_extract_order_status doc).
Proof.
  revert st. induction ids as [|x ids IH]; intros st; cbn zeta; simpl.
  - repeat split. intros oid doc Hin. now apply elem_of_nil in Hin.
  - destruct (IH (snapshot_step db st x)) as (Ha & Hl & Hq & Hi & Hs).
    destruct (snapshot_step_frame db st x) as (Ha' & Hl' & Hq' & Hi').
    rewrite Ha, Hl, Hq, Hi. repeat split; try assumption.
    intros oid doc Hin Hdoc.
    destruct (decide (oid ∈ ids)) as [Hids | Hids]; [now apply Hs |].
    apply elem_of_cons in Hin as [-> | Hin]; [| contradiction].
    apply (fold_left_invariant
             (fun s => _last_order_statuses s !! x
                       = Some (_extract_order_status doc))).
    + intros s y Hsy. now apply snapshot_step_keeps.
    + unfold snapshot_step. rewrite Hdoc.
      cbn [_last_order_statuses set_last_order_statuses].
      apply lookup_insert_eq.
Qed.

Lemma get_db_connected db : connected db = true -> get_db db = Ok db.
Proof. unfold get_db. now intros ->. Qed.

Lemma user_order_ids_connected db st oid :
  oid ∈ _get_user_order_ids db st -> connected db = true.
Proof.
  unfold _get_user_order_ids, get_db.
  destruct (connected db); [reflexivity |].
  intros Hin. now apply elem_of_nil in Hin.
Qed.

(** C3. The first activation of the fast loop after [start()], which is
    the initial snapshot, creates no alert and leaves every list, the
    queue among them, as it was; afterwards the remembered order ids are
    exactly the ids fetched for the user, and every fetched id whose
    document the store holds is mapped to the status of that document. *)
Theorem cold_start_snapshot (st : State) (db : Db) :
  let st' := _monitor_loop db [] (start st) in
  alerts st' = alerts st
  /\ lists st' = lists st
  /\ queue st' = queue st
  /\ (forall oid, oid ∈ _last_order_ids st' <-> oid ∈ _get_user_order_ids db st)
  /\ (forall oid doc,
        oid ∈ _get_user_order_ids db st ->
        find_order db oid = Some doc ->
        _last_order_statuses st' !! oid = Some (_extract_order_status doc)).
Proof.
  cbn zeta. unfold _monitor_loop. cbn [monitor_cycles].
  assert (Hids : _get_user_order_ids db (start st) = _get_user_order_ids db st).
  { unfold start. now destruct (_running st). }
  assert (Hstart : alerts (start st) = alerts st /\ lists (start st) = lists st
                   /\ alert_queue (start st) = alert_queue st).
  { unfold start. now destruct (_running st). }
  destruct Hstart as (Hsa & Hsl & Hsq).
  unfold _take_initial_snapshot. rewrite Hids.
  set (st1 := set_last_order_ids (list_to_set (_get_user_order_ids db st))
                (start st)).
  destruct (get_db db) as [db' | e] eqn:Hdb.
  - assert (db' = db) as ->.
    { unfold get_db in Hdb. destruct (connected db); congruence. }
    destruct (snapshot_fold db (_get_user_order_ids db st) st1)
      as (Ha & Hl & Hq & Hi & Hs).
    unfold queue. rewrite Ha, Hl, Hq, Hi. subst st1.
    cbn [alerts lists alert_queue _last_order_ids set_last_order_ids].
    rewrite Hsa, Hsl, Hsq. repeat split; try reflexivity.
    + now intros ?%elem_of_list_to_set.
    + intros ?. now apply elem_of_list_to_set.
    + exact Hs.
  - subst st1. unfold queue.
    cbn [alerts lists alert_queue _last_order_ids set_last_order_ids].
    rewrite Hsa, Hsl, Hsq. repeat split; try reflexivity.
    + now intros ?%elem_of_list_to_set.
    + intros ?. now apply elem_of_list_to_set.
    + intros oid doc Hin. apply user_order_ids_connected in Hin.
      unfold get_db in Hdb. rewrite Hin in Hdb. discriminate.
Qed.

End ColdStart.

(** A driver whose order 7 is "cancelled" when the monitor starts: no
    alert, and the status is remembered. *)
Lemma cold_start_snapshot_witness :
  7 ∈ _get_user_order_ids (driver_db [order7 "cancelled" [] None None])
        fresh_monitor
  /\ queue (_monitor_loop (driver_db [order7 "cancelled" [] None None]) []
              (start fresh_monitor)) = []
  /\ _last_order_statuses
       (_monitor_loop (driver_db [order7 "cancelled" [] None None]) []
          (start fresh_monitor)) !! 7
     = Some "cancelled"%string.
Proof.
  pose proof (cold_start_snapshot fresh_monitor
                (driver_db [order7 "cancelled" [] None None])) as Hcold.
  cbv zeta in Hcold. destruct Hcold as (_ & _ & Hq & _ & Hs).
  assert (Hin : 7 ∈ _get_user_order_ids
                      (driver_db [order7 "cancelled" [] None None])
                      fresh_monitor)
    by (apply (bool_decide_unpack _); vm_compute; exact I).
  split; [exact Hin |]. split; [rewrite Hq; reflexivity |].
  apply (Hs 7 (order7 "cancelled" [] None None) Hin). reflexivity.
Defined.

(** ** Delivery deadlines *)

Section Deadlines.
Context `{DatetimeLib}.

Lemma emitted_for_refl sel st : emitted_for sel st st [].
Proof. exists []. now rewrite app_nil_r. Qed.

Lemma emitted_for_emit sel st s expected a :
  emitted_for sel st s expected ->
  emitted_for sel st (emit a s) (expected ++ if sel a then [a] else []).
Proof.
  intros (new & Ha & Hf). exists (new ++ [a]).
  rewrite emit_alerts, Ha, app_assoc, List.filter_app, Hf. now simpl.
Qed.

Lemma emitted_for_attr sel st s s' expected :
  alerts s' = alerts s ->
  emitted_for sel st s expected -> emitted_for sel st s' expected.
Proof. intros Ha (new & Ha' & Hf). exists new. now rewrite Ha. Qed.

(** A field without a deadline raises nothing. *)
Lemma deadline_field_no_deadline now oid doc st f :
  field_deadline f = None -> deadline_field now oid doc st f = None.
Proof.
  unfold field_deadline, deadline_field.
  destruct f as [v|]; [| reflexivity].
  destruct (truthy_date v); [| reflexivity]. now intros ->.
Qed.

(** What a field with deadline [d] raises. *)
Lemma deadline_field_deadline now oid doc st f d :
  field_deadline f = Some d ->
  deadline_field now oid doc st f
  = if (0 <? d - now) && (d - now <=? deadline_warning_hours st * us_per_hour)
    then Some (deadline_approaching_alert now oid d
                 (Z.quot (d - now) us_per_hour))
    else if d - now <=? 0 then
      if truthy_str (_extract_order_status doc)
         && negb (lower_in (_extract_order_status doc)
                    ["completed"; "delivered"; "closed"]%string)
      then Some (deadline_overdue_alert now oid d (_extract_order_status doc))
      else None
    else None.
Proof.
  unfold field_deadline, deadline_field.
  destruct f as [v|]; [| discriminate].
  destruct (truthy_date v); [| discriminate]. now intros ->.
Qed.

(** The alerts a date field can raise concern the order at hand. *)
Lemma deadline_field_about now oid doc st f a :
  deadline_field now oid doc st f = Some a -> order_id a = Some oid.
Proof.
  unfold deadline_field. intros Hf.
  repeat case_match; try discriminate; now injection Hf as <-.
Qed.

(** The scan stops at the first field that raises an alert. *)
Lemma deadline_scan_first now oid doc st pre f post a :
  Forall (fun g => deadline_field now oid doc st g = None) pre ->
  deadline_field now oid doc st f = Some a ->
  deadline_scan now oid doc (pre ++ f :: post) st
  = add_warned_deadline oid (emit a st).
Proof.
  intros Hpre Hf. induction Hpre as [|g pre Hg _ IH]; simpl.
  - now rewrite Hf.
  - now rewrite Hg.
Qed.

Lemma deadline_scan_none now oid doc st fields :
  Forall (fun g => deadline_field now oid doc st g = None) fields ->
  deadline_scan now oid doc fields st = st.
Proof.
  induction 1 as [|g fields Hg _ IH]; simpl; [reflexivity |].
  now rewrite Hg.
Qed.

Lemma deadline_order_step_alert db now s oid doc pre f post a :
  oid ∉ _warned_deadlines s ->
  find_order db oid = Some doc ->
  deadline_fields (order_of doc) = pre ++ f :: post ->
  Forall (fun g => deadline_field now oid doc s g = None) pre ->
  deadline_field now oid doc s f = Some a ->
  deadline_order_step db now s oid = add_warned_deadline oid (emit a s).
Proof.
  intros Hwarned Hdoc Hfields Hpre Hf. unfold deadline_order_step.
  rewrite bool_decide_eq_false_2 by exact Hwarned.
  rewrite Hdoc, Hfields. now apply deadline_scan_first.
Qed.

Lemma deadline_order_step_none db now s oid doc :
  oid ∉ _warned_deadlines s ->
  find_order db oid = Some doc ->
  Forall (fun g => deadline_field now oid doc s g = None)
    (deadline_fields (order_of doc)) ->
  deadline_order_step db now s oid = s.
Proof.
  intros Hwarned Hdoc Hall. unfold deadline_order_step.
  rewrite bool_decide_eq_false_2 by exact Hwarned.
  rewrite Hdoc. now apply deadline_scan_none.
Qed.

(** C5, as the code has it. The date fields are gone through in order,
    and the scan ends at the first field that raises an alert: that
    alert is the only one, whatever the later fields hold.  A field that
    is present and parseable but raises no alert does not end the scan;
    the order gets no alert only when no field raises one. *)
Theorem deadline_scan_first_alerting_field
    (st : State) (db : Db) (now oid : Z) (doc : OrderDoc)
    (pre post : list (option DateVal)) (f : option DateVal)
    (a : ProactiveAlert) :
  oid ∉ _warned_deadlines st ->
  find_order db oid = Some doc ->
  (deadline_fields (order_of doc) = pre ++ f :: post ->
   Forall (fun g => deadline_field now oid doc st g = None) pre ->
   deadline_field now oid doc st f = Some a ->
   deadline_order_step db now st oid = add_warned_deadline oid (emit a st))
  /\ (Forall (fun g => deadline_field now oid doc st g = None)
        (deadline_fields (order_of doc)) ->
      deadline_order_step db now st oid = st).
Proof.
  intros Hwarned Hdoc. split.
  - intros Hfields Hpre Hf. eapply deadline_order_step_alert; eassumption.
  - intros Hall. eapply deadline_order_step_none; eassumption.
Qed.

(** *** One order through a whole cycle *)

Lemma fold_left_reach (f : State -> Z -> State) (P0 P1 : State -> Prop)
    (x0 : Z) (l : list Z) :
  (forall s x, P1 s -> P1 (f s x)) ->
  (forall s x, P0 s -> x <> x0 -> P0 (f s x)) ->
  (forall s, P0 s -> P1 (f s x0)) ->
  x0 ∈ l -> forall st, P0 st -> P1 (fold_left f l st).
Proof.
  intros H1 H0 H01. induction l as [|x l IH]; intros Hin st Hst.
  - now apply elem_of_nil in Hin.
  - simpl. destruct (decide (x = x0)) as [-> | Hne].
    + apply fold_left_invariant; [exact H1 | now apply H01].
    + apply IH; [| now apply H0].
      apply elem_of_cons in Hin as [-> | Hin]; [contradiction | exact Hin].
Qed.

Lemma deadline_field_hours now oid doc s s' f :
  deadline_warning_hours s = deadline_warning_hours s' ->
  deadline_field now oid doc s f = deadline_field now oid doc s' f.
Proof. unfold deadline_field. now intros ->. Qed.

Lemma deadline_scan_cases now o doc fields s :
  deadline_scan now o doc fields s = s
  \/ exists a, order_id a = Some o
              /\ deadline_scan now o doc fields s
                 = add_warned_deadline o (emit a s).
Proof.
  induction fields as [|f fields IH]; simpl; [now left |].
  destruct (deadline_field now o doc s f) as [a|] eqn:Hf; [| exact IH].
  right. exists a. split; [| reflexivity].
  eapply deadline_field_about; exact Hf.
Qed.

Lemma deadline_order_step_cases db now s o :
  deadline_order_step db now s o = s
  \/ exists a, order_id a = Some o
              /\ deadline_order_step db now s o
                 = add_warned_deadline o (emit a s).
Proof.
  unfold deadline_order_step.
  destruct (bool_decide _); [now left |].
  destruct (find_order db o); [| now left].
  apply deadline_scan_cases.
Qed.

Lemma about_order_other oid o a :
  order_id a = Some o -> o <> oid -> about_order oid a = false.
Proof.
  intros Ha Hne. unfold about_order. apply bool_decide_eq_false_2.
  rewrite Ha. congruence.
Qed.

Lemma about_order_same oid a :
  order_id a = Some oid -> about_order oid a = true.
Proof. intros Ha. unfold about_order. now apply bool_decide_eq_true_2. Qed.

Lemma deadline_step_quiet_other db now st oid s o :
  quiet_order st oid s -> o <> oid ->
  quiet_order st oid (deadline_order_step db now s o).
Proof.
  intros (Hw & Hh & Hp & He) Hne.
  destruct (deadline_order_step_cases db now s o) as [-> | (a & Ha & ->)];
    [now repeat split |].
  unfold add_warned_deadline. repeat split.
  - unfold deadline_warned in *.
    cbn [_warned_deadlines set_warned_deadlines].
    rewrite emit_warned_deadlines.
    intros [Ho%elem_of_singleton | Ho]%elem_of_union; [congruence | now apply Hw].
  - cbn [deadline_warning_hours set_warned_deadlines].
    now rewrite emit_deadline_warning_hours.
  - cbn [permit_warning_days set_warned_deadlines].
    now rewrite emit_permit_warning_days.
  - eapply emitted_for_attr; [reflexivity |].
    apply (emitted_for_emit _ _ _ _ a) in He.
    now rewrite (about_order_other oid o a Ha Hne) in He.
Qed.

Lemma deadline_step_warned db now st oid a s o :
  warned_order st oid a s ->
  warned_order st oid a (deadline_order_step db now s o).
Proof.
  intros (Hw & He). destruct (decide (o = oid)) as [-> | Hne].
  - unfold deadline_order_step. now rewrite bool_decide_eq_true_2.
  - destruct (deadline_order_step_cases db now s o) as [-> | (b & Hb & ->)];
      [now split |].
    unfold add_warned_deadline. split.
    + unfold deadline_warned in *.
      cbn [_warned_deadlines set_warned_deadlines].
      rewrite emit_warned_deadlines. apply elem_of_union. now right.
    + eapply emitted_for_attr; [reflexivity |].
      apply (emitted_for_emit _ _ _ _ b) in He.
      now rewrite (about_order_other oid o b Hb Hne), app_nil_r in He.
Qed.

Lemma deadline_step_quiet_alert db now st oid doc pre f post a s :
  find_order db oid = Some doc ->
  deadline_fields (order_of doc) = pre ++ f :: post ->
  Forall (fun g => deadline_field now oid doc st g = None) pre ->
  deadline_field now oid doc st f = Some a ->
  quiet_order st oid s ->
  warned_order st oid a (deadline_order_step db now s oid).
Proof.
  intros Hdoc Hfields Hpre Hf (Hw & Hh & Hp & He).
  assert (Hstep : deadline_order_step db now s oid
                  = add_warned_deadline oid (emit a s)).
  { eapply deadline_order_step_alert; [exact Hw | exact Hdoc | exact Hfields | |].
    - eapply List.Forall_impl; [| exact Hpre].
      intros g Hg. now rewrite (deadline_field_hours _ _ _ s st).
    - now rewrite (deadline_field_hours _ _ _ s st). }
  rewrite Hstep. unfold add_warned_deadline. split.
  - unfold deadline_warned.
    cbn [_warned_deadlines set_warned_deadlines].
    apply elem_of_union. left. now apply elem_of_singleton.
  - eapply emitted_for_attr; [reflexivity |].
    apply (emitted_for_emit _ _ _ _ a) in He.
    rewrite about_order_same in He; [exact He |].
    eapply deadline_field_about; exact Hf.
Qed.

Lemma deadline_step_quiet_none db now st oid doc s :
  find_order db oid = Some doc ->
  Forall (fun g => deadline_field now oid doc st g = None)
    (deadline_fields (order_of doc)) ->
  quiet_order st oid s -> deadline_order_step db now s oid = s.
Proof.
  intros Hdoc Hall (Hw & Hh & Hp & He).
  apply (deadline_order_step_none db now s oid doc Hw Hdoc).
  eapply List.Forall_impl; [| exact Hall].
  intros g Hg. now rewrite (deadline_field_hours _ _ _ s st).
Qed.

(** C6. With a warning window of 24 hours, an order that is not yet
    warned about and whose deadline field lies exactly 24 hours ahead
    gets, in one cycle of the deadline check, exactly one alert, the HIGH
    [deadline_approaching] one, and is then warned about.  A deadline
    field 24.01 hours ahead raises nothing; an order with no other
    deadline field gets no alert in that cycle and stays unwarned. *)
Theorem deadline_boundary_inclusive
    (st : State) (db : Db) (now oid : Z) (doc : OrderDoc)
    (pre post : list (option DateVal)) (v : DateVal) :
  deadline_warning_hours st = 24 ->
  oid ∈ _get_user_order_ids db st ->
  oid ∉ _warned_deadlines st ->
  find_order db oid = Some doc ->
  deadline_fields (order_of doc) = pre ++ Some v :: post ->
  Forall (fun f => field_deadline f = None) pre ->
  let st' := _check_delivery_deadlines db now st in
  let reminder :=
    deadline_approaching_alert now oid (now + 24 * us_per_hour) 24 in
  (field_deadline (Some v) = Some (now + 24 * us_per_hour) ->
   oid ∈ _warned_deadlines st'
   /\ emitted_for (about_order oid) st st' [reminder]
   /\ priority reminder = HIGH
   /\ alert_type reminder = "deadline_approaching"%string)
  /\ (field_deadline (Some v) = Some (now + 24 * us_per_hour + us_per_hour / 100) ->
      deadline_field now oid doc st (Some v) = None
      /\ (Forall (fun f => field_deadline f = None) post ->
          (oid ∉ _warned_deadlines st')
          /\ emitted_for (about_order oid) st st' [])).
Proof.
  intros Hhours Hin Hwarned Hdoc Hfields Hpre. cbn zeta.
  assert (Hdb : get_db db = Ok db)
    by (apply get_db_connected; eapply user_order_ids_connected; exact Hin).
  unfold _check_delivery_deadlines. rewrite Hdb.
  assert (Hquiet : quiet_order st oid st)
    by (repeat split; [exact Hwarned | apply emitted_for_refl]).
  assert (Hpre' : Forall (fun g => deadline_field now oid doc st g = None) pre).
  { eapply List.Forall_impl; [| exact Hpre].
    intros g Hg. now apply deadline_field_no_deadline. }
  split.
  - intros Hv.
    assert (Hf : deadline_field now oid doc st (Some v)
                 = Some (deadline_approaching_alert now oid
                           (now + 24 * us_per_hour) 24)).
    { rewrite (deadline_field_deadline _ _ _ _ _ _ Hv), Hhours.
      replace (now + 24 * us_per_hour - now) with (24 * us_per_hour) by lia.
      reflexivity. }
    assert (Hfinal : warned_order st oid
                       (deadline_approaching_alert now oid
                          (now + 24 * us_per_hour) 24)
                       (fold_left (deadline_order_step db now)
                          (_get_user_order_ids db st) st)).
    { apply (fold_left_reach _ (quiet_order st oid) _ oid); try assumption.
      - intros s x. apply deadline_step_warned.
      - intros s x. apply deadline_step_quiet_other.
      - intros s. eapply deadline_step_quiet_alert; eassumption. }
    destruct Hfinal as (Hw & He). now repeat split.
  - intros Hv.
    assert (Hf : deadline_field now oid doc st (Some v) = None).
    { rewrite (deadline_field_deadline _ _ _ _ _ _ Hv), Hhours.
      replace (now + 24 * us_per_hour + us_per_hour / 100 - now)
        with (24 * us_per_hour + us_per_hour / 100) by lia.
      reflexivity. }
    split; [exact Hf |]. intros Hpost.
    assert (Hall : Forall (fun g => deadline_field now oid doc st g = None)
                     (deadline_fields (order_of doc))).
    { rewrite Hfields. apply Forall_app. split; [exact Hpre' |].
      constructor; [exact Hf |].
      eapply List.Forall_impl; [| exact Hpost].
      intros g Hg. now apply deadline_field_no_deadline. }
    assert (Hfinal : quiet_order st oid
                       (fold_left (deadline_order_step db now)
                          (_get_user_order_ids db st) st)).
    { apply fold_left_invariant; [| exact Hquiet].
      intros s x Hs. destruct (decide (x = oid)) as [-> | Hne].
      - now rewrite (deadline_step_quiet_none db now st oid doc s Hdoc Hall Hs).
      - now apply deadline_step_quiet_other. }
    destruct Hfinal as (Hw & _ & _ & He). now split.
Qed.

End Deadlines.

(** Order 7, due in exactly 24 hours: one reminder of 24 hours. *)
Lemma deadline_boundary_inclusive_witness :
  alerts (_check_delivery_deadlines (due_in_db (24 * us_per_hour)) noon
            fresh_monitor)
  = [deadline_approaching_alert noon 7 (noon + 24 * us_per_hour) 24]
  /\ queue (_check_delivery_deadlines (due_in_db (24 * us_per_hour)) noon
              fresh_monitor) = [0%nat]
  /\ alerts (_check_delivery_deadlines
              (due_in_db (24 * us_per_hour + us_per_hour / 100)) noon
              fresh_monitor) = []
  /\ 7 ∈ _warned_deadlines
          (_check_delivery_deadlines (due_in_db (24 * us_per_hour)) noon
             fresh_monitor).
Proof.
  split; [vm_compute; reflexivity |]. split; [vm_compute; reflexivity |].
  split; [vm_compute; reflexivity |].
  refine (proj1 (proj1 (deadline_boundary_inclusive fresh_monitor
            (due_in_db (24 * us_per_hour)) noon 7
            (order7 "open" [] (Some (DDatetime (noon + 24 * us_per_hour))) None)
            [] [None; None] (DDatetime (noon + 24 * us_per_hour))
            _ _ _ _ _ _) _)).
  - reflexivity.
  - apply (bool_decide_unpack _); vm_compute; exact I.
  - vm_compute. set_solver.
  - vm_compute; reflexivity.
  - vm_compute; reflexivity.
  - constructor.
  - vm_compute; reflexivity.
Defined.

(** Order 7: [delivery_date] is present and parseable and raises
    nothing, being 48 hours away; the scan goes on to [end_date], 12
    hours away, which raises the reminder. *)
Lemma deadline_scan_first_alerting_field_witness :
  deadline_field noon 7 (order7 "open" []
                           (Some (DDatetime (noon + 48 * us_per_hour)))
                           (Some (DDatetime (noon + 12 * us_per_hour))))
    fresh_monitor (Some (DDatetime (noon + 48 * us_per_hour))) = None
  /\ deadline_order_step two_dates_db noon fresh_monitor 7
     = add_warned_deadline 7
         (emit (deadline_approaching_alert noon 7 (noon + 12 * us_per_hour) 12)
            fresh_monitor).
Proof.
  split; [vm_compute; reflexivity |].
  refine (proj1 (deadline_scan_first_alerting_field fresh_monitor two_dates_db
                   noon 7 _ [Some (DDatetime (noon + 48 * us_per_hour))] [None]
                   (Some (DDatetime (noon + 12 * us_per_hour)))
                   (deadline_approaching_alert noon 7 (noon + 12 * us_per_hour) 12)
                   _ _) _ _ _).
  - vm_compute. set_solver.
  - vm_compute; reflexivity.
  - vm_compute; reflexivity.
  - repeat constructor.
  - vm_compute; reflexivity.
Defined.

(** C5, as the specification words it, fails: on the same order the
    first present and parseable field raises nothing, and yet the order
    gets an alert in that cycle. *)
Lemma first_parseable_field_only_counterexample :
  ~ first_parseable_field_only.
Proof.
  intros Hclaim.
  specialize (Hclaim plain_datetime fresh_monitor two_dates_db noon 7
                (order7 "open" []
                   (Some (DDatetime (noon + 48 * us_per_hour)))
                   (Some (DDatetime (noon + 12 * us_per_hour))))
                [] [Some (DDatetime (noon + 12 * us_per_hour)); None]
                (DDatetime (noon + 48 * us_per_hour))).
  assert (Hstep : deadline_order_step two_dates_db noon fresh_monitor 7
                  = fresh_monitor).
  { apply Hclaim.
    - vm_compute. set_solver.
    - vm_compute; reflexivity.
    - vm_compute; reflexivity.
    - constructor.
    - vm_compute. eauto.
    - vm_compute; reflexivity. }
  apply (f_equal alerts) in Hstep. vm_compute in Hstep. discriminate.
Qed.

(** ** Permit keys *)

Section PermitKeys.

Lemma pretty_N_go_no_underscore (x : N) (s : string) :
  no_underscore s = true -> no_underscore (pretty_N_go x s) = true.
Proof.
  revert s. induction (N.lt_wf_0 x) as [x _ IH]; intros s Hs.
  destruct (decide (x = 0)%N) as [-> | Hx].
  - now rewrite pretty_N_go_0.
  - rewrite pretty_N_go_step by lia. apply IH.
    + apply N.div_lt; lia.
    + simpl. rewrite Hs, andb_true_r.
      unfold pretty_N_char. now repeat case_match.
Qed.

Lemma pretty_N_no_underscore (x : N) : no_underscore (pretty x) = true.
Proof.
  unfold pretty, pretty_N. case_decide; [reflexivity |].
  now apply pretty_N_go_no_underscore.
Qed.

Lemma str_int_no_underscore (n : Z) : no_underscore (str_int n) = true.
Proof.
  unfold str_int. destruct n as [|p|p]; [reflexivity | |].
  - apply (pretty_N_no_underscore (N.pos p)).
  - change (pretty (Z.neg p)) with ("-" +:+ pretty (N.pos p)).
    simpl. apply (pretty_N_no_underscore (N.pos p)).
Qed.

Lemma append_nil (x : string) : "" +:+ x = x.
Proof. reflexivity. Qed.

Lemma append_cons c (u x : string) : String c u +:+ x = String c (u +:+ x).
Proof. reflexivity. Qed.

Lemma split_at_underscore (u v n1 n2 : string) :
  no_underscore u = true -> no_underscore v = true ->
  u +:+ "_" +:+ n1 = v +:+ "_" +:+ n2 -> u = v /\ n1 = n2.
Proof.
  revert v. induction u as [|c u IH]; intros [|d v] Hu Hv Heq;
    repeat (rewrite append_cons in Heq || rewrite append_nil in Heq);
    simpl in Hu, Hv.
  - split; congruence.
  - assert (d = "_"%char) as -> by congruence. discriminate.
  - assert (c = "_"%char) as -> by congruence. discriminate.
  - apply andb_true_iff in Hu as [_ Hu]. apply andb_true_iff in Hv as [_ Hv].
    injection Heq as -> Heq.
    destruct (IH v Hu Hv Heq) as [-> ->]. now split.
Qed.

(** A permit key names one order and one route. *)
Lemma permit_key_inj o n oid name :
  permit_key o n = permit_key oid name -> o = oid /\ n = name.
Proof.
  unfold permit_key. intros Heq.
  apply split_at_underscore in Heq as [Ho Hn];
    try apply str_int_no_underscore.
  split; [| exact Hn]. now apply (inj pretty).
Qed.

End PermitKeys.

(** ** Permit expirations *)

Section Permits.
Context `{DatetimeLib}.

Lemma fold_left_reach_sel {X} (f : State -> X -> State)
    (P0 P1 : State -> Prop) (t : X -> bool) (l : list X) :
  (forall s x, P1 s -> P1 (f s x)) ->
  (forall s x, P0 s -> t x = false -> P0 (f s x)) ->
  (forall s x, x ∈ l -> P0 s -> t x = true -> P1 (f s x)) ->
  (exists x, x ∈ l /\ t x = true) ->
  forall st, P0 st -> P1 (fold_left f l st).
Proof.
  intros H1 H0. induction l as [|x l IH]; intros H01 (y & Hy & Hty) st Hst.
  - now apply elem_of_nil in Hy.
  - simpl. destruct (t x) eqn:Htx.
    + apply fold_left_invariant; [exact H1 |].
      apply H01; [apply elem_of_cons; now left | exact Hst | exact Htx].
    + apply IH.
      * intros s z Hz. apply H01. apply elem_of_cons. now right.
      * apply elem_of_cons in Hy as [-> | Hy]; [congruence | eauto].
      * now apply H0.
Qed.

Lemma about_route_other oid name o n a :
  order_id a = Some o -> route_of a = Some n ->
  ~ (o = oid /\ n = name) -> about_route oid name a = false.
Proof.
  intros Ho Hn Hne. unfold about_route. apply bool_decide_eq_false_2.
  rewrite Ho, Hn. intros [Ho' Hn']. apply Hne. split; congruence.
Qed.

Lemma about_route_same oid name a :
  order_id a = Some oid -> route_of a = Some name ->
  about_route oid name a = true.
Proof. intros Ho Hn. unfold about_route. now apply bool_decide_eq_true_2. Qed.

(** Each of the two blocks of the loop body creates at most one alert,
    about the route at hand, and then marks the route as warned. *)
Lemma expiry_step_cases now o name attached s :
  expiry_step now o name attached s = s
  \/ exists a, order_id a = Some o /\ route_of a = Some name
               /\ expiry_step now o name attached s
                  = add_warned_permit (permit_key o name) (emit a s).
Proof.
  unfold expiry_step.
  repeat case_match; try (now left); right; eexists;
    (split; [| split; [| reflexivity]]); reflexivity.
Qed.

Lemma issue_step_cases now o name permit_status s :
  issue_step now o name permit_status s = s
  \/ exists a, order_id a = Some o /\ route_of a = Some name
               /\ issue_step now o name permit_status s
                  = add_warned_permit (permit_key o name) (emit a s).
Proof.
  unfold issue_step.
  repeat case_match; try (now left); right; eexists;
    (split; [| split; [| reflexivity]]); reflexivity.
Qed.

Lemma issue_step_warned now o name permit_status s :
  permit_key o name ∈ _warned_permits s ->
  issue_step now o name permit_status s = s.
Proof.
  intros Hw. unfold issue_step. rewrite (bool_decide_eq_true_2 _ Hw).
  now destruct (_ && _).
Qed.

Lemma add_warned_permit_warned key s :
  key ∈ _warned_permits (add_warned_permit key s).
Proof.
  unfold add_warned_permit. cbn [_warned_permits set_warned_permits].
  apply elem_of_union. left. now apply elem_of_singleton.
Qed.

Lemma permit_step_cases now o s e :
  permit_step now o s e = s
  \/ exists a, order_id a = Some o /\ route_of a = Some (state_name_of e)
               /\ permit_step now o s e
                  = add_warned_permit (permit_key o (state_name_of e))
                      (emit a s).
Proof.
  unfold permit_step. fold (state_name_of e).
  destruct (bool_decide _); [now left |].
  destruct (expiry_step_cases now o (state_name_of e) (attached_at e) s)
    as [-> | (a & Ho & Hn & ->)].
  - apply issue_step_cases.
  - right. exists a. repeat split; try assumption.
    apply issue_step_warned, add_warned_permit_warned.
Qed.

Lemma permit_step_skip now o s e :
  permit_key o (state_name_of e) ∈ _warned_permits s ->
  permit_step now o s e = s.
Proof.
  intros Hw. unfold permit_step. fold (state_name_of e).
  now rewrite (bool_decide_eq_true_2 _ Hw).
Qed.

Lemma add_warned_permit_emit_frame key a s :
  alerts (add_warned_permit key (emit a s)) = alerts (emit a s)
  /\ _warned_permits (add_warned_permit key (emit a s))
     = {[ key ]} ∪ _warned_permits s
  /\ deadline_warning_hours (add_warned_permit key (emit a s))
     = deadline_warning_hours s
  /\ permit_warning_days (add_warned_permit key (emit a s))
     = permit_warning_days s.
Proof.
  unfold add_warned_permit.
  cbn [alerts _warned_permits deadline_warning_hours permit_warning_days
       set_warned_permits].
  now rewrite emit_warned_permits, emit_deadline_warning_hours,
    emit_permit_warning_days.
Qed.

Lemma permit_step_quiet_other now st oid name s o e :
  quiet_route st oid name s ->
  ~ (o = oid /\ state_name_of e = name) ->
  quiet_route st oid name (permit_step now o s e).
Proof.
  intros (Hw & Hh & Hp & He) Hne.
  destruct (permit_step_cases now o s e) as [-> | (a & Ho & Hn & ->)];
    [now repeat split |].
  destruct (add_warned_permit_emit_frame (permit_key o (state_name_of e)) a s)
    as (Ha & Hwp & Hdh & Hpd).
  repeat split.
  - unfold permit_warned in *. rewrite Hwp.
    intros [Hk%elem_of_singleton | Hk]%elem_of_union; [| now apply Hw].
    symmetry in Hk. now apply permit_key_inj in Hk.
  - now rewrite Hdh.
  - now rewrite Hpd.
  - eapply emitted_for_attr; [exact Ha |].
    apply (emitted_for_emit _ _ _ _ a) in He.
    now rewrite (about_route_other oid name o _ a Ho Hn Hne) in He.
Qed.

Lemma permit_step_warned now st oid name expected s o e :
  warned_route st oid name expected s ->
  warned_route st oid name expected (permit_step now o s e).
Proof.
  intros (Hw & He).
  destruct (decide (o = oid /\ state_name_of e = name)) as [[-> <-] | Hne].
  - now rewrite permit_step_skip.
  - destruct (permit_step_cases now o s e) as [-> | (a & Ho & Hn & ->)];
      [now split |].
    destruct (add_warned_permit_emit_frame (permit_key o (state_name_of e)) a s)
      as (Ha & Hwp & _). split.
    + unfold permit_warned in *. rewrite Hwp. apply elem_of_union. now right.
    + eapply emitted_for_attr; [exact Ha |].
      apply (emitted_for_emit _ _ _ _ a) in He.
      now rewrite (about_route_other oid name o _ a Ho Hn Hne), app_nil_r in He.
Qed.

(** The entry whose permit was attached eight days ago. *)
Lemma permit_step_expired now st oid s e v :
  attached_at e = Some v ->
  truthy_date v = true ->
  _parse_date v = Some (now - 8 * us_per_day) ->
  quiet_route st oid (state_name_of e) s ->
  warned_route st oid (state_name_of e)
    [permit_expired_alert now oid (state_name_of e) (-1)]
    (permit_step now oid s e).
Proof.
  intros Hatt Htruthy Hparse (Hw & Hh & Hp & He).
  assert (Hstep : permit_step now oid s e
                  = add_warned_permit (permit_key oid (state_name_of e))
                      (emit (permit_expired_alert now oid (state_name_of e) (-1))
                         s)).
  { unfold permit_step. fold (state_name_of e).
    rewrite (bool_decide_eq_false_2 _ Hw).
    unfold expiry_step. rewrite Hatt, Htruthy, Hparse.
    replace ((now - 8 * us_per_day + 7 * us_per_day - now) / us_per_day)
      with (-1) by (replace (now - 8 * us_per_day + 7 * us_per_day - now)
                      with (- us_per_day) by lia; reflexivity).
    change (-1 <? 0) with true. cbv iota.
    apply issue_step_warned, add_warned_permit_warned. }
  rewrite Hstep.
  destruct (add_warned_permit_emit_frame (permit_key oid (state_name_of e))
              (permit_expired_alert now oid (state_name_of e) (-1)) s)
    as (Ha & Hwp & _). split.
  - unfold permit_warned. rewrite Hwp. apply elem_of_union. left.
    now apply elem_of_singleton.
  - eapply emitted_for_attr; [exact Ha |].
    apply (emitted_for_emit _ _ _ _
             (permit_expired_alert now oid (state_name_of e) (-1))) in He.
    now rewrite about_route_same in He.
Qed.

Lemma permit_order_step_quiet_other db now st oid name s o :
  quiet_route st oid name s -> o <> oid ->
  quiet_route st oid name (permit_order_step db now s o).
Proof.
  intros Hq Hne. unfold permit_order_step.
  destruct (find_order db o) as [doc|]; [| exact Hq].
  destruct (routeData (order_of doc)) as [routes|]; [| exact Hq].
  apply fold_left_invariant; [| exact Hq].
  intros s' e Hs'. apply permit_step_quiet_other; [exact Hs' |].
  now intros [? _].
Qed.

Lemma permit_order_step_warned db now st oid name expected s o :
  warned_route st oid name expected s ->
  warned_route st oid name expected (permit_order_step db now s o).
Proof.
  intros Hw. unfold permit_order_step.
  destruct (find_order db o) as [doc|]; [| exact Hw].
  destruct (routeData (order_of doc)) as [routes|]; [| exact Hw].
  apply fold_left_invariant; [| exact Hw].
  intros s' e Hs'. now apply permit_step_warned.
Qed.

Lemma check_permit_expirations_warned db now st oid name :
  permit_key oid name ∈ _warned_permits st ->
  warned_route st oid name [] (_check_permit_expirations db now st).
Proof.
  intros Hw.
  assert (Hst : warned_route st oid name [] st)
    by (split; [exact Hw | apply emitted_for_refl]).
  unfold _check_permit_expirations. destruct (get_db db); [| exact Hst].
  apply fold_left_invariant; [| exact Hst].
  intros s o Hs. now apply permit_order_step_warned.
Qed.

(** C4. A route whose permit was attached eight days before the check,
    and which is not yet warned about, gets in one cycle of the permit
    check exactly one alert: the CRITICAL [permit_expired] one, with
    [days_expired] 1; its key is then among the warned permits, and a
    further cycle, over the same or any other data, creates no alert for
    that route. *)
Theorem permit_expired_once
    (st : State) (db : Db) (now oid : Z) (doc : OrderDoc)
    (routes : list RouteEntry) (entry : RouteEntry) (v : DateVal) :
  oid ∈ _get_user_order_ids db st ->
  find_order db oid = Some doc ->
  routeData (order_of doc) = Some routes ->
  entry ∈ routes ->
  (forall e, e ∈ routes -> state_name_of e = state_name_of entry -> e = entry) ->
  attached_at entry = Some v ->
  truthy_date v = true ->
  _parse_date v = Some (now - 8 * us_per_day) ->
  permit_key oid (state_name_of entry) ∉ _warned_permits st ->
  let name := state_name_of entry in
  let st' := _check_permit_expirations db now st in
  let expired := permit_expired_alert now oid name (-1) in
  permit_key oid name ∈ _warned_permits st'
  /\ emitted_for (about_route oid name) st st' [expired]
  /\ alert_type expired = "permit_expired"%string
  /\ priority expired = CRITICAL
  /\ In ("days_expired"%string, MInt 1) (metadata expired)
  /\ forall db2 now2,
       emitted_for (about_route oid name) st'
         (_check_permit_expirations db2 now2 st') [].
Proof.
  intros Hin Hdoc Hroutes Hentry Huniq Hatt Htruthy Hparse Hwarned. cbn zeta.
  assert (Hdb : get_db db = Ok db)
    by (apply get_db_connected; eapply user_order_ids_connected; exact Hin).
  assert (Hquiet : quiet_route st oid (state_name_of entry) st)
    by (repeat split; [exact Hwarned | apply emitted_for_refl]).
  assert (Hfinal : warned_route st oid (state_name_of entry)
                     [permit_expired_alert now oid (state_name_of entry) (-1)]
                     (_check_permit_expirations db now st)).
  { unfold _check_permit_expirations. rewrite Hdb.
    apply (fold_left_reach _ (quiet_route st oid (state_name_of entry)) _ oid);
      try assumption.
    - intros s x. apply permit_order_step_warned.
    - intros s x. apply permit_order_step_quiet_other.
    - intros s Hs. unfold permit_order_step. rewrite Hdoc, Hroutes.
      apply (fold_left_reach_sel _
               (quiet_route st oid (state_name_of entry)) _
               (fun e => String.eqb (state_name_of e) (state_name_of entry)));
        try assumption.
      + intros s' e. apply permit_step_warned.
      + intros s' e Hs' Hne. apply permit_step_quiet_other; [exact Hs' |].
        intros [_ Heq]. apply String.eqb_neq in Hne. contradiction.
      + intros s' e He Hs' Heq. apply String.eqb_eq in Heq.
        rewrite (Huniq e He Heq).
        eapply permit_step_expired; eassumption.
      + exists entry. split; [exact Hentry | apply String.eqb_refl]. }
  destruct Hfinal as (Hw & He).
  repeat split; try assumption.
  - cbn. right. now left.
  - intros db2 now2.
    now destruct (check_permit_expirations_warned db2 now2 _ oid
                    (state_name_of entry) Hw).
Qed.

End Permits.

(** Order 7 with the Texas permit attached eight days ago, whose status
    is "expired" on top of that: one alert in the first cycle, none in
    the second. *)
Lemma permit_expired_once_witness :
  alerts (_check_permit_expirations texas_db noon fresh_monitor)
  = [permit_expired_alert noon 7 "Texas" (-1)]
  /\ queue (_check_permit_expirations texas_db noon fresh_monitor) = [0%nat]
  /\ alerts (_check_permit_expirations texas_db (noon + 120000000)
              (_check_permit_expirations texas_db noon fresh_monitor))
     = [permit_expired_alert noon 7 "Texas" (-1)]
  /\ permit_key 7 "Texas"
     ∈ _warned_permits (_check_permit_expirations texas_db noon fresh_monitor).
Proof.
  split; [vm_compute; reflexivity |]. split; [vm_compute; reflexivity |].
  split; [vm_compute; reflexivity |].
  refine (proj1 (permit_expired_once fresh_monitor texas_db noon 7
                   (order7 "open" [texas] None None) [texas] texas
                   (DDatetime (noon - 8 * us_per_day))
                   _ _ _ _ _ _ _ _ _)).
  - apply (bool_decide_unpack _); vm_compute; exact I.
  - vm_compute; reflexivity.
  - vm_compute; reflexivity.
  - apply elem_of_cons. now left.
  - intros e He _. apply elem_of_cons in He as [-> | He]; [reflexivity |].
    now apply elem_of_nil in He.
  - reflexivity.
  - reflexivity.
  - reflexivity.
  - vm_compute. set_solver.
Defined.

(** ** Weather alerts *)

Section Weather.
Context `{DatetimeLib}.

Lemma weather_title_inj (c1 c2 : string) :
  ("Severe weather: " +:+ c1)%string = ("Severe weather: " +:+ c2)%string ->
  c1 = c2.
Proof.
  intros Heq.
  repeat (rewrite append_cons in Heq || rewrite append_nil in Heq).
  congruence.
Qed.

Lemma weather_alert_for_inj oid city oid' city' a :
  weather_alert_for oid city a -> weather_alert_for oid' city' a ->
  oid = oid' /\ city = city'.
Proof.
  intros (_ & Ho & Ht) (_ & Ho' & Ht'). split; [congruence |].
  apply weather_title_inj. congruence.
Qed.

(** Steps that create no weather alert and record no key. *)
Lemma weather_invariant_appends st st' :
  appends not_weather st st' -> weather_invariant st -> weather_invariant st'.
Proof.
  intros (new & Ha & Hnew & Hk) (Hrec & Huniq).
  assert (Hold : forall l a, alerts st' !! l = Some a ->
                 alert_type a = "weather_alert"%string ->
                 alerts st !! l = Some a).
  { intros l a Hl Hw. rewrite Ha in Hl.
    apply lookup_app_Some in Hl as [Hl | [_ Hl]]; [exact Hl |].
    apply list_elem_of_lookup_2 in Hl.
    rewrite List.Forall_forall in Hnew.
    apply list_elem_of_In in Hl. now apply Hnew in Hl. }
  split.
  - intros l a Hl Hw. rewrite Hk. eapply Hrec; eauto.
  - intros l1 l2 a1 a2 oid city Hl1 Hl2 Hw1 Hw2.
    apply (Huniq l1 l2 a1 a2 oid city); try assumption.
    + apply Hold; [exact Hl1 | apply Hw1].
    + apply Hold; [exact Hl2 | apply Hw2].
Qed.

Lemma mark_delivered_lookup alert st l a' :
  alerts (mark_delivered alert st) !! l = Some a' ->
  exists a, alerts st !! l = Some a
            /\ alert_type a = alert_type a'
            /\ order_id a = order_id a'
            /\ title a = title a'.
Proof.
  unfold mark_delivered.
  destruct (alerts st !! alert) as [al|] eqn:Hal; [| eauto].
  cbn [alerts set_alerts set_delivered_keys].
  destruct (decide (alert = l)) as [-> | Hne].
  - rewrite list_lookup_insert_eq by (eapply lookup_lt_Some; exact Hal).
    intros [= <-]. exists al. now repeat split.
  - rewrite list_lookup_insert_ne by exact Hne. eauto.
Qed.

Lemma weather_invariant_mark_delivered alert st :
  weather_invariant st -> weather_invariant (mark_delivered alert st).
Proof.
  intros (Hrec & Huniq). split.
  - intros l a' Hl Hw.
    apply mark_delivered_lookup in Hl as (a & Hl & Ht & Ho & Hti).
    destruct (Hrec l a Hl) as (oid & city & (Hw1 & Hw2 & Hw3) & Hkey);
      [congruence |].
    exists oid, city. split; [repeat split; congruence |].
    now apply mark_delivered_keys_mono.
  - intros l1 l2 a1 a2 oid city Hl1 Hl2 (T1 & O1 & Ti1) (T2 & O2 & Ti2).
    apply mark_delivered_lookup in Hl1 as (b1 & Hl1 & ? & ? & ?).
    apply mark_delivered_lookup in Hl2 as (b2 & Hl2 & ? & ? & ?).
    apply (Huniq l1 l2 b1 b2 oid city Hl1 Hl2); repeat split; congruence.
Qed.

(** What the body of the loop over the cities does: nothing, or it
    creates the weather alert of the city and records the weather key
    in the same step. *)
Lemma weather_city_step_cases w now oid st city :
  weather_city_step w now oid st city = st
  \/ ((weather_key oid city ∉ _delivered_keys st)
      /\ weather_city_step w now oid st city
         = add_delivered_key (weather_key oid city)
             (emit (weather_alert now oid city (w city)) st)).
Proof.
  unfold weather_city_step.
  destruct (bool_decide _) eqn:Hkey; [now left |].
  destruct (_ && _); [| now left].
  right. split; [| reflexivity]. now apply bool_decide_eq_false in Hkey.
Qed.

Lemma weather_invariant_city_step w now oid st city :
  weather_invariant st -> weather_invariant (weather_city_step w now oid st city).
Proof.
  intros (Hrec & Huniq).
  destruct (weather_city_step_cases w now oid st city)
    as [-> | (Hkey & ->)]; [now split |].
  set (a := weather_alert now oid city (w city)).
  assert (Hfor : weather_alert_for oid city a) by now repeat split.
  assert (Hlook : forall l b,
            alerts (add_delivered_key (weather_key oid city) (emit a st)) !! l
            = Some b ->
            alerts st !! l = Some b \/ (l = length (alerts st) /\ b = a)).
  { intros l b. unfold add_delivered_key. cbn [alerts set_delivered_keys].
    rewrite emit_alerts. intros Hl.
    apply lookup_snoc_Some in Hl as [[_ Hl] | [-> <-]]; [now left | now right]. }
  assert (Hkeys : _delivered_keys
                    (add_delivered_key (weather_key oid city) (emit a st))
                  = {[ weather_key oid city ]} ∪ _delivered_keys st).
  { unfold add_delivered_key. cbn [_delivered_keys set_delivered_keys].
    now rewrite emit_delivered_keys. }
  assert (Hfresh : forall l b, alerts st !! l = Some b ->
                   weather_alert_for oid city b -> False).
  { intros l b Hl Hb.
    destruct (Hrec l b Hl (proj1 Hb)) as (oid' & city' & Hb' & Hk).
    destruct (weather_alert_for_inj _ _ _ _ _ Hb Hb') as [<- <-].
    contradiction. }
  split.
  - intros l b Hl Hw. rewrite Hkeys.
    destruct (Hlook l b Hl) as [Hold | [_ ->]].
    + destruct (Hrec l b Hold Hw) as (oid' & city' & Hb & Hk).
      exists oid', city'. split; [exact Hb |]. apply elem_of_union. now right.
    + exists oid, city. split; [exact Hfor |].
      apply elem_of_union. left. now apply elem_of_singleton.
  - intros l1 l2 a1 a2 oid' city' Hl1 Hl2 Hw1 Hw2.
    destruct (Hlook l1 a1 Hl1) as [Hold1 | [-> ->]];
      destruct (Hlook l2 a2 Hl2) as [Hold2 | [-> ->]].
    + eapply Huniq; eauto.
    + destruct (weather_alert_for_inj _ _ _ _ _ Hfor Hw2) as [<- <-].
      exfalso. eapply Hfresh; eauto.
    + destruct (weather_alert_for_inj _ _ _ _ _ Hfor Hw1) as [<- <-].
      exfalso. eapply Hfresh; eauto.
    + reflexivity.
Qed.

(** The weather check records weather keys and nothing else. *)
Lemma check_route_weather_keys db w now st k :
  k ∈ _delivered_keys (_check_route_weather db w now st) ->
  k ∈ _delivered_keys st \/ exists oid city, k = weather_key oid city.
Proof.
  set (I := fun s : State =>
              k ∈ _delivered_keys s ->
              k ∈ _delivered_keys st \/ exists oid city, k = weather_key oid city).
  assert (Hst : I st) by (intros Hk; now left).
  change (I (_check_route_weather db w now st)).
  unfold _check_route_weather.
  destruct (get_db db) as [db'|]; [| exact Hst].
  apply fold_left_invariant; [| exact Hst].
  intros s oid Hs. unfold weather_order_step.
  destruct (find_order db' oid) as [doc|]; [| exact Hs].
  destruct (_ && _); [exact Hs |].
  apply fold_left_invariant; [| exact Hs].
  intros s' city Hs'.
  destruct (weather_city_step_cases w now oid s' city) as [-> | (_ & ->)];
    [exact Hs' |].
  unfold I, add_delivered_key. cbn [_delivered_keys set_delivered_keys].
  rewrite emit_delivered_keys.
  intros [Hk%elem_of_singleton | Hk]%elem_of_union; [right; eauto | now apply Hs'].
Qed.

Lemma weather_invariant_check db w now st :
  weather_invariant st -> weather_invariant (_check_route_weather db w now st).
Proof.
  intros Hst. unfold _check_route_weather.
  destruct (get_db db) as [db'|]; [| exact Hst].
  apply fold_left_invariant; [| exact Hst].
  intros s oid Hs. unfold weather_order_step.
  destruct (find_order db' oid) as [doc|]; [| exact Hs].
  destruct (_ && _); [exact Hs |].
  apply fold_left_invariant; [| exact Hs].
  intros s' city Hs'. now apply weather_invariant_city_step.
Qed.

Lemma weather_invariant_run_op st o :
  weather_invariant st -> weather_invariant (run_op st o).
Proof.
  destruct o; cbn [run_op].
  - unfold start. destruct (_running st); [auto |].
    apply weather_invariant_appends, appends_setters, appends_refl.
  - apply weather_invariant_appends, appends_setters, appends_refl.
  - rewrite get_pending_alerts_unfold. cbn [snd].
    apply weather_invariant_appends, appends_setters, appends_refl.
  - apply weather_invariant_mark_delivered.
  - apply weather_invariant_appends, clear_old_alerts_appends.
  - apply weather_invariant_appends, take_initial_snapshot_appends.
  - apply weather_invariant_appends, check_order_status_changes_appends.
  - apply weather_invariant_appends, check_new_order_assignments_appends.
  - apply weather_invariant_appends, check_permit_expirations_appends.
  - apply weather_invariant_appends, check_delivery_deadlines_appends.
  - apply weather_invariant_check.
Qed.

Lemma weather_invariant_init role email poll weather days hours :
  weather_invariant (init role email poll weather days hours).
Proof.
  split.
  - intros l a Hl. cbn in Hl. now rewrite lookup_nil in Hl.
  - intros l1 l2 a1 a2 oid city Hl. cbn in Hl. now rewrite lookup_nil in Hl.
Qed.

(** C9. In a session, that is after any sequence of operations on a
    newly made monitor: no two weather alerts are for the same order and
    city, and the weather key of every weather alert is recorded,
    delivered or not.  The key is recorded by the very step that creates
    the alert; the enqueue step and the checks of the fast loop record
    no key at all, so that for the other kinds of alert the key is
    recorded by [mark_delivered] only. *)
Theorem weather_alert_at_most_once
    (role email : string) (poll weather days hours : Z) (ops : list op) :
  let st := run ops (init role email poll weather days hours) in
  (forall l1 l2 a1 a2 oid city,
     alerts st !! l1 = Some a1 -> alerts st !! l2 = Some a2 ->
     weather_alert_for oid city a1 -> weather_alert_for oid city a2 ->
     l1 = l2)
  /\ (forall l a oid city,
        alerts st !! l = Some a -> weather_alert_for oid city a ->
        weather_key oid city ∈ _delivered_keys st)
  /\ (forall w now oid s city,
        weather_city_step w now oid s city = s
        \/ ((weather_key oid city ∉ _delivered_keys s)
            /\ weather_city_step w now oid s city
               = add_delivered_key (weather_key oid city)
                   (emit (weather_alert now oid city (w city)) s)))
  /\ (forall a s, _delivered_keys (emit a s) = _delivered_keys s)
  /\ (forall db now s, _delivered_keys (fast_cycle db now s) = _delivered_keys s)
  /\ (forall db w now s k,
        k ∈ _delivered_keys (_check_route_weather db w now s) ->
        k ∈ _delivered_keys s \/ exists oid city, k = weather_key oid city).
Proof.
  cbn zeta.
  assert (Hinv : weather_invariant
                   (run ops (init role email poll weather days hours))).
  { unfold run. apply fold_left_invariant.
    - intros s o. apply weather_invariant_run_op.
    - apply weather_invariant_init. }
  destruct Hinv as (Hrec & Huniq).
  split; [exact Huniq |]. split.
  - intros l a oid city Hl Hfor.
    destruct (Hrec l a Hl (proj1 Hfor)) as (oid' & city' & Hfor' & Hk).
    now destruct (weather_alert_for_inj _ _ _ _ _ Hfor Hfor') as [<- <-].
  - split; [intros; apply weather_city_step_cases |].
    split; [intros; apply emit_delivered_keys |].
    split; [| intros db w now s k; apply check_route_weather_keys].
    intros db now s. eapply appends_keys, fast_cycle_appends.
Qed.

End Weather.

(** Two rounds of the weather check over a stormy Texas, the alert of
    the first round never delivered: one alert, and its weather key
    recorded. *)
Lemma weather_alert_at_most_once_witness :
  alerts (run two_weather_rounds fresh_monitor)
  = [weather_alert noon 7 "Texas" (stormy "Texas")]
  /\ queue (run two_weather_rounds fresh_monitor) = [0%nat]
  /\ is_delivered (run two_weather_rounds fresh_monitor) 0%nat = false
  /\ weather_key 7 "Texas" ∈ _delivered_keys (run two_weather_rounds fresh_monitor).
Proof.
  split; [vm_compute; reflexivity |]. split; [vm_compute; reflexivity |].
  split; [vm_compute; reflexivity |].
  refine (proj1 (proj2 (weather_alert_at_most_once "driver" "driver@example.com"
                          120 1800 3 24 two_weather_rounds))
            0%nat (weather_alert noon 7 "Texas" (stormy "Texas")) 7 "Texas"%string
            _ _).
  - vm_compute; reflexivity.
  - repeat split.
Defined.

(** * Further properties *)

(** ** Order-context resolution, for every query *)

Section ResolutionShape.

Lemma getitem_ok {A} (xs : list A) (i : Z) :
  0 <= i < Z.of_nat (length xs) ->
  exists x, getitem xs i = Ok x /\ x ∈ xs.
Proof.
  intros Hi. unfold getitem.
  replace (i <? 0) with false by (symmetry; apply Z.ltb_ge; lia).
  replace ((i <? 0) || (Z.of_nat (length xs) <=? i)) with false
    by (symmetry; apply orb_false_iff; split;
        [apply Z.ltb_ge | apply Z.leb_gt]; lia).
  destruct (xs !! Z.to_nat i) as [x|] eqn:Hx.
  - exists x. split; [reflexivity |]. eapply list_elem_of_lookup_2; exact Hx.
  - apply lookup_ge_None in Hx. lia.
Qed.

Lemma getitem_member {A} (xs : list A) (i : Z) (x : A) :
  getitem xs i = Ok x -> x ∈ xs.
Proof.
  unfold getitem. destruct (_ || _); [discriminate |].
  destruct (xs !! Z.to_nat _) as [y|] eqn:Hy; [| discriminate].
  intros [= <-]. eapply list_elem_of_lookup_2; exact Hy.
Qed.

Lemma scan_positions_answer mappings q ids ut cur r :
  scan_positions mappings q ids ut = Some (Ok r) -> answer_for ids cur r.
Proof.
  induction mappings as [|[p i] mappings IH]; simpl; [discriminate |].
  destruct (contains p q); [| exact IH].
  destruct (i <? Z.of_nat (length ids)).
  - destruct (getitem ids i) as [oid|e] eqn:Hget; simpl; [| discriminate].
    intros [= <-]. simpl. exists oid. split; [reflexivity |].
    eapply getitem_member; exact Hget.
  - intros [= <-]. simpl. now left.
Qed.

Lemma scan_numbers_answer numbers ids ut cur r :
  scan_numbers numbers ids ut = Ok (Some r) -> answer_for ids cur r.
Proof.
  induction numbers as [|num numbers IH]; cbn [scan_numbers];
    [discriminate |].
  destruct (int_of_digits num) as [oid|e]; cbn [bind]; [| discriminate].
  destruct (bool_decide _) eqn:Hin; [| exact IH].
  intros [= <-]. simpl. eexists. split; [reflexivity |].
  now apply bool_decide_eq_true in Hin.
Qed.

Lemma resolve_for_user_answer q cur ids ut r :
  resolve_for_user q cur ids ut = Ok r -> answer_for ids cur r.
Proof.
  unfold resolve_for_user.
  destruct (scan_positions _ _ _ _) as [res|] eqn:Hpos.
  - intros ->. eapply scan_positions_answer; exact Hpos.
  - destruct (re_search _ _) as [m|].
    + destruct (int_of_digits _) as [n|e0]; cbn [bind]; [| discriminate].
      destruct (_ <? _).
      * destruct (getitem ids _) as [oid|e] eqn:Hget; simpl; [| discriminate].
        intros [= <-]. simpl. exists oid. split; [reflexivity |].
        eapply getitem_member; exact Hget.
      * intros [= <-]. simpl. now left.
    + destruct (scan_numbers _ _ _) as [[res|]|e0] eqn:Hnum; cbn [bind];
        [| | discriminate].
      * intros [= <-]. eapply scan_numbers_answer; exact Hnum.
      * destruct cur as [c|].
        -- intros [= <-]. simpl. right. eauto.
        -- destruct ids as [|first ids]; intros [= <-]; simpl.
           ++ now left.
           ++ exists first. split; [reflexivity |]. apply elem_of_cons. now left.
Qed.

Lemma sort_ext {A} (lt1 lt2 : A -> A -> bool) (xs : list A) :
  (forall a b, lt1 a b = lt2 a b) -> sort lt1 xs = sort lt2 xs.
Proof.
  intros Hext. unfold sort. generalize (@nil A) as acc.
  induction xs as [|x xs IH]; intros acc; simpl; [reflexivity |].
  rewrite IH. f_equal.
  induction acc as [|y acc IHacc]; simpl; [reflexivity |].
  now rewrite Hext, IHacc.
Qed.

Lemma sorted_reverse_as_key (xs : list Z) :
  sorted_reverse xs = sort (fun a b => Z.opp a <? Z.opp b) xs.
Proof.
  unfold sorted_reverse. apply sort_ext. intros a b.
  destruct (Z.ltb_spec b a), (Z.ltb_spec (- a) (- b)); (reflexivity || lia).
Qed.

Lemma sorted_reverse_perm (xs : list Z) : Permutation (sorted_reverse xs) xs.
Proof. rewrite sorted_reverse_as_key. apply (sort_perm Z.opp). Qed.

Lemma sorted_reverse_descending (xs : list Z) :
  StronglySorted (fun a b => b <= a) (sorted_reverse xs).
Proof.
  rewrite sorted_reverse_as_key.
  pose proof (sort_sorted Z.opp xs) as Hsorted.
  induction Hsorted as [|a l Hl IH Ha]; constructor; [exact IH |].
  eapply List.Forall_impl; [| exact Ha].
  intros b Hab; simpl in Hab; lia.
Qed.

(** X1. For a driver or client, whatever the query: when the answer says
    to switch, it names exactly one order, and that order is on the
    user's own list; when it says not to switch, it names no order or
    the current one. *)
Theorem resolve_order_context_own_orders
    (db : Mongo.Db) (query : string) (current_order_id : option Z)
    (user_data : gmap string UserInfo) :
  user_data !! "admin_info" = None ->
  answer_for (listed_orders user_data) current_order_id
    (resolve_order_context db query current_order_id user_data).
Proof.
  intros Hadmin. unfold resolve_order_context, resolve_body, listed_orders.
  rewrite Hadmin.
  assert (Hfor : forall ids ut,
            answer_for ids current_order_id
              match resolve_for_user query current_order_id (sorted_reverse ids) ut
              with Ok r => r | Raise _ => (false, [], "Error in processing"%string)
              end).
  { intros ids ut.
    destruct (resolve_for_user _ _ _ _) as [r|e] eqn:Hres; [| now left].
    apply resolve_for_user_answer in Hres.
    destruct r as [[[] l] e]; simpl in *; [| exact Hres].
    destruct Hres as (oid & -> & Hin). exists oid. split; [reflexivity |].
    now rewrite sorted_reverse_perm in Hin. }
  destruct (user_data !! "driver_info") as [info|].
  - unfold order_ids_of. destruct (OrderService.order_ids info); simpl.
    + apply Hfor.
    + now left.
  - destruct (user_data !! "client_info") as [info|]; [| now left].
    unfold order_ids_of. destruct (OrderService.order_ids info); simpl.
    + apply Hfor.
    + now left.
Qed.

Lemma resolve_order_context_own_orders_witness :
  resolve_order_context unreachable_db "what about 450 then" (Some 350)
    (orders_of_user "client_info")
  = (true, [450], "Using order 450 (second latest order) for client"%string)
  /\ 450 ∈ listed_orders (orders_of_user "client_info").
Proof.
  split; [vm_compute; reflexivity |].
  pose proof (resolve_order_context_own_orders unreachable_db
                "what about 450 then" (Some 350) (orders_of_user "client_info")
                eq_refl) as Hown.
  replace (resolve_order_context unreachable_db "what about 450 then" (Some 350)
             (orders_of_user "client_info"))
    with (true, [450], "Using order 450 (second latest order) for client"%string)
    in Hown by (vm_compute; reflexivity).
  destruct Hown as (oid & [= <-] & Hin). exact Hin.
Defined.

End ResolutionShape.

(** ** What a match of the pattern engine tells about the text *)

Section RegexFacts.

Lemma match_lit_suffix s st st' :
  match_lit s st = Some st' -> m_rest st' `suffix_of` m_rest st.
Proof.
  revert st. induction s as [|c s IH]; intros st; simpl.
  - now intros [= <-].
  - destruct (m_rest st) as [|d rest] eqn:Hrest; [discriminate |].
    destruct (Ascii.eqb c d); [| discriminate].
    intros Hm. apply IH in Hm. simpl in Hm.
    now apply suffix_cons_r.
Qed.

Lemma match_lit_prefix s st st' :
  match_lit s st = Some st' ->
  String.prefix s (string_of_list_ascii (m_rest st)) = true.
Proof.
  revert st. induction s as [|c s IH]; intros st; simpl;
    [intros _; now destruct (string_of_list_ascii _) |].
  destruct (m_rest st) as [|d rest] eqn:Hrest; [discriminate |].
  destruct (Ascii.eqb c d) eqn:Hcd; [| discriminate].
  apply Ascii.eqb_eq in Hcd as ->. intros Hm. apply IH in Hm. simpl in *.
  destruct (ascii_dec d d); [exact Hm | contradiction].
Qed.

Lemma match_rep_cps {R} p min pos prev rest grp (k : mstate -> option R) x :
  match_rep p min pos prev rest grp k = Some x ->
  exists st1, k st1 = Some x /\ m_rest st1 `suffix_of` rest.
Proof.
  revert min pos prev.
  induction rest as [|c rest IH]; intros min pos prev; simpl.
  - destruct min; [| discriminate]. intros Hk. eexists. split; [exact Hk |].
    reflexivity.
  - assert (Hstop : match min with
                    | O => k (MState pos prev (c :: rest) grp)
                    | S _ => None
                    end = Some x ->
                    exists st1, k st1 = Some x /\ m_rest st1 `suffix_of` c :: rest).
    { destruct min; [| discriminate]. intros Hk. eexists. split; [exact Hk |].
      reflexivity. }
    destruct (p c); [| exact Hstop].
    destruct (match_rep p (Nat.pred min) (S pos) (Some c) rest grp k)
      as [y|] eqn:Hrec; [| exact Hstop].
    intros [= <-]. apply IH in Hrec as (st1 & Hk & Hsuf).
    exists st1. split; [exact Hk |]. now apply suffix_cons_r.
Qed.

(** A successful match hands the continuation a state whose rest is a
    suffix of the rest it started with. *)
Lemma rmatch_cps {R} r st (k : mstate -> option R) x :
  rmatch r st k = Some x ->
  exists st1, k st1 = Some x /\ m_rest st1 `suffix_of` m_rest st.
Proof.
  revert st k. induction r as [s|min p|c|r1 IH1 r2 IH2|r1 IH1 r2 IH2|r IH|];
    intros st k; cbn [rmatch].
  - destruct (match_lit s st) as [st'|] eqn:Hlit; [| discriminate].
    intros Hk. exists st'. split; [exact Hk |].
    eapply match_lit_suffix; exact Hlit.
  - apply match_rep_cps.
  - destruct (match_lit _ st) as [st'|] eqn:Hlit.
    + destruct (k st') as [y|] eqn:Hk1.
      * intros [= <-]. exists st'. split; [exact Hk1 |].
        eapply match_lit_suffix; exact Hlit.
      * intros Hk. exists st. split; [exact Hk | reflexivity].
    + intros Hk. exists st. split; [exact Hk | reflexivity].
  - intros Hm. apply IH1 in Hm as (st1 & Hm & Hs1).
    apply IH2 in Hm as (st2 & Hk & Hs2).
    exists st2. split; [exact Hk |]. etransitivity; eassumption.
  - destruct (rmatch r1 st k) as [y|] eqn:H1.
    + intros [= <-]. now apply IH1.
    + apply IH2.
  - intros Hm. apply IH in Hm as (st1 & Hk & Hs).
    eexists. split; [exact Hk |]. exact Hs.
  - destruct (at_boundary st); [| discriminate].
    intros Hk. exists st. split; [exact Hk | reflexivity].
Qed.

Lemma search_from_start r pos prev rest m :
  search_from r pos prev rest = Some m ->
  exists st st', m_rest st `suffix_of` rest /\ rmatch r st Some = Some st'.
Proof.
  revert pos prev. induction rest as [|c rest IH]; intros pos prev; simpl.
  - destruct (rmatch r _ Some) as [st'|] eqn:Hm; [| discriminate].
    intros _. eexists _, st'. split; [| exact Hm]. reflexivity.
  - destruct (rmatch r _ Some) as [st'|] eqn:Hm.
    + intros _. eexists _, st'. split; [| exact Hm]. reflexivity.
    + intros Hs. apply IH in Hs as (st & st' & Hsuf & Hm').
      exists st, st'. split; [| exact Hm']. now apply suffix_cons_r.
Qed.

Lemma contains_cons s c q :
  contains s (String c q) = String.prefix s (String c q) || contains s q.
Proof. reflexivity. Qed.

Lemma contains_of_suffix s (q : string) (l : list ascii) :
  l `suffix_of` chars q ->
  String.prefix s (string_of_list_ascii l) = true ->
  contains s q = true.
Proof.
  revert l. induction q as [|c q IH]; intros l Hsuf Hpre.
  - apply suffix_nil_inv in Hsuf as ->. simpl in *. now rewrite Hpre.
  - change (chars (String c q)) with (c :: chars q) in Hsuf.
    assert (Hcases : l = c :: chars q \/ l `suffix_of` chars q).
    { destruct Hsuf as [[|x k] Hk]; simpl in Hk; [now left |].
      right. injection Hk as _ ->. now exists k. }
    rewrite contains_cons.
    destruct Hcases as [-> | Hsuf'].
    + change (c :: chars q) with (chars (String c q)) in Hpre.
      unfold chars in Hpre. rewrite string_of_list_ascii_of_string in Hpre.
      now rewrite Hpre.
    + rewrite (IH l Hsuf' Hpre). apply orb_true_r.
Qed.

Lemma rmatch_seq {R} r1 r2 st (k : mstate -> option R) :
  rmatch (RSeq r1 r2) st k = rmatch r1 st (fun st' => rmatch r2 st' k).
Proof. reflexivity. Qed.

Lemma rmatch_lit {R} s st (k : mstate -> option R) :
  rmatch (RLit s) st k
  = match match_lit s st with Some st' => k st' | None => None end.
Proof. reflexivity. Qed.

(** A text in which the ordinal pattern matches contains "latest". *)
Lemma ordinal_match_has_latest (q : string) (m : rematch) :
  re_search ordinal_pattern q = Some m -> contains "latest" q = true.
Proof.
  unfold re_search. intros Hs.
  apply search_from_start in Hs as (st & st' & Hsuf & Hm).
  unfold ordinal_pattern in Hm.
  rewrite rmatch_seq in Hm. apply rmatch_cps in Hm as (st1 & Hm & Hs1).
  rewrite rmatch_seq in Hm. apply rmatch_cps in Hm as (st2 & Hm & Hs2).
  rewrite rmatch_seq in Hm. apply rmatch_cps in Hm as (st3 & Hm & Hs3).
  rewrite rmatch_lit in Hm.
  destruct (match_lit "latest" st3) as [st4|] eqn:Hlit; [| discriminate].
  apply match_lit_prefix in Hlit.
  eapply contains_of_suffix; [| exact Hlit].
  etransitivity; [exact Hs3 |]. etransitivity; [exact Hs2 |].
  etransitivity; [exact Hs1 | exact Hsuf].
Qed.

Lemma scan_positions_hit mappings q ids ut p i :
  In (p, i) mappings -> contains p q = true ->
  scan_positions mappings q ids ut <> None.
Proof.
  induction mappings as [|[p' i'] mappings IH]; simpl; [contradiction |].
  intros [[= -> ->] | Hin] Hq.
  - rewrite Hq. now destruct (_ <? _).
  - destruct (contains p' q); [now destruct (_ <? _) |]. now apply IH.
Qed.

Lemma ordinal_match_is_positional q ids ut m :
  re_search ordinal_pattern q = Some m ->
  scan_positions Constants.POSITION_MAPPINGS q ids ut <> None.
Proof.
  intros Hm. apply (scan_positions_hit _ _ _ _ "latest" 0).
  - unfold Constants.POSITION_MAPPINGS. do 18 right. now left.
  - eapply ordinal_match_has_latest; exact Hm.
Qed.

(** X2. The branch for "3rd latest", "1st latest" and the like is never
    reached: a query in which that pattern matches contains "latest",
    so the loop over the position phrases has answered before. *)
Theorem ordinal_phrase_answered_by_positions
    (query : string) (current_order_id : option Z) (order_ids : list Z)
    (user_type : string) (m : rematch) :
  re_search ordinal_pattern (lower query) = Some m ->
  exists r,
    scan_positions Constants.POSITION_MAPPINGS (lower query) order_ids user_type = Some r
    /\ resolve_for_user query current_order_id order_ids user_type = r.
Proof.
  intros Hm. unfold resolve_for_user.
  pose proof (ordinal_match_is_positional _ order_ids user_type _ Hm) as Hpos.
  destruct (scan_positions _ _ _ _) as [r|]; [| contradiction].
  exists r. now split.
Qed.

(** "the 3rd latest order" is read as "the latest order". *)
Lemma ordinal_phrase_answered_by_positions_witness :
  re_search ordinal_pattern (lower "show me the 3rd latest order")
  = Some (ReMatch 12 22 (Some (12, 13)%nat))
  /\ resolve_for_user "show me the 3rd latest order" None [500; 450; 400; 350]
       "driver"
     = Ok (true, [500], "Using latest order (500) for driver"%string).
Proof.
  assert (Hm : re_search ordinal_pattern (lower "show me the 3rd latest order")
               = Some (ReMatch 12 22 (Some (12, 13)%nat)))
    by (vm_compute; reflexivity).
  split; [exact Hm |].
  destruct (ordinal_phrase_answered_by_positions "show me the 3rd latest order"
              None [500; 450; 400; 350] "driver" _ Hm) as (r & Hscan & ->).
  vm_compute in Hscan. now injection Hscan as <-.
Defined.

End RegexFacts.

(** ** Administrators, and users as [get_user_info] describes them *)

Section ResolutionUsers.

Lemma admin_scan_found db patterns q oid :
  admin_scan db patterns q = Some oid -> is_Some (Mongo.find_order db oid).
Proof.
  induction patterns as [|pattern patterns IH]; simpl; [discriminate |].
  destruct (re_search pattern q) as [m|]; [| exact IH].
  destruct (int_of_digits (group1 q m)) as [order_id|e]; [| discriminate].
  destruct (Mongo.find_order db order_id) as [doc|] eqn:Hdoc; [| exact IH].
  intros [= <-]. rewrite Hdoc. eauto.
Qed.

Lemma admin_fallback_answer db cur : admin_answer db cur (admin_fallback cur).
Proof.
  unfold admin_fallback. destruct cur as [c|]; [| now left].
  destruct (Z.eqb_spec c 0); [now left |]. right. eauto.
Qed.

(** X3. For an administrator, whatever the query: a switch names
    exactly one order, which is not 0 and which the store holds; without
    a switch the answer names no order, or the current one. *)
Theorem resolve_order_context_admin_stored_order
    (db : Mongo.Db) (query : string) (current_order_id : option Z)
    (user_data : gmap string UserInfo) :
  is_Some (user_data !! "admin_info") ->
  admin_answer db current_order_id
    (resolve_order_context db query current_order_id user_data).
Proof.
  intros [info Hadmin]. unfold resolve_order_context, resolve_body.
  rewrite Hadmin. unfold get_admin_order_id, Mongo.get_db.
  destruct (Mongo.connected db); cbn [bind]; [| now left].
  destruct (admin_scan db admin_patterns (lower query)) as [oid|] eqn:Hscan.
  - destruct (Z.eqb_spec oid 0); [apply admin_fallback_answer |].
    cbn [admin_answer]. exists oid. repeat split; [assumption |].
    eapply admin_scan_found; exact Hscan.
  - apply admin_fallback_answer.
Qed.

Lemma resolve_order_context_admin_stored_order_witness :
  resolve_order_context one_order_db "tell me about order 2892" (Some 7)
    admin_data
  = (true, [2892], "Accessing order 2892 as admin"%string)
  /\ is_Some (Mongo.find_order one_order_db 2892).
Proof.
  split; [vm_compute; reflexivity |].
  assert (Hadmin : is_Some (admin_data !! "admin_info"))
    by (vm_compute; eauto).
  pose proof (resolve_order_context_admin_stored_order one_order_db
                "tell me about order 2892" (Some 7) admin_data Hadmin) as Hans.
  replace (resolve_order_context one_order_db "tell me about order 2892"
             (Some 7) admin_data)
    with (true, [2892], "Accessing order 2892 as admin"%string)
    in Hans by (vm_compute; reflexivity).
  destruct Hans as (oid & [= <-] & _ & Hstored). exact Hstored.
Defined.

Lemma scan_positions_names mappings q ids ut :
  (forall p i, In (p, i) mappings -> 0 <= i) ->
  if existsb (fun kv => contains (fst kv) q) mappings
  then exists x, scan_positions mappings q ids ut = Some (Ok x)
  else scan_positions mappings q ids ut = None.
Proof.
  induction mappings as [|[p i] mappings IH]; intros Hpos;
    cbn [existsb scan_positions fst]; [reflexivity |].
  destruct (contains p q); cbn [orb].
  - destruct (Z.ltb_spec i (Z.of_nat (length ids))) as [Hlt | Hge]; [| eauto].
    destruct (getitem_ok ids i) as (oid & Hget & _).
    { split; [| exact Hlt]. apply (Hpos p i). now left. }
    rewrite Hget. cbn [bind]. eauto.
  - apply IH. intros p' i' Hin. apply (Hpos p' i'). now right.
Qed.

Lemma position_indices_nonnegative p i :
  In (p, i) Constants.POSITION_MAPPINGS -> 0 <= i.
Proof.
  unfold Constants.POSITION_MAPPINGS. simpl.
  intros Hin. repeat (destruct Hin as [[= <- <-] | Hin]; [lia |]).
  contradiction.
Qed.

Lemma scan_numbers_outcome numbers ids ut :
  if meets_long_number numbers ids
  then scan_numbers numbers ids ut = Raise Py.ValueError
  else exists found, scan_numbers numbers ids ut = Ok found.
Proof.
  induction numbers as [|num numbers IH];
    cbn [meets_long_number scan_numbers]; [eauto |].
  unfold int_of_digits.
  destruct (int_max_str_digits <? length num)%nat; cbn [bind]; [reflexivity |].
  destruct (bool_decide (digits_value num ∈ ids)); [eauto | exact IH].
Qed.

Lemma meets_long_number_ext numbers ids ids' :
  (forall x, x ∈ ids <-> x ∈ ids') ->
  meets_long_number numbers ids = meets_long_number numbers ids'.
Proof.
  intros Hsame. induction numbers as [|num numbers IH]; [reflexivity |].
  cbn [meets_long_number]. rewrite IH.
  now rewrite (bool_decide_ext _ _ (Hsame (digits_value num))).
Qed.

(** What the resolution does with the order list at hand: it raises
    when the query names no position and its numbers come to one that
    [int] refuses, and on no other query. *)
Lemma resolve_for_user_outcome q cur ids ut :
  if negb (names_position q)
     && meets_long_number (re_findall number_pattern q) ids
  then resolve_for_user q cur ids ut = Raise Py.ValueError
  else exists r, resolve_for_user q cur ids ut = Ok r.
Proof.
  unfold resolve_for_user, names_position.
  pose proof (scan_positions_names Constants.POSITION_MAPPINGS (lower q) ids ut
                position_indices_nonnegative) as Hpos.
  destruct (existsb _ Constants.POSITION_MAPPINGS); cbn [negb andb].
  - destruct Hpos as (x & ->). eauto.
  - rewrite Hpos.
    destruct (re_search ordinal_pattern (lower q)) as [m|] eqn:Hm.
    { now apply (ordinal_match_is_positional _ ids ut) in Hm. }
    pose proof (scan_numbers_outcome (re_findall number_pattern q) ids ut)
      as Hnum.
    destruct (meets_long_number _ ids); [now rewrite Hnum |].
    destruct Hnum as (found & ->). cbn [bind].
    destruct found; [eauto |]. destruct cur; [eauto |]. destruct ids; eauto.
Qed.

(** The exceptions of the body of the [try] are those of
    [exception_during], on the inputs it names. *)
Lemma resolve_body_outcome db q cur ud :
  match exception_during db q ud with
  | Some e => resolve_body db q cur ud = Raise e
  | None => exists r, resolve_body db q cur ud = Ok r
  end.
Proof.
  unfold exception_during, resolve_body, user_info.
  destruct (ud !! "admin_info") as [admin|].
  { unfold get_admin_order_id, Mongo.get_db.
    destruct (Mongo.connected db); cbn [bind]; [| reflexivity].
    destruct (admin_scan _ _ _) as [oid|]; [| eauto].
    destruct (oid =? 0); eauto. }
  assert (Hfor : forall info ut,
            match OrderService.order_ids info with
            | Some ids =>
                if negb (names_position q)
                   && meets_long_number (re_findall number_pattern q) ids
                then Some Py.ValueError
                else None
            | None => Some (KeyError "order_ids")
            end = None ->
            exists r,
              bind (order_ids_of info)
                (fun ids => resolve_for_user q cur (sorted_reverse ids) ut)
              = Ok r).
  { intros info ut. unfold order_ids_of.
    destruct (OrderService.order_ids info) as [ids|]; [| discriminate].
    cbn [bind].
    pose proof (resolve_for_user_outcome q cur (sorted_reverse ids) ut) as Hout.
    rewrite (meets_long_number_ext _ (sorted_reverse ids) ids) in Hout
      by (intros x; now rewrite sorted_reverse_perm).
    destruct (negb _ && _); [discriminate | intros _; exact Hout]. }
  assert (Hraise : forall info ut e,
            match OrderService.order_ids info with
            | Some ids =>
                if negb (names_position q)
                   && meets_long_number (re_findall number_pattern q) ids
                then Some Py.ValueError
                else None
            | None => Some (KeyError "order_ids")
            end = Some e ->
            bind (order_ids_of info)
              (fun ids => resolve_for_user q cur (sorted_reverse ids) ut)
            = Raise e).
  { intros info ut e. unfold order_ids_of.
    destruct (OrderService.order_ids info) as [ids|];
      [| now intros [= <-]].
    cbn [bind].
    pose proof (resolve_for_user_outcome q cur (sorted_reverse ids) ut) as Hout.
    rewrite (meets_long_number_ext _ (sorted_reverse ids) ids) in Hout
      by (intros x; now rewrite sorted_reverse_perm).
    destruct (negb _ && _); [now intros [= <-] | discriminate]. }
  destruct (ud !! "driver_info") as [info|].
  { destruct (match OrderService.order_ids info with
              | Some _ => _ | None => _ end) as [e|] eqn:He;
      [now apply Hraise | now apply Hfor]. }
  destruct (ud !! "client_info") as [info|]; [| eauto].
  destruct (match OrderService.order_ids info with
            | Some _ => _ | None => _ end) as [e|] eqn:He;
    [now apply Hraise | now apply Hfor].
Qed.

Lemma scan_positions_opening mappings q ids ut r :
  scan_positions mappings q ids ut = Some (Ok r) ->
  opening r <> Some "E"%char.
Proof.
  induction mappings as [|[p i] mappings IH]; cbn [scan_positions];
    [discriminate |].
  destruct (contains p q); [| exact IH].
  destruct (i <? Z.of_nat (length ids)).
  - destruct (getitem ids i) as [oid|e]; cbn [bind]; [| discriminate].
    intros [= <-]. discriminate.
  - intros [= <-]. discriminate.
Qed.

Lemma scan_numbers_opening numbers ids ut r :
  scan_numbers numbers ids ut = Ok (Some r) -> opening r <> Some "E"%char.
Proof.
  induction numbers as [|num numbers IH]; cbn [scan_numbers];
    [discriminate |].
  destruct (int_of_digits num) as [oid|e]; cbn [bind]; [| discriminate].
  destruct (bool_decide _); [| exact IH].
  intros [= <-]. discriminate.
Qed.

Lemma resolve_for_user_opening q cur ids ut r :
  resolve_for_user q cur ids ut = Ok r -> opening r <> Some "E"%char.
Proof.
  unfold resolve_for_user.
  destruct (scan_positions _ _ _ _) as [res|] eqn:Hpos.
  - intros ->. eapply scan_positions_opening; exact Hpos.
  - destruct (re_search _ _) as [m|].
    + destruct (int_of_digits _) as [n|e0]; cbn [bind]; [| discriminate].
      destruct (_ <? _).
      * destruct (getitem ids _) as [oid|e]; cbn [bind]; [| discriminate].
        intros [= <-]. discriminate.
      * intros [= <-]. discriminate.
    + destruct (scan_numbers _ _ _) as [[res|]|e0] eqn:Hnum; cbn [bind];
        [| | discriminate].
      * intros [= <-]. eapply scan_numbers_opening; exact Hnum.
      * destruct cur as [c|]; [intros [= <-]; discriminate |].
        destruct ids; intros [= <-]; discriminate.
Qed.

(** No answer of the body begins like "Error in processing". *)
Lemma resolve_body_opening db q cur ud r :
  resolve_body db q cur ud = Ok r -> opening r <> Some "E"%char.
Proof.
  unfold resolve_body.
  destruct (ud !! "admin_info") as [admin|].
  { destruct (get_admin_order_id db q) as [[oid|]|e]; cbn [bind];
      [| | discriminate].
    - destruct (oid =? 0); intros [= <-]; [| discriminate].
      unfold admin_fallback. destruct cur as [c|]; [| discriminate].
      destruct (c =? 0); discriminate.
    - intros [= <-]. unfold admin_fallback.
      destruct cur as [c|]; [| discriminate]. destruct (c =? 0); discriminate. }
  destruct (ud !! "driver_info") as [info|].
  { destruct (order_ids_of info) as [ids|e]; cbn [bind]; [| discriminate].
    apply resolve_for_user_opening. }
  destruct (ud !! "client_info") as [info|].
  { destruct (order_ids_of info) as [ids|e]; cbn [bind]; [| discriminate].
    apply resolve_for_user_opening. }
  intros [= <-]. discriminate.
Qed.

(** C8. [resolve_order_context] never raises.  An exception occurs
    during the resolution on these inputs and no others: for an
    administrator when the store cannot be reached; for a driver or
    client whose info has no order list; and for a driver or client
    whose query names no position and whose numbers come, before any
    id of the list, to a run of more digits than [int] accepts.  On
    each of them the caller gets exactly the triple (false, [],
    "Error in processing"), as for any exception of the body; on every
    other input the body returns and the caller gets its answer, which
    is never that triple. *)
Theorem resolve_order_context_never_raises
    (db : Mongo.Db) (query : string) (current_order_id : option Z)
    (user_data : gmap string UserInfo) :
  (forall e,
     resolve_body db query current_order_id user_data = Raise e ->
     resolve_order_context db query current_order_id user_data
     = (false, [], "Error in processing"%string))
  /\ match exception_during db query user_data with
     | Some e =>
         resolve_body db query current_order_id user_data = Raise e
         /\ resolve_order_context db query current_order_id user_data
            = (false, [], "Error in processing"%string)
     | None =>
         exists r,
           resolve_body db query current_order_id user_data = Ok r
           /\ resolve_order_context db query current_order_id user_data = r
           /\ r <> (false, [], "Error in processing"%string)
     end.
Proof.
  pose proof (resolve_body_outcome db query current_order_id user_data) as Hout.
  pose proof (resolve_body_opening db query current_order_id user_data) as Hopen.
  unfold resolve_order_context. split.
  - now intros e ->.
  - destruct (exception_during db query user_data) as [e|].
    + now rewrite Hout.
    + destruct Hout as (r & Hr). exists r. rewrite Hr in *.
      split; [reflexivity |]. split; [reflexivity |].
      intros ->. now apply (Hopen _ eq_refl).
Qed.

Lemma chars_length (s : string) : length (chars s) = String.length s.
Proof.
  unfold chars. induction s as [|c s IH]; [reflexivity |].
  cbn [list_ascii_of_string length String.length]. now rewrite IH.
Qed.

Lemma findall_from_short r fuel pos prev rest :
  Forall (fun text => (length text <= length rest)%nat)
    (findall_from r fuel pos prev rest).
Proof.
  revert pos prev rest. induction fuel as [|fuel IH]; intros pos prev rest;
    cbn [findall_from]; [constructor |].
  destruct (search_from r pos prev rest) as [m|]; [| constructor].
  constructor.
  - rewrite length_take, length_drop. lia.
  - eapply List.Forall_impl; [| apply IH].
    cbn beta. intros text. rewrite length_drop. lia.
Qed.

Lemma short_query_short_numbers q ids :
  (String.length q <= int_max_str_digits)%nat ->
  meets_long_number (re_findall number_pattern q) ids = false.
Proof.
  intros Hq. unfold re_findall.
  pose proof (findall_from_short number_pattern (S (String.length q)) 0 None
                (chars q)) as Hshort.
  rewrite chars_length in Hshort.
  induction Hshort as [|num numbers Hnum _ IH]; [reflexivity |].
  cbn [meets_long_number].
  replace (int_max_str_digits <? length num)%nat with false
    by (symmetry; apply Nat.ltb_ge; lia).
  now destruct (bool_decide _).
Qed.

(** X4. What [get_user_info] hands out for a user never makes
    [resolve_order_context] fall into its [except] branch, as long as
    the store is the same and the query is no longer than the longest
    run of digits that [int] accepts: for every role, email, current
    order and such query the body of the [try] returns. *)
Theorem user_info_resolves_without_exception
    (db : Mongo.Db) (role email query : string) (current_order_id : option Z)
    (user_data : gmap string UserInfo) :
  get_user_info db role email = InfoDict user_data ->
  (String.length query <= int_max_str_digits)%nat ->
  exists r, resolve_body db query current_order_id user_data = Ok r
            /\ resolve_order_context db query current_order_id user_data = r.
Proof.
  intros Hinfo Hshort.
  assert (Hnone : exception_during db query user_data = None).
  { unfold get_user_info, Mongo.get_db in Hinfo. unfold exception_during.
    destruct (Mongo.connected db) eqn:Hconn; [| discriminate].
    destruct (String.eqb role "driver").
    - destruct (Mongo.find_user _ _) as [doc|]; [| discriminate].
      injection Hinfo as <-. unfold user_info.
      rewrite lookup_singleton_ne by discriminate.
      rewrite lookup_singleton_eq. cbn [info_of OrderService.order_ids].
      rewrite short_query_short_numbers by exact Hshort.
      now rewrite andb_false_r.
    - destruct (String.eqb role "client").
      + destruct (Mongo.find_user _ _) as [doc|]; [| discriminate].
        injection Hinfo as <-. unfold user_info.
        rewrite lookup_singleton_ne by discriminate.
        rewrite lookup_singleton_ne by discriminate.
        rewrite lookup_singleton_eq. cbn [info_of OrderService.order_ids].
        rewrite short_query_short_numbers by exact Hshort.
        now rewrite andb_false_r.
      + injection Hinfo as <-. now rewrite lookup_singleton_eq. }
  pose proof (resolve_body_outcome db query current_order_id user_data) as Hout.
  rewrite Hnone in Hout. destruct Hout as (r & Hr). exists r.
  split; [exact Hr |]. unfold resolve_order_context. now rewrite Hr.
Qed.

Lemma user_info_resolves_without_exception_witness :
  get_user_info four_orders_db "driver" "driver@example.com"
  = InfoDict {[ "driver_info"%string
                := {| OrderService.order_ids := Some [400; 350; 500; 450] |} ]}
  /\ resolve_order_context four_orders_db "show me the second last order" None
       {[ "driver_info"%string
          := {| OrderService.order_ids := Some [400; 350; 500; 450] |} ]}
     = (true, [450], "Using second latest order (450) for driver"%string).
Proof.
  assert (Hinfo : get_user_info four_orders_db "driver" "driver@example.com"
                  = InfoDict {[ "driver_info"%string
                       := {| OrderService.order_ids
                             := Some [400; 350; 500; 450] |} ]})
    by (vm_compute; reflexivity).
  split; [exact Hinfo |].
  destruct (user_info_resolves_without_exception four_orders_db "driver"
              "driver@example.com" "show me the second last order" None _ Hinfo)
    as (r & Hbody & ->); [vm_compute; lia |].
  vm_compute in Hbody. now injection Hbody as <-.
Defined.

(** X5. The order list computed for a user that [get_user_info]
    describes is the list stored with the user put in descending order
    (newest first), with nothing added or lost; for an administrator it
    is empty. *)
Theorem order_ids_for_user_sorted
    (db : Mongo.Db) (role email : string) (user_data : gmap string UserInfo) :
  get_user_info db role email = InfoDict user_data ->
  exists ids,
    get_order_ids_for_user user_data = Ok ids
    /\ StronglySorted (fun a b => b <= a) ids
    /\ Permutation ids (listed_orders user_data)
    /\ (user_data !! "admin_info" <> None -> ids = []).
Proof.
  unfold get_user_info, Mongo.get_db.
  destruct (Mongo.connected db); [| discriminate].
  destruct (String.eqb role "driver").
  - destruct (Mongo.find_user _ _) as [doc|]; [| discriminate].
    intros [= <-]. unfold get_order_ids_for_user, listed_orders.
    rewrite lookup_singleton_eq. simpl. eexists. split; [reflexivity |].
    split; [apply sorted_reverse_descending |].
    split; [apply sorted_reverse_perm |].
    rewrite lookup_singleton_ne by discriminate. contradiction.
  - destruct (String.eqb role "client").
    + destruct (Mongo.find_user _ _) as [doc|]; [| discriminate].
      intros [= <-]. unfold get_order_ids_for_user, listed_orders.
      rewrite lookup_singleton_ne by discriminate.
      rewrite lookup_singleton_eq. simpl. eexists. split; [reflexivity |].
      split; [apply sorted_reverse_descending |].
      split; [apply sorted_reverse_perm |].
      rewrite lookup_singleton_ne by discriminate. contradiction.
    + intros [= <-]. unfold get_order_ids_for_user, listed_orders.
      rewrite !lookup_singleton_ne by discriminate.
      exists []. repeat split; constructor.
Qed.

Lemma order_ids_for_user_sorted_witness :
  get_order_ids_for_user
    {[ "driver_info"%string
       := {| OrderService.order_ids := Some [400; 350; 500; 450] |} ]}
  = Ok [500; 450; 400; 350].
Proof.
  assert (Hinfo : get_user_info four_orders_db "driver" "driver@example.com"
                  = InfoDict {[ "driver_info"%string
                       := {| OrderService.order_ids
                             := Some [400; 350; 500; 450] |} ]})
    by (vm_compute; reflexivity).
  destruct (order_ids_for_user_sorted four_orders_db "driver"
              "driver@example.com" _ Hinfo) as (ids & Hids & _).
  rewrite Hids. vm_compute in Hids. now injection Hids as <-.
Defined.

End ResolutionUsers.

(** The three inputs on which the resolution runs into an exception:
    an administrator's query while the store cannot be reached, a
    driver without an order list, and a driver whose query is a number
    of 4301 digits. *)
Lemma resolve_order_context_never_raises_witness :
  (resolve_body unreachable_db "tell me about order 2892" None admin_data
   = Raise ConnectionFailure
   /\ resolve_order_context unreachable_db "tell me about order 2892" None
        admin_data
      = (false, [], "Error in processing"%string))
  /\ (resolve_body four_orders_db "show me my orders" None no_order_list
      = Raise (KeyError "order_ids")
      /\ resolve_order_context four_orders_db "show me my orders" None
           no_order_list
         = (false, [], "Error in processing"%string))
  /\ (resolve_body four_orders_db long_number (Some 500)
        (orders_of_user "driver_info")
      = Raise Py.ValueError
      /\ resolve_order_context four_orders_db long_number (Some 500)
           (orders_of_user "driver_info")
         = (false, [], "Error in processing"%string)).
Proof.
  pose proof (resolve_order_context_never_raises unreachable_db
                "tell me about order 2892" None admin_data) as [_ Hadmin].
  pose proof (resolve_order_context_never_raises four_orders_db
                "show me my orders" None no_order_list) as [_ Hkey].
  pose proof (resolve_order_context_never_raises four_orders_db long_number
                (Some 500) (orders_of_user "driver_info")) as [_ Hvalue].
  replace (exception_during unreachable_db "tell me about order 2892"
             admin_data)
    with (Some ConnectionFailure) in Hadmin by (vm_compute; reflexivity).
  replace (exception_during four_orders_db "show me my orders" no_order_list)
    with (Some (KeyError "order_ids")) in Hkey by (vm_compute; reflexivity).
  replace (exception_during four_orders_db long_number
             (orders_of_user "driver_info"))
    with (Some Py.ValueError) in Hvalue by (vm_compute; reflexivity).
  split; [exact Hadmin | split; [exact Hkey | exact Hvalue]].
Defined.

(** * Documents and views *)

Section Documents.

Lemma json_induction (P : json -> Prop) :
  P JNull -> (forall b, P (JBool b)) -> (forall n, P (JInt n)) ->
  (forall s, P (JStr s)) ->
  (forall items, Forall P items -> P (JList items)) ->
  (forall entries, Forall (fun kv => P kv.2) entries -> P (JDict entries)) ->
  forall data, P data.
Proof.
  intros Hnull Hbool Hint Hstr Hlist Hdict.
  fix IH 1. intros [ | b | n | s | items | entries ].
  - exact Hnull.
  - apply Hbool.
  - apply Hint.
  - apply Hstr.
  - apply Hlist. induction items as [|x r IHr]; constructor;
      [apply IH | exact IHr].
  - apply Hdict. induction entries as [|[k v] r IHr]; constructor;
      [apply IH | exact IHr].
Qed.

Lemma all_keys_dict entries :
  all_keys (JDict entries)
  = flat_map (fun kv => kv.1 :: all_keys kv.2) entries.
Proof.
  cbn [all_keys]. induction entries as [|[k v] r IHr]; [reflexivity|].
  cbn [flat_map fst snd]. rewrite <- IHr. reflexivity.
Qed.

Lemma filter_recursive_dict ex mex entries :
  _filter_recursive ex mex (JDict entries)
  = JDict (map (fun kv => (kv.1, _filter_recursive ex mex kv.2))
             (List.filter (fun kv => kept ex mex kv.1) entries)).
Proof.
  cbn [_filter_recursive]. f_equal.
  induction entries as [|[k v] r IHr]; [reflexivity|].
  cbn [List.filter fst snd]. destruct (kept ex mex k); cbn [map fst snd];
    rewrite IHr; reflexivity.
Qed.

Lemma kept_spec ex mex k : kept ex mex k = true <-> (k ∉ ex) /\ (k ∉ mex).
Proof.
  unfold kept. rewrite andb_true_iff, !bool_decide_eq_true. reflexivity.
Qed.

Lemma filter_recursive_keys ex mex data k :
  In k (all_keys (_filter_recursive ex mex data)) ->
  In k (all_keys data) /\ (k ∉ ex) /\ (k ∉ mex).
Proof.
  revert k. induction data as [ | | | | items IH | entries IH ]
    using json_induction; intros k; try (cbn; tauto).
  - cbn [_filter_recursive all_keys]. rewrite !List.in_flat_map.
    intros (x & Hx & Hk). apply List.in_map_iff in Hx as (y & <- & Hy).
    rewrite List.Forall_forall in IH. destruct (IH y Hy k Hk) as (? & ? & ?).
    split; [exists y; split; assumption | split; assumption].
  - rewrite filter_recursive_dict, !all_keys_dict, !List.in_flat_map.
    intros (x & Hx & Hk). apply List.in_map_iff in Hx as (y & <- & Hy).
    apply List.filter_In in Hy as (Hy & Hkept). apply kept_spec in Hkept.
    cbn [fst snd] in Hk. destruct Hk as [<- | Hk].
    + split; [exists y; split; [assumption | now left] | assumption].
    + rewrite List.Forall_forall in IH. destruct (IH y Hy k Hk) as (? & ? & ?).
      split; [exists y; split; [assumption | now right] | split; assumption].
Qed.

Lemma filter_recursive_clean ex mex data :
  (forall k, In k (all_keys data) -> (k ∉ ex) /\ (k ∉ mex)) ->
  _filter_recursive ex mex data = data.
Proof.
  induction data as [ | | | | items IH | entries IH ]
    using json_induction; intros Hclean; try reflexivity.
  - cbn [_filter_recursive]. f_equal.
    cbn [all_keys] in Hclean.
    induction items as [|x r IHr]; [reflexivity|].
    inversion IH as [|? ? Hx Hr]; subst. cbn [map]. f_equal.
    + apply Hx. intros k Hk. apply Hclean. cbn [flat_map].
      apply List.in_or_app. now left.
    + apply IHr; [assumption|]. intros k Hk. apply Hclean. cbn [flat_map].
      apply List.in_or_app. now right.
  - rewrite filter_recursive_dict. f_equal. rewrite all_keys_dict in Hclean.
    induction entries as [|[k v] r IHr]; [reflexivity|].
    inversion IH as [|? ? Hv Hr]; subst. cbn [List.filter fst snd].
    assert (Hk : kept ex mex k = true).
    { apply kept_spec, Hclean. cbn [flat_map fst snd]. now left. }
    rewrite Hk. cbn [map fst snd]. f_equal.
    + f_equal. apply Hv. intros k' Hk'. apply Hclean. cbn [flat_map fst snd].
      right. apply List.in_or_app. now left.
    + apply IHr; [assumption|]. intros k' Hk'. apply Hclean.
      cbn [flat_map fst snd]. right. apply List.in_or_app. now right.
Qed.

Lemma filter_recursive_narrow ex1 ex2 mex data :
  ex1 ⊆ ex2 ->
  _filter_recursive ex2 mex (_filter_recursive ex1 mex data)
  = _filter_recursive ex2 mex data.
Proof.
  intros Hsub. induction data as [ | | | | items IH | entries IH ]
    using json_induction; try reflexivity.
  - cbn [_filter_recursive]. f_equal. rewrite List.map_map.
    apply List.map_ext_in. intros x Hx.
    rewrite List.Forall_forall in IH. now apply IH.
  - rewrite !filter_recursive_dict. f_equal.
    induction entries as [|[k v] r IHr]; [reflexivity|].
    inversion IH as [|? ? Hv Hr]; subst. cbn [List.filter fst snd].
    destruct (kept ex1 mex k) eqn:H1.
    + cbn [map List.filter fst snd].
      destruct (kept ex2 mex k) eqn:H2.
      * cbn [map fst snd]. cbn [snd] in Hv. rewrite Hv. f_equal. now apply IHr.
      * now apply IHr.
    + assert (H2 : kept ex2 mex k = false).
      { apply not_true_is_false. rewrite kept_spec. intros [Hk2 Hm].
        apply not_true_iff_false in H1. apply H1, kept_spec.
        split; [|assumption]. intros Hk1. apply Hk2, Hsub, Hk1. }
      rewrite H2. now apply IHr.
Qed.

Lemma admin_fields_commonly_hidden :
  ADMIN_EXCLUDED_FIELDS ⊆ COMMON_EXCLUDED_FIELDS.
Proof.
  unfold ADMIN_EXCLUDED_FIELDS, COMMON_EXCLUDED_FIELDS. intros x.
  rewrite !elem_of_union, !elem_of_singleton. tauto.
Qed.

(** X6. Whatever role asks, a key of the view it gets is a key of the
    order document, and it is none of the meta fields and none of the
    fields hidden from administrators; for a driver or a client it is
    none of the commonly hidden fields either.  This holds at every
    depth of the document. *)
Theorem filter_order_by_role_hides_excluded order_data role view k :
  filter_order_by_role order_data role = Returned view ->
  In k (all_keys view) ->
  In k (all_keys order_data)
  /\ (k ∉ META_EXCLUDED_FIELDS)
  /\ (k ∉ ADMIN_EXCLUDED_FIELDS)
  /\ (role <> "admin"%string -> (k ∉ COMMON_EXCLUDED_FIELDS)).
Proof.
  pose proof admin_fields_commonly_hidden as Hsub.
  unfold filter_order_by_role.
  destruct (String.eqb role "driver") eqn:Hd;
    [| destruct (String.eqb role "client") eqn:Hc;
       [| destruct (String.eqb role "admin") eqn:Ha; [| discriminate]]];
    intros [= <-] Hk;
    apply filter_recursive_keys in Hk as (Hin & Hex & Hmeta);
    (split; [exact Hin | split; [exact Hmeta | split]]).
  - intros ?. now apply Hex, Hsub.
  - intros _. exact Hex.
  - intros ?. now apply Hex, Hsub.
  - intros _. exact Hex.
  - exact Hex.
  - intros Hrole. apply String.eqb_eq in Ha. contradiction.
Qed.

Lemma filter_order_by_role_hides_excluded_witness :
  In "pickup"%string (all_keys invoice_order)
  /\ ("pickup"%string ∉ COMMON_EXCLUDED_FIELDS).
Proof.
  pose proof (filter_order_by_role_hides_excluded invoice_order "driver"
    (JDict [("route"%string, JList [JDict [("pickup"%string, JStr "Dallas")]])])
    "pickup" eq_refl) as H.
  destruct H as (Hin & _ & _ & Hcommon).
  - cbn. right. now left.
  - split; [exact Hin | apply Hcommon; discriminate].
Defined.

(** X7. Of two filters with the same meta fields, one hiding at least
    what the other hides, the stricter one wins in either order; so the
    driver's view of an administrator's view is the driver's view of
    the document, and filtering a view again changes nothing. *)
Theorem filter_recursive_stricter_wins ex1 ex2 mex data :
  ex1 ⊆ ex2 ->
  _filter_recursive ex2 mex (_filter_recursive ex1 mex data)
  = _filter_recursive ex2 mex data
  /\ _filter_recursive ex1 mex (_filter_recursive ex2 mex data)
     = _filter_recursive ex2 mex data.
Proof.
  intros Hsub. split; [now apply filter_recursive_narrow|].
  apply filter_recursive_clean. intros k Hk.
  apply filter_recursive_keys in Hk as (_ & Hex & Hmeta).
  split; [|assumption]. intros Hk1. apply Hex, Hsub, Hk1.
Qed.

Lemma filter_recursive_stricter_wins_witness :
  filter_order_for_driver (filter_order_for_admin invoice_order)
  = filter_order_for_driver invoice_order
  /\ filter_order_for_admin (filter_order_for_client invoice_order)
     = filter_order_for_client invoice_order.
Proof.
  apply (filter_recursive_stricter_wins ADMIN_EXCLUDED_FIELDS
           COMMON_EXCLUDED_FIELDS META_EXCLUDED_FIELDS invoice_order).
  exact admin_fields_commonly_hidden.
Defined.

Lemma dict_get_filtered ex mex entries k :
  dict_get k (map (fun kv => (kv.1, _filter_recursive ex mex kv.2))
                (List.filter (fun kv => kept ex mex kv.1) entries))
  = if kept ex mex k
    then _filter_recursive ex mex <$> dict_get k entries
    else None.
Proof.
  induction entries as [|[k' v] r IHr].
  - cbn. now destruct (kept ex mex k).
  - cbn [List.filter fst snd dict_get].
    destruct (String.eqb k' k) eqn:Hk.
    + apply String.eqb_eq in Hk as ->.
      destruct (kept ex mex k) eqn:Hkept.
      * cbn [map dict_get fst snd]. now rewrite String.eqb_refl.
      * exact IHr.
    + destruct (kept ex mex k').
      * cbn [map dict_get fst snd]. rewrite Hk. exact IHr.
      * exact IHr.
Qed.

(** X8. The view of a dictionary is a dictionary in which a field that
    is not hidden is found with its own filtered value, and a hidden
    field is not found. *)
Theorem filter_recursive_field ex mex entries k :
  exists view,
    _filter_recursive ex mex (JDict entries) = JDict view
    /\ dict_get k view
       = if kept ex mex k
         then _filter_recursive ex mex <$> dict_get k entries
         else None.
Proof.
  eexists. split; [apply filter_recursive_dict | apply dict_get_filtered].
Qed.

Lemma known_role_filters order_data role :
  role ∈ roles -> exists view, filter_order_by_role order_data role = Returned view.
Proof.
  unfold roles. rewrite !elem_of_cons, elem_of_nil.
  intros [-> | [-> | [-> | []]]]; eexists; reflexivity.
Qed.

Lemma unknown_role_raises order_data role :
  role ∉ roles -> exists e, filter_order_by_role order_data role = Raised e.
Proof.
  unfold roles. rewrite !elem_of_cons, elem_of_nil. intros Hrole.
  unfold filter_order_by_role.
  destruct (String.eqb role "driver") eqn:Hd;
    [apply String.eqb_eq in Hd; tauto|].
  destruct (String.eqb role "client") eqn:Hc;
    [apply String.eqb_eq in Hc; tauto|].
  destruct (String.eqb role "admin") eqn:Ha;
    [apply String.eqb_eq in Ha; tauto|].
  eexists; reflexivity.
Qed.

Lemma detail_entries_raised role orders :
  Exists (fun order => exists e, detail_entry role order = Raised e) orders ->
  exists e, detail_entries role orders = Raised e.
Proof.
  induction orders as [|o r IHr]; intros Hex; [inversion Hex|].
  cbn [detail_entries]. destruct (detail_entry role o) as [entry|e] eqn:Ho;
    [| eexists; reflexivity].
  inversion Hex as [? ? (e & He) | ? ? Hr]; subst; [congruence|].
  destruct (IHr Hr) as (e & ->). eexists; reflexivity.
Qed.

Lemma find_in_requested store order_ids order :
  In order (find_in store order_ids) -> raw_id order ∈ order_ids.
Proof.
  unfold find_in. intros (_ & Hid)%List.filter_In.
  now apply bool_decide_eq_true in Hid.
Qed.

Lemma detail_entries_returned order_ids role orders :
  role ∈ roles ->
  Forall (fun order => is_Some (raw_order order) /\ raw_id order ∈ order_ids)
    orders ->
  exists entries,
    detail_entries role orders = Returned entries
    /\ Forall2 (detail_of order_ids role) orders entries.
Proof.
  intros Hrole. induction orders as [|o r IHr]; intros Hall.
  - exists []. split; [reflexivity | constructor].
  - inversion Hall as [|? ? [[payload Hp] Hid] Hr]; subst.
    destruct (IHr Hr) as (entries & Hentries & Hrest).
    destruct (known_role_filters payload role Hrole) as (view & Hview).
    eexists. cbn [detail_entries]. unfold detail_entry at 1.
    rewrite Hp, Hview, Hentries. split; [reflexivity|].
    constructor; [|exact Hrest]. split; [exact Hid|].
    exists payload, view. repeat split; assumption.
Qed.

(** X9. With the store reachable, a known role and every requested
    document carrying its ["order"] entry, [get_order_details] answers
    one detail per document found, in the order of the store: the id of
    the document, which is one of the requested ids, and the role view
    of its order. *)
Theorem get_order_details_views store order_ids role :
  reachable store = true ->
  role ∈ roles ->
  Forall (fun order => is_Some (raw_order order)) (find_in store order_ids) ->
  Forall2 (detail_of order_ids role)
    (find_in store order_ids) (get_order_details store order_ids role).
Proof.
  intros Hreach Hrole Hall. unfold get_order_details. rewrite Hreach.
  destruct (detail_entries_returned order_ids role (find_in store order_ids))
    as (entries & -> & Hentries); [assumption| |exact Hentries].
  apply List.Forall_forall. intros o Ho. split.
  - rewrite List.Forall_forall in Hall. now apply Hall.
  - now apply find_in_requested in Ho.
Qed.

Lemma get_order_details_views_witness :
  Forall2 (detail_of [100; 300] "client")
    (find_in invoice_store [100; 300])
    (get_order_details invoice_store [100; 300] "client").
Proof.
  apply (get_order_details_views invoice_store [100; 300] "client").
  - reflexivity.
  - unfold roles. rewrite !elem_of_cons. right. now left.
  - repeat constructor; eexists; reflexivity.
Defined.

(** X10. [get_order_details] answers all or nothing: with the store out
    of reach, with a role it does not know, or with one requested
    document lacking its ["order"] entry, the answer is the empty list,
    whatever the other documents hold. *)
Theorem get_order_details_all_or_nothing store order_ids role :
  reachable store = false
  \/ (role ∉ roles)
  \/ Exists (fun order => raw_order order = None) (find_in store order_ids) ->
  get_order_details store order_ids role = [].
Proof.
  unfold get_order_details. intros [-> | [Hrole | Hex]]; [reflexivity| |];
    destruct (reachable store); try reflexivity.
  - destruct (find_in store order_ids) as [|o r]; [reflexivity|].
    cbn [detail_entries]. unfold detail_entry.
    destruct (raw_order o) as [payload|]; [|reflexivity].
    destruct (unknown_role_raises payload role Hrole) as (e & ->).
    reflexivity.
  - destruct (detail_entries_raised role (find_in store order_ids)) as (e & ->);
      [|reflexivity].
    eapply List.Exists_impl; [|exact Hex]. intros o Ho. unfold detail_entry.
    rewrite Ho. eexists; reflexivity.
Qed.

Lemma get_order_details_all_or_nothing_witness :
  get_order_details half_written_store [100; 200] "admin" = [].
Proof.
  apply get_order_details_all_or_nothing. right. right.
  apply Exists_cons_tl, Exists_cons_hd. reflexivity.
Defined.

Lemma remove_null_fields_not_null data :
  data <> JNull -> remove_null_fields data <> JNull.
Proof. destruct data; cbn; congruence. Qed.

Lemma remove_null_fields_list_cons x r r' :
  x <> JNull ->
  remove_null_fields (JList r) = JList r' ->
  remove_null_fields (JList (x :: r)) = JList (remove_null_fields x :: r').
Proof.
  intros Hx Hr. cbn [remove_null_fields] in Hr. injection Hr as Hr.
  destruct x; try congruence; cbn [remove_null_fields]; now rewrite Hr.
Qed.

Lemma remove_null_fields_dict_cons k x r r' :
  x <> JNull ->
  remove_null_fields (JDict r) = JDict r' ->
  remove_null_fields (JDict ((k, x) :: r))
  = JDict ((k, remove_null_fields x) :: r').
Proof.
  intros Hx Hr. cbn [remove_null_fields] in Hr. injection Hr as Hr.
  destruct x; try congruence; cbn [remove_null_fields]; now rewrite Hr.
Qed.

Lemma null_free_list_cons x r :
  x <> JNull ->
  null_free (JList (x :: r)) = null_free x && null_free (JList r).
Proof. intros Hx. destruct x; try congruence; reflexivity. Qed.

Lemma null_free_dict_cons k x r :
  x <> JNull ->
  null_free (JDict ((k, x) :: r)) = null_free x && null_free (JDict r).
Proof. intros Hx. destruct x; try congruence; reflexivity. Qed.

Lemma is_null_dec (x : json) : {x = JNull} + {x <> JNull}.
Proof. destruct x; (now left) || (right; discriminate). Qed.

Lemma remove_null_fields_clean data :
  null_free data = true -> remove_null_fields data = data.
Proof.
  induction data as [ | | | | items IH | entries IH ]
    using json_induction; intros Hfree; try reflexivity.
  - induction items as [|x r IHr]; [reflexivity|].
    inversion IH as [|? ? Hx Hr]; subst.
    destruct (is_null_dec x) as [-> | Hnn]; [discriminate Hfree|].
    rewrite (null_free_list_cons _ _ Hnn) in Hfree.
    apply andb_true_iff in Hfree as [Hfx Hfr].
    rewrite (remove_null_fields_list_cons x r r Hnn (IHr Hr Hfr)).
    now rewrite Hx.
  - induction entries as [|[k x] r IHr]; [reflexivity|].
    inversion IH as [|? ? Hx Hr]; subst. cbn [snd] in Hx.
    destruct (is_null_dec x) as [-> | Hnn]; [discriminate Hfree|].
    rewrite (null_free_dict_cons _ _ _ Hnn) in Hfree.
    apply andb_true_iff in Hfree as [Hfx Hfr].
    rewrite (remove_null_fields_dict_cons k x r r Hnn (IHr Hr Hfr)).
    now rewrite Hx.
Qed.

Lemma remove_null_fields_null_free data :
  null_free (remove_null_fields data) = true.
Proof.
  induction data as [ | | | | items IH | entries IH ]
    using json_induction; try reflexivity.
  - assert (exists r', remove_null_fields (JList items) = JList r'
                       /\ null_free (JList r') = true) as (r' & -> & Hr');
      [|exact Hr'].
    induction items as [|x r IHr]; [exists []; split; reflexivity|].
    inversion IH as [|? ? Hx Hr]; subst.
    destruct (IHr Hr) as (r' & Hrr & Hfree).
    destruct (is_null_dec x) as [-> | Hnn]; [exists r'; split; assumption|].
    exists (remove_null_fields x :: r'). split.
    + now apply remove_null_fields_list_cons.
    + rewrite null_free_list_cons by now apply remove_null_fields_not_null.
      now rewrite Hx, Hfree.
  - assert (exists r', remove_null_fields (JDict entries) = JDict r'
                       /\ null_free (JDict r') = true) as (r' & -> & Hr');
      [|exact Hr'].
    induction entries as [|[k x] r IHr]; [exists []; split; reflexivity|].
    inversion IH as [|? ? Hx Hr]; subst. cbn [snd] in Hx.
    destruct (IHr Hr) as (r' & Hrr & Hfree).
    destruct (is_null_dec x) as [-> | Hnn]; [exists r'; split; assumption|].
    exists ((k, remove_null_fields x) :: r'). split.
    + now apply remove_null_fields_dict_cons.
    + rewrite null_free_dict_cons by now apply remove_null_fields_not_null.
      now rewrite Hx, Hfree.
Qed.

(** X11. After [remove_null_fields] no dictionary value and no list
    item is [None], at any depth, and a second pass changes nothing. *)
Theorem remove_null_fields_leaves_no_null data :
  null_free (remove_null_fields data) = true
  /\ remove_null_fields (remove_null_fields data) = remove_null_fields data.
Proof.
  split; [apply remove_null_fields_null_free|].
  apply remove_null_fields_clean, remove_null_fields_null_free.
Qed.

(** X12. [remove_null_fields] removes nothing but [None]: data without
    a [None] member comes back as it is, its empty strings, zeros,
    [False] values and empty containers included. *)
Theorem remove_null_fields_keeps_the_rest data :
  null_free data = true -> remove_null_fields data = data.
Proof. apply remove_null_fields_clean. Qed.

Lemma remove_null_fields_keeps_the_rest_witness :
  remove_null_fields
    (JDict [("note"%string, JStr ""); ("axles"%string, JInt 0);
            ("escort"%string, JBool false); ("stops"%string, JList [])])
  = JDict [("note"%string, JStr ""); ("axles"%string, JInt 0);
           ("escort"%string, JBool false); ("stops"%string, JList [])].
Proof.
  apply remove_null_fields_keeps_the_rest. reflexivity.
Defined.

Lemma not_deleted_spec route :
  not_deleted route
  = if is_dict route then Returned (negb (deleted route))
    else Raised AttributeError.
Proof.
  destruct route as [ | | | | |entries]; try reflexivity.
  cbn [not_deleted is_dict deleted].
  destruct (dict_get "permit_status" entries) as [[]|]; reflexivity.
Qed.

Lemma remove_deleted_permits_dicts routes :
  forallb is_dict routes = true ->
  remove_deleted_permits routes
  = Returned (List.filter (fun route => negb (deleted route)) routes).
Proof.
  induction routes as [|x r IHr]; [reflexivity|].
  cbn [forallb]. intros [Hx Hr]%andb_true_iff.
  cbn [remove_deleted_permits List.filter].
  rewrite not_deleted_spec, Hx, (IHr Hr). reflexivity.
Qed.

Lemma remove_deleted_permits_raises routes :
  forallb is_dict routes = false ->
  remove_deleted_permits routes = Raised AttributeError.
Proof.
  induction routes as [|x r IHr]; [discriminate|].
  cbn [forallb remove_deleted_permits]. rewrite not_deleted_spec.
  destruct (is_dict x); [|reflexivity]. cbn [andb]. intros Hr.
  now rewrite (IHr Hr).
Qed.

(** X13. On a list of route dictionaries [remove_deleted_permits]
    returns, in their order, the routes whose permit status is not the
    string ["Delete"], a route without a status among them, and
    a second pass returns the same list; a route that is no dictionary
    makes it raise [AttributeError]. *)
Theorem remove_deleted_permits_outcome routes :
  match remove_deleted_permits routes with
  | Returned live =>
      forallb is_dict routes = true
      /\ live = List.filter (fun route => negb (deleted route)) routes
      /\ remove_deleted_permits live = Returned live
  | Raised e => e = AttributeError /\ forallb is_dict routes = false
  end.
Proof.
  destruct (forallb is_dict routes) eqn:Hdicts.
  - rewrite (remove_deleted_permits_dicts _ Hdicts).
    split; [reflexivity | split; [reflexivity|]].
    rewrite remove_deleted_permits_dicts.
    + f_equal. induction routes as [|x r IHr]; [reflexivity|].
      cbn [forallb] in Hdicts. apply andb_true_iff in Hdicts as [_ Hr].
      cbn [List.filter]. destruct (negb (deleted x)) eqn:Hx.
      * cbn [List.filter]. rewrite Hx. f_equal. now apply IHr.
      * now apply IHr.
    + apply forallb_forall. intros x (Hx & _)%List.filter_In.
      rewrite forallb_forall in Hdicts. now apply Hdicts.
  - rewrite (remove_deleted_permits_raises _ Hdicts). now split.
Qed.

End Documents.

(** * The queue and its delivery *)

Section Stable.
Context `{DatetimeLib}.

(** A property of the monitor that the creation of an alert satisfying
    [Q] preserves, as does the assignment of the attributes a check
    assigns, is preserved by the check if its alerts satisfy [Q]. *)
Variable I : State -> Prop.
Variable Q : ProactiveAlert -> Prop.
Hypothesis I_emit : forall a s, Q a -> I s -> I (emit a s).
Hypothesis I_statuses : forall v s, I s -> I (set_last_order_statuses v s).
Hypothesis I_ids : forall v s, I s -> I (set_last_order_ids v s).
Hypothesis I_permits : forall v s, I s -> I (set_warned_permits v s).
Hypothesis I_deadlines : forall v s, I s -> I (set_warned_deadlines v s).
Hypothesis I_keys : forall v s, I s -> I (set_delivered_keys v s).
Hypothesis Q_status :
  forall now oid previous current, Q (status_alert now oid previous current).
Hypothesis Q_new_order : forall now oid, Q (new_order_alert now oid).
Hypothesis Q_permit_expired :
  forall now oid name days, Q (permit_expired_alert now oid name days).
Hypothesis Q_permit_expiring :
  forall now oid name days, Q (permit_expiring_alert now oid name days).
Hypothesis Q_permit_issue :
  forall now oid name status, Q (permit_issue_alert now oid name status).
Hypothesis Q_approaching :
  forall now oid deadline hours,
    Q (deadline_approaching_alert now oid deadline hours).
Hypothesis Q_overdue :
  forall now oid deadline status,
    Q (deadline_overdue_alert now oid deadline status).
Hypothesis Q_weather :
  forall now oid city info, Q (weather_alert now oid city info).

Ltac stable_step :=
  first [ assumption
        | apply I_statuses | apply I_ids | apply I_permits
        | apply I_deadlines | apply I_keys
        | apply I_emit;
          [ first [ apply Q_status | apply Q_new_order
                  | apply Q_permit_expired | apply Q_permit_expiring
                  | apply Q_permit_issue | apply Q_approaching
                  | apply Q_overdue | apply Q_weather ] | ] ].

Lemma stable_take_initial_snapshot db st :
  I st -> I (_take_initial_snapshot db st).
Proof.
  intros Hst. unfold _take_initial_snapshot. case_match; [| now stable_step].
  apply fold_left_invariant; [| now stable_step].
  intros s oid Hs. unfold snapshot_step. case_match; now repeat stable_step.
Qed.

Lemma stable_check_order_status_changes db now st :
  I st -> I (_check_order_status_changes db now st).
Proof.
  intros Hst. unfold _check_order_status_changes. case_match; [| exact Hst].
  apply fold_left_invariant; [| exact Hst].
  intros s oid Hs. unfold status_step. repeat case_match; now repeat stable_step.
Qed.

Lemma stable_check_new_order_assignments db now st :
  I st -> I (_check_new_order_assignments db now st).
Proof.
  intros Hst. unfold _check_new_order_assignments. apply I_ids.
  apply fold_left_invariant; [| exact Hst].
  intros s oid Hs. now stable_step.
Qed.

Lemma stable_permit_step now oid st entry :
  I st -> I (permit_step now oid st entry).
Proof.
  intros Hst. unfold permit_step. case_match; [exact Hst |].
  assert (Hexp : I (expiry_step now oid (default "Unknown"%string
                                           (product_name entry))
                      (attached_at entry) st)).
  { unfold expiry_step, add_warned_permit.
    repeat case_match; now repeat stable_step. }
  unfold issue_step, add_warned_permit.
  repeat case_match; now repeat stable_step.
Qed.

Lemma stable_check_permit_expirations db now st :
  I st -> I (_check_permit_expirations db now st).
Proof.
  intros Hst. unfold _check_permit_expirations. case_match; [| exact Hst].
  apply fold_left_invariant; [| exact Hst].
  intros s oid Hs. unfold permit_order_step. repeat case_match; try exact Hs.
  apply fold_left_invariant; [| exact Hs].
  intros; now apply stable_permit_step.
Qed.

Lemma stable_deadline_scan now oid doc fields st :
  I st -> I (deadline_scan now oid doc fields st).
Proof.
  intros Hst. induction fields as [|f fields IH]; [exact Hst |].
  cbn [deadline_scan].
  destruct (deadline_field now oid doc st f) as [a|] eqn:Hf; [| exact IH].
  unfold add_warned_deadline. apply I_deadlines, I_emit; [| exact Hst].
  unfold deadline_field in Hf.
  repeat case_match; try discriminate; injection Hf as <-;
    [apply Q_approaching | apply Q_overdue].
Qed.

Lemma stable_check_delivery_deadlines db now st :
  I st -> I (_check_delivery_deadlines db now st).
Proof.
  intros Hst. unfold _check_delivery_deadlines. case_match; [| exact Hst].
  apply fold_left_invariant; [| exact Hst].
  intros s oid Hs. unfold deadline_order_step. repeat case_match; try exact Hs.
  now apply stable_deadline_scan.
Qed.

Lemma stable_check_route_weather db w now st :
  I st -> I (_check_route_weather db w now st).
Proof.
  intros Hst. unfold _check_route_weather. case_match; [| exact Hst].
  apply fold_left_invariant; [| exact Hst].
  intros s oid Hs. unfold weather_order_step. repeat case_match; try exact Hs.
  apply fold_left_invariant; [| exact Hs].
  intros s' city Hs'. unfold weather_city_step, add_delivered_key.
  repeat case_match; now repeat stable_step.
Qed.

End Stable.

Section Queue.
Context `{DatetimeLib}.

Lemma queue_emit a st :
  (alert_queue st < length (lists st))%nat ->
  alert_queue (emit a st) = alert_queue st
  /\ length (lists (emit a st)) = length (lists st)
  /\ (queue (emit a st) = queue st
      \/ queue (emit a st) = queue st ++ [length (alerts st)]).
Proof.
  intros Hq. unfold emit, new_alert, _enqueue_alert.
  cbn [alerts set_alerts _delivered_keys].
  rewrite list_lookup_middle by reflexivity.
  destruct (bool_decide _).
  - repeat split. now left.
  - unfold queue. cbn [lists alert_queue set_lists set_alerts].
    rewrite length_insert, list_lookup_insert_eq by exact Hq.
    repeat split. now right.
Qed.

Lemma well_formed_emit a st : well_formed st -> well_formed (emit a st).
Proof.
  intros (Hq & Hnd & Hall).
  destruct (queue_emit a st Hq) as (Haq & Hlen & Hqueue).
  unfold well_formed. rewrite Haq, Hlen, emit_alerts, length_app. cbn [length].
  split; [exact Hq |].
  assert (Hall' : Forall (fun l => (l < length (alerts st) + 1)%nat) (queue st)).
  { eapply List.Forall_impl; [| exact Hall]. cbn. lia. }
  destruct Hqueue as [-> | ->]; [now split |]. split.
  - apply NoDup_app. split; [exact Hnd |]. split; [| apply NoDup_singleton].
    intros l Hl Hl'. apply elem_of_cons in Hl' as [-> | Hl'];
      [| now apply elem_of_nil in Hl'].
    rewrite List.Forall_forall in Hall.
    apply list_elem_of_In, Hall in Hl. lia.
  - apply Forall_app. split; [exact Hall' |]. constructor; [lia | constructor].
Qed.

Lemma well_formed_attr s s' :
  well_formed s -> alerts s' = alerts s -> lists s' = lists s ->
  alert_queue s' = alert_queue s -> well_formed s'.
Proof.
  unfold well_formed, queue. now intros Hs -> -> ->.
Qed.

Lemma queue_get_pending_alerts st :
  (alert_queue st < length (lists st))%nat ->
  queue (snd (get_pending_alerts st)) = queue st.
Proof.
  intros Hq. rewrite get_pending_alerts_unfold. unfold queue.
  cbn [snd lists alert_queue set_lists]. now rewrite lookup_app_l.
Qed.

Ltac by_well_formed :=
  first [ assumption
        | exact (fun _ => I)
        | intros; exact I
        | intros; now apply well_formed_emit
        | intros v s Hs; now apply (well_formed_attr s) ].

Lemma well_formed_get_pending_alerts st :
  well_formed st -> well_formed (snd (get_pending_alerts st)).
Proof.
  intros (Hq & Hnd & Hall). unfold well_formed.
  rewrite (queue_get_pending_alerts st Hq).
  rewrite get_pending_alerts_unfold.
  cbn [snd lists alerts alert_queue set_lists]. rewrite length_app.
  repeat split; [lia | exact Hnd | exact Hall].
Qed.

Lemma mark_delivered_shape alert st :
  lists (mark_delivered alert st) = lists st
  /\ alert_queue (mark_delivered alert st) = alert_queue st
  /\ length (alerts (mark_delivered alert st)) = length (alerts st).
Proof.
  unfold mark_delivered. case_match; [| now repeat split].
  cbn [lists alert_queue alerts set_alerts set_delivered_keys].
  now rewrite length_insert.
Qed.

Lemma well_formed_mark_delivered alert st :
  well_formed st -> well_formed (mark_delivered alert st).
Proof.
  destruct (mark_delivered_shape alert st) as (Hl & Hq & Hlen).
  unfold well_formed, queue. now rewrite Hl, Hq, Hlen.
Qed.

Lemma queue_clear_old_alerts now hours st :
  queue (clear_old_alerts now hours st)
  = List.filter
      (fun a => match alerts st !! a with
                | Some al => negb (delivered al)
                             || (now - hours * us_per_hour <? created_at al)
                | None => true
                end) (queue st).
Proof.
  unfold clear_old_alerts, new_list, queue.
  cbn [lists alert_queue set_lists set_alert_queue].
  now rewrite list_lookup_middle by reflexivity.
Qed.

Lemma well_formed_clear_old_alerts now hours st :
  well_formed st -> well_formed (clear_old_alerts now hours st).
Proof.
  intros (Hq & Hnd & Hall). unfold well_formed.
  rewrite queue_clear_old_alerts.
  unfold clear_old_alerts, new_list.
  cbn [lists alerts alert_queue set_lists set_alert_queue].
  rewrite length_app. cbn [length]. split; [lia |]. split.
  - now apply NoDup_ListNoDup, List.NoDup_filter, NoDup_ListNoDup.
  - apply List.Forall_forall. intros l (Hl & _)%List.filter_In.
    rewrite List.Forall_forall in Hall. now apply Hall.
Qed.

Lemma well_formed_run_op st o : well_formed st -> well_formed (run_op st o).
Proof.
  intros Hst. destruct o; cbn [run_op].
  - unfold start. case_match; [exact Hst |].
    now apply (well_formed_attr st).
  - now apply (well_formed_attr st).
  - now apply well_formed_get_pending_alerts.
  - now apply well_formed_mark_delivered.
  - now apply well_formed_clear_old_alerts.
  - apply (stable_take_initial_snapshot well_formed); by_well_formed.
  - apply (stable_check_order_status_changes well_formed (fun _ => True)); by_well_formed.
  - apply (stable_check_new_order_assignments well_formed (fun _ => True)); by_well_formed.
  - apply (stable_check_permit_expirations well_formed (fun _ => True)); by_well_formed.
  - apply (stable_check_delivery_deadlines well_formed (fun _ => True)); by_well_formed.
  - apply (stable_check_route_weather well_formed (fun _ => True)); by_well_formed.
Qed.

Lemma well_formed_run ops st : well_formed st -> well_formed (run ops st).
Proof.
  unfold run. apply fold_left_invariant. intros s o. apply well_formed_run_op.
Qed.

Lemma well_formed_init role email poll weather days hours :
  well_formed (init role email poll weather days hours).
Proof.
  unfold well_formed, queue. cbn. repeat split; [lia | constructor | constructor].
Qed.

(** X14. Throughout a session, that is after any sequence of operations
    on a newly made monitor, the queue attribute refers to a list that
    exists, no alert is queued twice, and every queued alert exists. *)
Theorem session_queue_well_formed
    (role email : string) (poll weather days hours : Z) (ops : list op) :
  let st := run ops (init role email poll weather days hours) in
  (alert_queue st < length (lists st))%nat
  /\ NoDup (queue st)
  /\ (forall l, l ∈ queue st -> is_Some (alerts st !! l)).
Proof.
  cbn zeta.
  destruct (well_formed_run ops _
              (well_formed_init role email poll weather days hours))
    as (Hq & Hnd & Hall).
  split; [exact Hq |]. split; [exact Hnd |].
  intros l Hl. apply lookup_lt_is_Some.
  rewrite List.Forall_forall in Hall. now apply Hall, list_elem_of_In.
Qed.

End Queue.

Section Delivering.
Context `{DatetimeLib}.

Lemma pending_items st :
  lists (snd (get_pending_alerts st)) !! fst (get_pending_alerts st)
  = Some (sort (alert_lt st) (undelivered st)).
Proof.
  rewrite get_pending_alerts_unfold. cbn [fst snd lists set_lists].
  now rewrite list_lookup_middle.
Qed.

Lemma get_pending_alerts_alerts st :
  alerts (snd (get_pending_alerts st)) = alerts st.
Proof. now rewrite get_pending_alerts_unfold. Qed.

Lemma get_pending_alerts_keys st :
  _delivered_keys (snd (get_pending_alerts st)) = _delivered_keys st.
Proof. now rewrite get_pending_alerts_unfold. Qed.

Lemma is_delivered_alerts st st' l :
  alerts st' = alerts st -> is_delivered st' l = is_delivered st l.
Proof. unfold is_delivered. now intros ->. Qed.

Lemma undelivered_spec st l :
  In l (undelivered st) <-> In l (queue st) /\ is_delivered st l = false.
Proof.
  unfold undelivered. rewrite List.filter_In, negb_true_iff. reflexivity.
Qed.

Lemma has_alerts_undelivered st :
  has_alerts st = true <-> undelivered st <> [].
Proof.
  unfold has_alerts, undelivered.
  induction (queue st) as [|a q IH]; cbn [existsb List.filter].
  - split; [discriminate | congruence].
  - destruct (negb (is_delivered st a)); cbn [orb]; [| exact IH].
    split; [discriminate | reflexivity].
Qed.

Lemma generate_proactive_summary_unfold llm st :
  generate_proactive_summary llm st
  = let st1 := snd (get_pending_alerts st) in
    match sort (alert_lt st) (undelivered st) with
    | [] => (None, st1)
    | top :: rest =>
        match llm (summary_messages st1 (top :: rest)) 200 with
        | ChatReturns (Some summary) =>
            (if truthy_str summary then Some (strip summary) else None, st1)
        | ChatReturns None => (None, st1)
        | ChatRaises => (Some (message_of st1 top), st1)
        end
    end.
Proof.
  unfold generate_proactive_summary. pose proof (pending_items st) as Hp.
  destruct (get_pending_alerts st) as [pending st1]. cbn [fst snd] in *.
  rewrite Hp.
  change (default [] (Some (sort (alert_lt st) (undelivered st))))
    with (sort (alert_lt st) (undelivered st)).
  now destruct (sort (alert_lt st) (undelivered st)).
Qed.

Lemma generate_proactive_summary_state llm st :
  snd (generate_proactive_summary llm st) = snd (get_pending_alerts st).
Proof.
  rewrite generate_proactive_summary_unfold. cbn zeta.
  repeat case_match; reflexivity.
Qed.

Lemma sorted_head_least {A} (le : A -> A -> Prop) (top : A) (rest xs : list A) :
  le top top ->
  StronglySorted le (top :: rest) ->
  Permutation (top :: rest) xs ->
  forall x, In x xs -> le top x.
Proof.
  intros Hrefl Hsorted Hperm x Hx.
  apply (Permutation_in _ (Permutation_sym Hperm)) in Hx.
  apply StronglySorted_inv in Hsorted as [_ Hall].
  destruct Hx as [<- | Hx]; [exact Hrefl |].
  rewrite List.Forall_forall in Hall. now apply Hall.
Qed.

Lemma filter_head_split {A} (f : A -> bool) (xs : list A) top r :
  List.filter f xs = top :: r ->
  exists before after,
    xs = before ++ top :: after /\ Forall (fun x => f x = false) before.
Proof.
  induction xs as [|x xs IH]; cbn [List.filter]; [discriminate |].
  destruct (f x) eqn:Hx.
  - intros [= -> _]. exists [], xs. split; [reflexivity | constructor].
  - intros Hf. destruct (IH Hf) as (before & after & -> & Hall).
    exists (x :: before), after. split; [reflexivity | now constructor].
Qed.

(** X15. When the language model fails while alerts are pending, the
    summary is the message of one pending alert: none of the pending
    alerts is more urgent, and the pending alerts queued before it are
    all less urgent. *)
Theorem generate_proactive_summary_fallback (llm : Llm) (st : State) :
  well_formed st ->
  has_alerts st = true ->
  (forall messages max_tokens, llm messages max_tokens = ChatRaises) ->
  exists top al before after,
    fst (generate_proactive_summary llm st) = Some (message al)
    /\ alerts st !! top = Some al
    /\ delivered al = false
    /\ undelivered st = before ++ top :: after
    /\ Forall (fun l => priority_of st top < priority_of st l) before
    /\ Forall (fun l => priority_of st top <= priority_of st l) after.
Proof.
  intros (_ & _ & Hvalid) Hhas Hllm.
  apply has_alerts_undelivered in Hhas.
  rewrite generate_proactive_summary_unfold. cbn zeta.
  pose proof (sort_perm (priority_of st) (undelivered st)) as Hperm.
  pose proof (sort_sorted (priority_of st) (undelivered st)) as Hsorted.
  pose proof (sort_stable (priority_of st)) as Hstable.
  change (fun a b => priority_of st a <? priority_of st b)
    with (alert_lt st) in Hperm, Hsorted, Hstable.
  destruct (sort (alert_lt st) (undelivered st)) as [|top rest] eqn:Hsort.
  { apply Permutation_nil in Hperm. contradiction. }
  rewrite Hllm. cbn [fst].
  assert (Hleast : forall l, In l (undelivered st) ->
                     priority_of st top <= priority_of st l).
  { apply (sorted_head_least
             (fun a b => priority_of st a <= priority_of st b) top rest);
      [lia | exact Hsorted | exact Hperm]. }
  assert (Htop : In top (undelivered st)).
  { apply (Permutation_in _ Hperm). now left. }
  apply undelivered_spec in Htop as [Hqueue Hundelivered].
  rewrite List.Forall_forall in Hvalid.
  destruct (lookup_lt_is_Some_2 _ _ (Hvalid top Hqueue)) as [al Hal].
  specialize (Hstable (priority_of st top) (undelivered st)).
  rewrite Hsort in Hstable. cbn [List.filter] in Hstable.
  rewrite Z.eqb_refl in Hstable. symmetry in Hstable.
  destruct (filter_head_split _ _ _ _ Hstable)
    as (before & after & Hsplit & Hbefore).
  exists top, al, before, after.
  unfold message_of, loc in *. rewrite get_pending_alerts_alerts, Hal.
  split; [reflexivity |]. split; [reflexivity |]. split.
  { unfold is_delivered, loc in Hundelivered. now rewrite Hal in Hundelivered. }
  split; [exact Hsplit |]. split.
  - apply List.Forall_forall. intros l Hl.
    rewrite List.Forall_forall in Hbefore. specialize (Hbefore l Hl).
    apply Z.eqb_neq in Hbefore.
    assert (priority_of st top <= priority_of st l); [| lia].
    apply Hleast. rewrite Hsplit. apply List.in_or_app. now left.
  - apply List.Forall_forall. intros l Hl. apply Hleast. rewrite Hsplit.
    apply List.in_or_app. right. now right.
Qed.

Lemma mark_delivered_keeps_delivered a st l :
  is_delivered st l = true -> is_delivered (mark_delivered a st) l = true.
Proof.
  unfold mark_delivered. destruct (alerts st !! a) as [al|] eqn:Ha; [| auto].
  unfold is_delivered. cbn [alerts set_alerts set_delivered_keys].
  destruct (decide (l = a)) as [-> | Hne].
  - rewrite list_lookup_insert_eq by (eapply lookup_lt_Some; exact Ha).
    reflexivity.
  - now rewrite list_lookup_insert_ne by congruence.
Qed.

Lemma recorded_delivered st l : recorded st l -> is_delivered st l = true.
Proof. intros (al & Hal & Hd & _). unfold is_delivered. now rewrite Hal. Qed.

Lemma mark_delivered_records a st :
  (a < length (alerts st))%nat -> recorded (mark_delivered a st) a.
Proof.
  intros Ha. destruct (lookup_lt_is_Some_2 _ _ Ha) as [al Hal].
  unfold mark_delivered, loc in *. rewrite Hal. exists (with_delivered true al).
  cbn [alerts _delivered_keys set_alerts set_delivered_keys].
  rewrite list_lookup_insert_eq by exact Ha.
  split; [reflexivity |]. split; [reflexivity |].
  apply elem_of_union. left. now apply elem_of_singleton.
Qed.

Lemma mark_delivered_keeps_recorded a st l :
  recorded st l -> recorded (mark_delivered a st) l.
Proof.
  intros (al & Hal & Hd & Hkey).
  destruct (decide (l = a)) as [-> | Hne].
  - apply mark_delivered_records. eapply lookup_lt_Some; exact Hal.
  - unfold mark_delivered. destruct (alerts st !! a) as [al0|] eqn:Ha;
      [| exists al; now repeat split].
    exists al. cbn [alerts _delivered_keys set_alerts set_delivered_keys].
    rewrite list_lookup_insert_ne by congruence.
    split; [exact Hal |]. split; [exact Hd |].
    apply elem_of_union. now right.
Qed.

Lemma mark_all_shape items st :
  let st' := fold_left (fun s a => mark_delivered a s) items st in
  lists st' = lists st
  /\ alert_queue st' = alert_queue st
  /\ length (alerts st') = length (alerts st).
Proof.
  cbn zeta. revert st. induction items as [|a items IH]; intros st;
    [now repeat split |].
  cbn [fold_left]. destruct (IH (mark_delivered a st)) as (-> & -> & ->).
  apply mark_delivered_shape.
Qed.

Lemma mark_all_keeps_delivered items st l :
  is_delivered st l = true ->
  is_delivered (fold_left (fun s a => mark_delivered a s) items st) l = true.
Proof.
  revert st. induction items as [|a items IH]; intros st Hl; [exact Hl |].
  cbn [fold_left]. now apply IH, mark_delivered_keeps_delivered.
Qed.

Lemma mark_all_keeps_recorded items st l :
  recorded st l ->
  recorded (fold_left (fun s a => mark_delivered a s) items st) l.
Proof.
  revert st. induction items as [|a items IH]; intros st Hl; [exact Hl |].
  cbn [fold_left]. now apply IH, mark_delivered_keeps_recorded.
Qed.

Lemma mark_all_records items st l :
  In l items -> (l < length (alerts st))%nat ->
  recorded (fold_left (fun s a => mark_delivered a s) items st) l.
Proof.
  revert st. induction items as [|a items IH]; intros st Hin Hl; [destruct Hin |].
  cbn [fold_left]. destruct (decide (l = a)) as [-> | Hne].
  - now apply mark_all_keeps_recorded, mark_delivered_records.
  - destruct Hin as [-> | Hin]; [congruence |].
    apply IH; [exact Hin |].
    now destruct (mark_delivered_shape a st) as (_ & _ & ->).
Qed.

Lemma existsb_none {A} (f : A -> bool) (l : list A) :
  (forall x, In x l -> f x = false) -> existsb f l = false.
Proof.
  intros Hall. induction l as [|x l IH]; [reflexivity |]. cbn [existsb].
  rewrite (Hall x) by now left. apply IH. intros y Hy. apply Hall. now right.
Qed.

Lemma mark_pending_delivered_spec st :
  well_formed st ->
  let st' := mark_pending_delivered st in
  queue st' = queue st
  /\ length (alerts st') = length (alerts st)
  /\ has_alerts st' = false
  /\ (forall l, In l (queue st) -> is_delivered st' l = true)
  /\ (forall l, In l (undelivered st) -> recorded st' l).
Proof.
  intros (Hq & Hnd & Hvalid). cbn zeta. unfold mark_pending_delivered.
  pose proof (pending_items st) as Hitems.
  pose proof (get_pending_alerts_alerts st) as Halerts.
  pose proof (queue_get_pending_alerts st Hq) as Hqueue.
  destruct (get_pending_alerts st) as [pending st1]. cbn [fst snd] in *.
  rewrite Hitems.
  change (default [] (Some (sort (alert_lt st) (undelivered st))))
    with (sort (alert_lt st) (undelivered st)).
  set (items := sort (alert_lt st) (undelivered st)).
  set (st' := fold_left (fun s alert => mark_delivered alert s) items st1).
  destruct (mark_all_shape items st1) as (Hl' & Hq' & Hlen'). fold st' in Hl', Hq', Hlen'.
  assert (Hqueue' : queue st' = queue st)
    by (unfold queue in *; now rewrite Hl', Hq').
  assert (Hrec : forall l, In l (undelivered st) -> recorded st' l).
  { intros l Hl. apply mark_all_records.
    - apply (Permutation_in _ (Permutation_sym
                                 (sort_perm (priority_of st) (undelivered st)))).
      exact Hl.
    - rewrite Halerts. apply undelivered_spec in Hl as [Hl _].
      rewrite List.Forall_forall in Hvalid. now apply Hvalid. }
  assert (Hdel : forall l, In l (queue st) -> is_delivered st' l = true).
  { intros l Hl. destruct (is_delivered st l) eqn:Hd.
    - apply mark_all_keeps_delivered.
      now rewrite (is_delivered_alerts st st1 l Halerts).
    - apply recorded_delivered, Hrec, undelivered_spec. now split. }
  split; [exact Hqueue' |]. split; [rewrite <- Halerts; exact Hlen' |].
  split; [| split; [exact Hdel | exact Hrec]].
  unfold has_alerts. rewrite Hqueue'. apply existsb_none.
  intros l Hl. now rewrite (Hdel l Hl).
Qed.

(** X16. When the assistant speaks a summary, every alert that is
    pending once the speech is over is marked delivered and its key
    recorded, whether the summary mentioned it or not: the alerts
    beyond the fifth, those left out by the fallback message, and those
    queued while the summary was spoken.  Nothing is pending
    afterwards. *)
Theorem deliver_proactive_alerts_marks_all
    (llm : Llm) (during_speech : list op) (force : bool) (st : State)
    (text : string) :
  well_formed st ->
  has_alerts st = true ->
  fst (generate_proactive_summary llm st) = Some text ->
  truthy_str text = true ->
  let spoken := run during_speech (snd (generate_proactive_summary llm st)) in
  exists st',
    _deliver_proactive_alerts llm during_speech force (Some st)
    = ([Speak text; Save "Proactive notification" text], Some st')
    /\ queue st' = queue spoken
    /\ has_alerts st' = false
    /\ (forall l, In l (queue spoken) -> is_delivered st' l = true)
    /\ (forall l, In l (undelivered spoken) -> recorded st' l).
Proof.
  intros Hwf Hhas Hsummary Htruthy. cbn zeta.
  assert (Hwf' : well_formed
                   (run during_speech (snd (generate_proactive_summary llm st)))).
  { apply well_formed_run. rewrite generate_proactive_summary_state.
    now apply well_formed_get_pending_alerts. }
  destruct (mark_pending_delivered_spec _ Hwf') as (Hq & _ & Hnone & Hdel & Hrec).
  eexists. split; [| split; [exact Hq | split; [exact Hnone | now split]]].
  unfold _deliver_proactive_alerts. rewrite Hhas. cbn [negb].
  destruct (generate_proactive_summary llm st) as [summary st1].
  cbn [fst snd] in *. subst summary. now rewrite Htruthy.
Qed.

(** X17. When the language model answers with nothing, or with blanks
    only, the pending alerts stay as they are, to be offered again; and
    a user who asked for updates is told that there are none. *)
Theorem deliver_proactive_alerts_without_summary
    (llm : Llm) (during_speech : list op) (force : bool) (st : State)
    (reply : option string) :
  well_formed st ->
  has_alerts st = true ->
  (forall messages max_tokens, llm messages max_tokens = ChatReturns reply) ->
  match reply with Some summary => strip summary = ""%string | None => True end ->
  exists st',
    _deliver_proactive_alerts llm during_speech force (Some st)
    = (if force then [Speak "No new updates or alerts at the moment."] else [],
       Some st')
    /\ alerts st' = alerts st
    /\ queue st' = queue st
    /\ _delivered_keys st' = _delivered_keys st
    /\ undelivered st' = undelivered st
    /\ has_alerts st' = true.
Proof.
  intros (Hq & _ & _) Hhas Hllm Hblank.
  exists (snd (get_pending_alerts st)).
  pose proof (get_pending_alerts_alerts st) as Halerts.
  pose proof (queue_get_pending_alerts st Hq) as Hqueue.
  assert (Hund : undelivered (snd (get_pending_alerts st)) = undelivered st).
  { unfold undelivered. rewrite Hqueue. apply List.filter_ext. intros l.
    now rewrite (is_delivered_alerts st _ l Halerts). }
  split; [| split; [exact Halerts | split; [exact Hqueue |
            split; [apply get_pending_alerts_keys | split; [exact Hund |]]]]].
  - unfold _deliver_proactive_alerts. rewrite Hhas. cbn [negb].
    rewrite generate_proactive_summary_unfold. cbn zeta.
    destruct (sort (alert_lt st) (undelivered st)) as [|top rest];
      [reflexivity |].
    rewrite Hllm. destruct reply as [summary|]; [| reflexivity].
    destruct (truthy_str summary); [| reflexivity].
    now rewrite Hblank.
  - apply has_alerts_undelivered. rewrite Hund.
    now apply has_alerts_undelivered.
Qed.

Lemma filter_filter_implied {A} (f g : A -> bool) (l : list A) :
  (forall x, f x = true -> g x = true) ->
  List.filter f (List.filter g l) = List.filter f l.
Proof.
  intros Himp. induction l as [|x l IH]; [reflexivity |].
  cbn [List.filter]. destruct (f x) eqn:Hf.
  - rewrite (Himp x Hf). cbn [List.filter]. now rewrite Hf, IH.
  - destruct (g x); [cbn [List.filter]; rewrite Hf |]; exact IH.
Qed.

(** X18. Cleaning the queue never loses a pending alert: the
    undelivered alerts are the same, in the same order, before and
    after; what leaves the queue was delivered and was created at or
    before the cutoff. *)
Theorem clear_old_alerts_keeps_pending (now max_age_hours : Z) (st : State) :
  let st' := clear_old_alerts now max_age_hours st in
  alerts st' = alerts st
  /\ undelivered st' = undelivered st
  /\ has_alerts st' = has_alerts st
  /\ forall l, In l (queue st) ->
       In l (queue st')
       \/ exists al, alerts st !! l = Some al
                     /\ delivered al = true
                     /\ created_at al <= now - max_age_hours * us_per_hour.
Proof.
  cbn zeta.
  assert (Halerts : alerts (clear_old_alerts now max_age_hours st) = alerts st)
    by reflexivity.
  assert (Hund : undelivered (clear_old_alerts now max_age_hours st)
                 = undelivered st).
  { unfold undelivered. rewrite queue_clear_old_alerts.
    rewrite (List.filter_ext _ (fun a => negb (is_delivered st a)))
      by (intros a; now rewrite (is_delivered_alerts st _ a Halerts)).
    apply filter_filter_implied. intros l Hl. unfold is_delivered in Hl.
    destruct (alerts st !! l) as [al|]; [| reflexivity].
    now rewrite Hl. }
  split; [exact Halerts |]. split; [exact Hund |]. split.
  - destruct (has_alerts st) eqn:Hhas.
    + apply has_alerts_undelivered. rewrite Hund.
      now apply has_alerts_undelivered.
    + apply not_true_is_false. intros Hhas'.
      apply has_alerts_undelivered in Hhas'. rewrite Hund in Hhas'.
      apply has_alerts_undelivered in Hhas'. congruence.
  - intros l Hl. rewrite queue_clear_old_alerts, List.filter_In.
    destruct (alerts st !! l) as [al|] eqn:Hal; [| left; now split].
    destruct (delivered al) eqn:Hd; [| left; now split].
    destruct (Z.ltb_spec (now - max_age_hours * us_per_hour) (created_at al));
      [left; now split |].
    right. exists al. now repeat split.
Qed.

End Delivering.

Lemma three_alerts_well_formed : well_formed three_alerts.
Proof.
  unfold three_alerts, fresh_monitor.
  repeat apply well_formed_emit. apply well_formed_init.
Qed.

(** With the language model out of order, the summary of the three
    alerts is the message of the CRITICAL one, which is second in the
    queue. *)
Lemma generate_proactive_summary_fallback_witness :
  exists top al before after,
    fst (generate_proactive_summary failing_llm three_alerts)
    = Some (message al)
    /\ alerts three_alerts !! top = Some al
    /\ delivered al = false
    /\ undelivered three_alerts = before ++ top :: after
    /\ Forall (fun l => priority_of three_alerts top
                        < priority_of three_alerts l) before
    /\ Forall (fun l => priority_of three_alerts top
                        <= priority_of three_alerts l) after.
Proof.
  apply (generate_proactive_summary_fallback failing_llm three_alerts).
  - exact three_alerts_well_formed.
  - vm_compute. reflexivity.
  - reflexivity.
Defined.

(** The summary of the three alerts is spoken; order 7 is announced in
    the meantime; all four alerts end up delivered. *)
Lemma deliver_proactive_alerts_marks_all_witness :
  exists st',
    _deliver_proactive_alerts (fixed_llm "I have an update for you.")
      order_arrives_during_speech false (Some three_alerts)
    = ([Speak "I have an update for you.";
        Save "Proactive notification" "I have an update for you."], Some st')
    /\ has_alerts st' = false
    /\ length (queue st') = 4%nat.
Proof.
  destruct (deliver_proactive_alerts_marks_all
              (fixed_llm "I have an update for you.")
              order_arrives_during_speech false three_alerts
              "I have an update for you.")
    as (st' & Hdeliver & Hqueue & Hnone & _).
  - exact three_alerts_well_formed.
  - vm_compute. reflexivity.
  - vm_compute. reflexivity.
  - reflexivity.
  - exists st'. split; [exact Hdeliver |]. split; [exact Hnone |].
    rewrite Hqueue. vm_compute. reflexivity.
Defined.

(** The language model answers with blanks: asked for updates, the
    assistant says there are none, and the three alerts stay pending. *)
Lemma deliver_proactive_alerts_without_summary_witness :
  exists st',
    _deliver_proactive_alerts blank_llm [] true (Some three_alerts)
    = ([Speak "No new updates or alerts at the moment."], Some st')
    /\ undelivered st' = undelivered three_alerts
    /\ has_alerts st' = true.
Proof.
  destruct (deliver_proactive_alerts_without_summary blank_llm [] true
              three_alerts (Some "  "%string))
    as (st' & Hdeliver & _ & _ & _ & Hsame & Hhas).
  - exact three_alerts_well_formed.
  - vm_compute. reflexivity.
  - reflexivity.
  - vm_compute. reflexivity.
  - exists st'. now repeat split.
Defined.

(** * The detection of changes *)

Section Detection.
Context `{DatetimeLib}.

Lemma emit_user a st :
  user_role (emit a st) = user_role st /\ user_email (emit a st) = user_email st.
Proof.
  destruct (emit_frame a st) as (_ & _ & _ & _ & _ & _ & _ & _ & Hr & He & _).
  now split.
Qed.

Lemma user_order_ids_same db st st' :
  user_role st' = user_role st -> user_email st' = user_email st ->
  _get_user_order_ids db st' = _get_user_order_ids db st.
Proof. unfold _get_user_order_ids. now intros -> ->. Qed.

Lemma fold_emit_alerts {X} (mk : X -> ProactiveAlert) (l : list X) st :
  let st' := fold_left (fun s x => emit (mk x) s) l st in
  alerts st' = alerts st ++ map mk l
  /\ _last_order_ids st' = _last_order_ids st
  /\ user_role st' = user_role st
  /\ user_email st' = user_email st.
Proof.
  cbn zeta. revert st. induction l as [|x l IH]; intros st; cbn [fold_left map].
  - now rewrite app_nil_r.
  - destruct (IH (emit (mk x) st)) as (-> & -> & -> & ->).
    rewrite emit_alerts, <- app_assoc.
    destruct (emit_frame (mk x) st) as (_ & _ & _ & _ & -> & _).
    destruct (emit_user (mk x) st) as (-> & ->). now repeat split.
Qed.

Lemma check_new_order_assignments_alerts db now st :
  let current : gset Z := list_to_set (_get_user_order_ids db st) in
  let st' := _check_new_order_assignments db now st in
  alerts st' = alerts st
               ++ map (new_order_alert now)
                    (elements (current ∖ _last_order_ids st))
  /\ _last_order_ids st' = current
  /\ user_role st' = user_role st
  /\ user_email st' = user_email st.
Proof.
  cbn zeta. unfold _check_new_order_assignments.
  cbn [alerts _last_order_ids user_role user_email set_last_order_ids].
  destruct (fold_emit_alerts (new_order_alert now)
              (elements (list_to_set (_get_user_order_ids db st)
                         ∖ _last_order_ids st)) st) as (-> & _ & -> & ->).
  now repeat split.
Qed.

(** X19. The check for new orders creates one new-order alert for each
    order id that is now among the user's and was not at the previous
    check, and no other alert; it then remembers the ids of now, so
    that a second check over the same store creates nothing. *)
Theorem new_order_alerts_exact (db : Db) (now : Z) (st : State) :
  let st' := _check_new_order_assignments db now st in
  exists new,
    alerts st' = alerts st ++ map (new_order_alert now) new
    /\ NoDup new
    /\ (forall oid, oid ∈ new <->
          oid ∈ _get_user_order_ids db st /\ (oid ∉ _last_order_ids st))
    /\ (forall oid, oid ∈ _last_order_ids st' <->
          oid ∈ _get_user_order_ids db st)
    /\ forall now', alerts (_check_new_order_assignments db now' st')
                    = alerts st'.
Proof.
  cbn zeta.
  destruct (check_new_order_assignments_alerts db now st)
    as (Halerts & Hids & Hrole & Hemail).
  exists (elements (list_to_set (_get_user_order_ids db st)
                    ∖ _last_order_ids st)).
  split; [exact Halerts |]. split; [apply NoDup_elements |]. split; [| split].
  - intros oid. rewrite elem_of_elements, elem_of_difference.
    now rewrite elem_of_list_to_set.
  - intros oid. rewrite Hids. apply elem_of_list_to_set.
  - intros now'.
    destruct (check_new_order_assignments_alerts db now'
                (_check_new_order_assignments db now st)) as (-> & _).
    rewrite (user_order_ids_same db st _ Hrole Hemail), Hids.
    rewrite difference_diag_L, elements_empty. cbn [map]. apply app_nil_r.
Qed.

(** X20. A check for new orders that cannot reach the store forgets the
    orders the monitor knew: it creates no alert, but the next check
    that reaches the store creates a new-order alert for every order of
    the user, the long-known ones included. *)
Theorem outage_forgets_known_orders
    (db_down db : Db) (now now' : Z) (st : State) :
  connected db_down = false ->
  let st1 := _check_new_order_assignments db_down now st in
  let st2 := _check_new_order_assignments db now' st1 in
  alerts st1 = alerts st
  /\ _last_order_ids st1 = ∅
  /\ exists new,
       alerts st2 = alerts st1 ++ map (new_order_alert now') new
       /\ forall oid, oid ∈ new <-> oid ∈ _get_user_order_ids db st.
Proof.
  intros Hdown. cbn zeta.
  assert (Hnone : _get_user_order_ids db_down st = []).
  { unfold _get_user_order_ids, get_db. now rewrite Hdown. }
  destruct (check_new_order_assignments_alerts db_down now st)
    as (Halerts & Hids & Hrole & Hemail).
  rewrite Hnone in Halerts, Hids. cbn [list_to_set foldr] in Halerts, Hids.
  rewrite empty_difference_L, elements_empty in Halerts.
  cbn [map] in Halerts. rewrite app_nil_r in Halerts.
  split; [exact Halerts |]. split; [exact Hids |].
  destruct (check_new_order_assignments_alerts db now'
              (_check_new_order_assignments db_down now st)) as (-> & _).
  rewrite Hids, difference_empty_L, (user_order_ids_same db st _ Hrole Hemail).
  eexists. split; [reflexivity |].
  intros oid. now rewrite elem_of_elements, elem_of_list_to_set.
Qed.

Lemma status_step_other db now st s x oid :
  x <> oid ->
  _last_order_statuses (status_step db now s x) !! oid
  = _last_order_statuses s !! oid
  /\ forall expected,
       emitted_for (about_order oid) st s expected ->
       emitted_for (about_order oid) st (status_step db now s x) expected.
Proof.
  intros Hne. unfold status_step.
  destruct (find_order db x) as [doc|]; [| now split].
  assert (Hquiet : forall previous expected,
            emitted_for (about_order oid) st s expected ->
            emitted_for (about_order oid) st
              (emit (status_alert now x previous (_extract_order_status doc)) s)
              expected).
  { intros previous expected He.
    pose proof (emitted_for_emit (about_order oid) st s expected
                  (status_alert now x previous (_extract_order_status doc)) He)
      as He'.
    rewrite (about_order_other oid x) in He' by (reflexivity || exact Hne).
    now rewrite app_nil_r in He'. }
  destruct (_last_order_statuses s !! x) as [previous|];
    [destruct (truthy_str previous
               && negb (String.eqb (_extract_order_status doc) previous)) |];
    cbn [_last_order_statuses set_last_order_statuses];
    rewrite lookup_insert_ne by exact Hne;
    rewrite ?emit_last_order_statuses; (split; [reflexivity |]);
    intros expected He.
  - apply (emitted_for_attr _ _
             (emit (status_alert now x previous (_extract_order_status doc)) s));
      [reflexivity | now apply Hquiet].
  - now apply (emitted_for_attr _ _ s).
  - now apply (emitted_for_attr _ _ s).
Qed.

Lemma status_step_same db now st s oid doc :
  find_order db oid = Some doc ->
  _last_order_statuses (status_step db now s oid) !! oid
  = Some (_extract_order_status doc)
  /\ forall expected,
       emitted_for (about_order oid) st s expected ->
       emitted_for (about_order oid) st (status_step db now s oid)
         (expected ++ status_change now oid (_last_order_statuses s !! oid)
                        (_extract_order_status doc)).
Proof.
  intros Hdoc. unfold status_step, status_change. rewrite Hdoc.
  destruct (_last_order_statuses s !! oid) as [previous|];
    [destruct (truthy_str previous
               && negb (String.eqb (_extract_order_status doc) previous)) |];
    cbn [_last_order_statuses set_last_order_statuses];
    rewrite lookup_insert_eq; (split; [reflexivity |]); intros expected He.
  - apply (emitted_for_attr _ _
             (emit (status_alert now oid previous (_extract_order_status doc))
                s)); [reflexivity |].
    pose proof (emitted_for_emit (about_order oid) st s expected
                  (status_alert now oid previous (_extract_order_status doc))
                  He) as He'.
    now rewrite about_order_same in He' by reflexivity.
  - rewrite app_nil_r. now apply (emitted_for_attr _ _ s).
  - rewrite app_nil_r. now apply (emitted_for_attr _ _ s).
Qed.

Lemma status_change_none now oid current :
  status_change now oid (Some current) current = [].
Proof.
  unfold status_change. now rewrite String.eqb_refl, andb_false_r.
Qed.

Lemma check_order_status_changes_order db now st oid doc :
  oid ∈ _get_user_order_ids db st ->
  find_order db oid = Some doc ->
  let st' := _check_order_status_changes db now st in
  _last_order_statuses st' !! oid = Some (_extract_order_status doc)
  /\ emitted_for (about_order oid) st st'
       (status_change now oid (_last_order_statuses st !! oid)
          (_extract_order_status doc)).
Proof.
  intros Hin Hdoc. cbn zeta.
  assert (Hdb : get_db db = Ok db)
    by (apply get_db_connected; eapply user_order_ids_connected; exact Hin).
  unfold _check_order_status_changes. rewrite Hdb.
  set (expected := status_change now oid (_last_order_statuses st !! oid)
                     (_extract_order_status doc)).
  apply (fold_left_reach (status_step db now)
           (fun s => _last_order_statuses s !! oid
                     = _last_order_statuses st !! oid
                     /\ emitted_for (about_order oid) st s [])
           (fun s => _last_order_statuses s !! oid
                     = Some (_extract_order_status doc)
                     /\ emitted_for (about_order oid) st s expected) oid).
  - intros s x (Hs & He). destruct (decide (x = oid)) as [-> | Hne].
    + destruct (status_step_same db now st s oid doc Hdoc) as (Hs' & He').
      split; [exact Hs' |]. specialize (He' expected He).
      now rewrite Hs, status_change_none, app_nil_r in He'.
    + destruct (status_step_other db now st s x oid Hne) as (Hs' & He').
      split; [now rewrite Hs' | now apply He'].
  - intros s x (Hs & He) Hne.
    destruct (status_step_other db now st s x oid Hne) as (Hs' & He').
    split; [now rewrite Hs' | now apply He'].
  - intros s (Hs & He).
    destruct (status_step_same db now st s oid doc Hdoc) as (Hs' & He').
    split; [exact Hs' |]. specialize (He' [] He). now rewrite Hs in He'.
  - exact Hin.
  - split; [reflexivity | apply emitted_for_refl].
Qed.

(** X21. In one status check, an order of the user that the store holds
    gets exactly one status alert if the status remembered for it is
    not empty and differs from its status now, and none otherwise, even
    if its id is listed more than once; its status of now is remembered
    afterwards. *)
Theorem status_change_alert_exact
    (db : Db) (now : Z) (st : State) (oid : Z) (doc : OrderDoc) :
  oid ∈ _get_user_order_ids db st ->
  find_order db oid = Some doc ->
  let current := _extract_order_status doc in
  let st' := _check_order_status_changes db now st in
  _last_order_statuses st' !! oid = Some current
  /\ emitted_for (about_order oid) st st'
       (match _last_order_statuses st !! oid with
        | Some previous =>
            if truthy_str previous && negb (String.eqb current previous)
            then [status_alert now oid previous current]
            else []
        | None => []
        end).
Proof.
  intros Hin Hdoc. exact (check_order_status_changes_order db now st oid doc Hin Hdoc).
Qed.

Lemma status_step_id db now s x :
  (forall doc, find_order db x = Some doc ->
     _last_order_statuses s !! x = Some (_extract_order_status doc)) ->
  status_step db now s x = s.
Proof.
  intros Hcur. unfold status_step.
  destruct (find_order db x) as [doc|]; [| reflexivity].
  rewrite (Hcur doc eq_refl), String.eqb_refl, andb_false_r.
  rewrite insert_id by now apply Hcur. now destruct s.
Qed.

Lemma fold_left_id {X} (f : State -> X -> State) (l : list X) st :
  (forall x, x ∈ l -> f st x = st) -> fold_left f l st = st.
Proof.
  intros Hid. induction l as [|x l IH]; [reflexivity |]. cbn [fold_left].
  rewrite Hid by (apply elem_of_cons; now left).
  apply IH. intros y Hy. apply Hid. apply elem_of_cons. now right.
Qed.

Lemma check_order_status_changes_id db now st :
  (forall oid doc, oid ∈ _get_user_order_ids db st ->
     find_order db oid = Some doc ->
     _last_order_statuses st !! oid = Some (_extract_order_status doc)) ->
  _check_order_status_changes db now st = st.
Proof.
  intros Hcur. unfold _check_order_status_changes.
  destruct (get_db db) as [db'|] eqn:Hdb; [| reflexivity].
  assert (db' = db) as ->
    by (unfold get_db in Hdb; destruct (connected db); congruence).
  apply fold_left_id. intros oid Hoid. apply status_step_id.
  intros doc Hdoc. now apply Hcur.
Qed.

Lemma user_emit (role email : string) a s :
  user_role s = role /\ user_email s = email ->
  user_role (emit a s) = role /\ user_email (emit a s) = email.
Proof. destruct (emit_user a s) as (-> & ->). auto. Qed.

Ltac by_user :=
  first [ assumption
        | now split
        | intros; exact I
        | intros; now apply user_emit
        | intros v s Hs; exact Hs ].

(** X22. A store that has not changed raises nothing: right after the
    initial snapshot, and right after any status check, a status check
    over the same store leaves the monitor exactly as it is, and the
    check for new orders after the snapshot creates no alert. *)
Theorem unchanged_store_raises_no_alert (db : Db) (now now' : Z) (st : State) :
  let st1 := _take_initial_snapshot db st in
  let st2 := _check_order_status_changes db now st in
  _check_order_status_changes db now' st1 = st1
  /\ alerts (_check_new_order_assignments db now' st1) = alerts st1
  /\ _check_order_status_changes db now' st2 = st2.
Proof.
  cbn zeta.
  assert (Huser1 : user_role (_take_initial_snapshot db st) = user_role st
                   /\ user_email (_take_initial_snapshot db st) = user_email st).
  { apply (stable_take_initial_snapshot
             (fun s => user_role s = user_role st
                       /\ user_email s = user_email st));
      by_user. }
  assert (Huser2 : user_role (_check_order_status_changes db now st)
                   = user_role st
                   /\ user_email (_check_order_status_changes db now st)
                      = user_email st).
  { apply (stable_check_order_status_changes
             (fun s => user_role s = user_role st
                       /\ user_email s = user_email st)
             (fun _ => True));
      by_user. }
  destruct Huser1 as (Hr1 & He1). destruct Huser2 as (Hr2 & He2).
  split; [| split].
  - apply check_order_status_changes_id. intros oid doc Hin Hdoc.
    rewrite (user_order_ids_same db st _ Hr1 He1) in Hin.
    unfold _take_initial_snapshot.
    rewrite (get_db_connected db (user_order_ids_connected db st oid Hin)).
    now apply snapshot_fold.
  - destruct (check_new_order_assignments_alerts db now'
                (_take_initial_snapshot db st)) as (-> & _).
    rewrite (user_order_ids_same db st _ Hr1 He1).
    assert (Hids : _last_order_ids (_take_initial_snapshot db st)
                   = list_to_set (_get_user_order_ids db st)).
    { unfold _take_initial_snapshot.
      destruct (get_db db) as [db'|]; [| reflexivity].
      now destruct (snapshot_fold db' (_get_user_order_ids db st)
                      (set_last_order_ids
                         (list_to_set (_get_user_order_ids db st)) st))
        as (_ & _ & _ & -> & _). }
    rewrite Hids, difference_diag_L, elements_empty. cbn [map].
    apply app_nil_r.
  - apply check_order_status_changes_id. intros oid doc Hin Hdoc.
    rewrite (user_order_ids_same db st _ Hr2 He2) in Hin.
    now apply check_order_status_changes_order.
Qed.

End Detection.

(** Order 7 was open at the snapshot and is delivered now: the status
    check raises the one alert that says so. *)
Lemma status_change_alert_exact_witness :
  emitted_for (about_order 7) watching_order7
    (_check_order_status_changes delivered_db noon watching_order7)
    [status_alert noon 7 "open" "delivered"].
Proof.
  apply (status_change_alert_exact delivered_db noon watching_order7 7
           (order7 "delivered" [] None None)).
  - replace (_get_user_order_ids delivered_db watching_order7) with [7]
      by (vm_compute; reflexivity).
    apply elem_of_cons. now left.
  - reflexivity.
Defined.

(** The driver's monitor knows order 7; one check misses the store; the
    next one announces order 7 as new. *)
Lemma outage_forgets_known_orders_witness :
  7 ∈ _last_order_ids watching_order7
  /\ alerts (_check_new_order_assignments (driver_db []) (noon + 1)
               (_check_new_order_assignments unreachable_db noon
                  watching_order7))
     = [new_order_alert (noon + 1) 7].
Proof.
  destruct (outage_forgets_known_orders unreachable_db (driver_db []) noon
              (noon + 1) watching_order7 eq_refl)
    as (_ & _ & new & _ & _).
  split; [| vm_compute; reflexivity].
  replace (_last_order_ids watching_order7) with ({[ 7 ]} : gset Z)
    by (vm_compute; reflexivity).
  now apply elem_of_singleton.
Defined.

(** * One deadline alert for an order *)

Section DeadlineOnce.
Context `{DatetimeLib}.

Lemma keeps_deadlines_refl st : keeps_deadlines st st.
Proof. exists []. now rewrite app_nil_r. Qed.

Lemma keeps_deadlines_emit st a s :
  deadline_alert a = false -> keeps_deadlines st s ->
  keeps_deadlines st (emit a s).
Proof.
  intros Ha (new & Hal & Hnew & Hw). exists (new ++ [a]).
  rewrite emit_alerts, emit_warned_deadlines, Hal, app_assoc.
  split; [reflexivity |]. split; [| exact Hw].
  apply Forall_app. split; [exact Hnew | now constructor].
Qed.

Lemma keeps_deadlines_attr st s s' :
  alerts s' = alerts s -> _warned_deadlines s' = _warned_deadlines s ->
  keeps_deadlines st s -> keeps_deadlines st s'.
Proof. intros Ha Hw (new & Hal & Hnew & Hw'). exists new. now rewrite Ha, Hw. Qed.

Lemma keeps_deadlines_trans st1 st2 st3 :
  keeps_deadlines st1 st2 -> keeps_deadlines st2 st3 -> keeps_deadlines st1 st3.
Proof.
  intros (n1 & Ha1 & Hn1 & Hw1) (n2 & Ha2 & Hn2 & Hw2). exists (n1 ++ n2).
  rewrite Ha2, Ha1, Hw2, Hw1, app_assoc. repeat split.
  now apply Forall_app.
Qed.

Ltac by_keeps :=
  first [ apply keeps_deadlines_refl
        | intros; reflexivity
        | intros; now apply keeps_deadlines_emit
        | intros v s Hs; now apply (keeps_deadlines_attr _ s) ].

Lemma deadline_invariant_keeps st s :
  keeps_deadlines st s -> deadline_invariant st -> deadline_invariant s.
Proof.
  intros (new & Ha & Hnew & Hw) (Hrec & Huniq).
  assert (Hold : forall l a, alerts s !! l = Some a ->
                 deadline_alert a = true -> alerts st !! l = Some a).
  { intros l a Hl Hd. rewrite Ha in Hl.
    apply lookup_app_Some in Hl as [Hl | [_ Hl]]; [exact Hl |].
    apply list_elem_of_lookup_2, list_elem_of_In in Hl.
    rewrite List.Forall_forall in Hnew. apply Hnew in Hl. congruence. }
  split.
  - intros l a Hl Hd. rewrite Hw. eapply Hrec; eauto.
  - intros l1 l2 a1 a2 oid Hl1 Hl2 Hd1 Hd2.
    apply (Huniq l1 l2 a1 a2 oid); try assumption.
    + apply Hold; [exact Hl1 | apply Hd1].
    + apply Hold; [exact Hl2 | apply Hd2].
Qed.

Lemma mark_delivered_warned_deadlines alert st :
  _warned_deadlines (mark_delivered alert st) = _warned_deadlines st.
Proof. unfold mark_delivered. now case_match. Qed.

Lemma deadline_invariant_mark_delivered alert st :
  deadline_invariant st -> deadline_invariant (mark_delivered alert st).
Proof.
  intros (Hrec & Huniq). unfold deadline_invariant, deadlines_recorded,
    deadlines_unique, deadline_alert_for, deadline_alert in *.
  split.
  - intros l a' Hl Hd. rewrite mark_delivered_warned_deadlines.
    apply mark_delivered_lookup in Hl as (a & Hl & Ht & Ho & _).
    rewrite <- Ho. apply (Hrec l a Hl). now rewrite Ht.
  - intros l1 l2 a1 a2 oid Hl1 Hl2 (T1 & O1) (T2 & O2).
    apply mark_delivered_lookup in Hl1 as (b1 & Hl1 & Ht1 & Ho1 & _).
    apply mark_delivered_lookup in Hl2 as (b2 & Hl2 & Ht2 & Ho2 & _).
    apply (Huniq l1 l2 b1 b2 oid Hl1 Hl2); split; congruence.
Qed.

Lemma deadline_field_kind now oid doc st f a :
  deadline_field now oid doc st f = Some a -> deadline_alert_for oid a.
Proof.
  unfold deadline_field. intros Hf.
  repeat case_match; try discriminate; injection Hf as <-; now split.
Qed.

Lemma deadline_order_step_fresh db now s o :
  deadline_order_step db now s o = s
  \/ exists a, (o ∉ _warned_deadlines s)
              /\ deadline_alert_for o a
              /\ deadline_order_step db now s o
                 = add_warned_deadline o (emit a s).
Proof.
  unfold deadline_order_step.
  destruct (bool_decide _) eqn:Hw; [now left |].
  apply bool_decide_eq_false in Hw.
  destruct (find_order db o) as [doc|]; [| now left].
  induction (deadline_fields (order_of doc)) as [|f fields IH];
    [now left |].
  cbn [deadline_scan].
  destruct (deadline_field now o doc s f) as [a|] eqn:Hf; [| exact IH].
  right. exists a. split; [exact Hw |]. split; [| reflexivity].
  eapply deadline_field_kind; exact Hf.
Qed.

Lemma deadline_invariant_order_step db now s o :
  deadline_invariant s -> deadline_invariant (deadline_order_step db now s o).
Proof.
  intros (Hrec & Huniq).
  destruct (deadline_order_step_fresh db now s o)
    as [-> | (a & Hfresh & Hfor & ->)]; [now split |].
  assert (Hlook : forall l b,
            alerts (add_warned_deadline o (emit a s)) !! l = Some b ->
            alerts s !! l = Some b \/ (l = length (alerts s) /\ b = a)).
  { intros l b. unfold add_warned_deadline. cbn [alerts set_warned_deadlines].
    rewrite emit_alerts. intros Hl.
    apply lookup_snoc_Some in Hl as [[_ Hl] | [-> <-]]; [now left | now right]. }
  assert (Hwarned : _warned_deadlines (add_warned_deadline o (emit a s))
                    = {[ o ]} ∪ _warned_deadlines s).
  { unfold add_warned_deadline. cbn [_warned_deadlines set_warned_deadlines].
    now rewrite emit_warned_deadlines. }
  assert (Hnone : forall l b, alerts s !! l = Some b ->
                  deadline_alert_for o b -> False).
  { intros l b Hl (Hd & Ho).
    destruct (Hrec l b Hl Hd) as (o' & Ho' & Hin).
    apply Hfresh. congruence. }
  split.
  - intros l b Hl Hd. rewrite Hwarned.
    destruct (Hlook l b Hl) as [Hold | [_ ->]].
    + destruct (Hrec l b Hold Hd) as (o' & Ho' & Hin).
      exists o'. split; [exact Ho' |]. apply elem_of_union. now right.
    + exists o. split; [apply Hfor |].
      apply elem_of_union. left. now apply elem_of_singleton.
  - intros l1 l2 a1 a2 oid Hl1 Hl2 Hd1 Hd2.
    destruct (Hlook l1 a1 Hl1) as [Hold1 | [-> ->]];
      destruct (Hlook l2 a2 Hl2) as [Hold2 | [-> ->]].
    + eapply Huniq; eauto.
    + assert (oid = o) as -> by (destruct Hfor, Hd2; congruence).
      exfalso. eapply Hnone; eauto.
    + assert (oid = o) as -> by (destruct Hfor, Hd1; congruence).
      exfalso. eapply Hnone; eauto.
    + reflexivity.
Qed.

Lemma deadline_invariant_run_op st o :
  deadline_invariant st -> deadline_invariant (run_op st o).
Proof.
  intros Hst.
  assert (Hkeeps : forall s, keeps_deadlines st s -> deadline_invariant s)
    by (intros s Hs; now apply (deadline_invariant_keeps st)).
  destruct o; cbn [run_op].
  - apply Hkeeps. unfold start. case_match; [apply keeps_deadlines_refl |].
    now apply (keeps_deadlines_attr _ st); [| | apply keeps_deadlines_refl].
  - apply Hkeeps.
    now apply (keeps_deadlines_attr _ st); [| | apply keeps_deadlines_refl].
  - apply Hkeeps. rewrite get_pending_alerts_unfold.
    now apply (keeps_deadlines_attr _ st); [| | apply keeps_deadlines_refl].
  - now apply deadline_invariant_mark_delivered.
  - apply Hkeeps.
    now apply (keeps_deadlines_attr _ st); [| | apply keeps_deadlines_refl].
  - apply Hkeeps.
    apply (stable_take_initial_snapshot (keeps_deadlines st)); by_keeps.
  - apply Hkeeps.
    apply (stable_check_order_status_changes (keeps_deadlines st)
             (fun a => deadline_alert a = false)); by_keeps.
  - apply Hkeeps.
    apply (stable_check_new_order_assignments (keeps_deadlines st)
             (fun a => deadline_alert a = false)); by_keeps.
  - apply Hkeeps.
    apply (stable_check_permit_expirations (keeps_deadlines st)
             (fun a => deadline_alert a = false)); by_keeps.
  - unfold _check_delivery_deadlines. case_match; [| exact Hst].
    apply fold_left_invariant; [| exact Hst].
    intros s oid. apply deadline_invariant_order_step.
  - apply Hkeeps.
    apply (stable_check_route_weather (keeps_deadlines st)
             (fun a => deadline_alert a = false)); by_keeps.
Qed.

Lemma deadline_invariant_init role email poll weather days hours :
  deadline_invariant (init role email poll weather days hours).
Proof.
  split.
  - intros l a Hl. cbn in Hl. now rewrite lookup_nil in Hl.
  - intros l1 l2 a1 a2 oid Hl. cbn in Hl. now rewrite lookup_nil in Hl.
Qed.

Lemma deadline_order_step_after_warning db now st oid s o expected :
  oid ∈ _warned_deadlines s ->
  emitted_for (about_order oid) st s expected ->
  oid ∈ _warned_deadlines (deadline_order_step db now s o)
  /\ emitted_for (about_order oid) st (deadline_order_step db now s o) expected.
Proof.
  intros Hw He.
  destruct (deadline_order_step_fresh db now s o)
    as [-> | (a & Hfresh & (_ & Ho) & ->)]; [now split |].
  unfold add_warned_deadline. split.
  - cbn [_warned_deadlines set_warned_deadlines].
    rewrite emit_warned_deadlines. apply elem_of_union. now right.
  - apply (emitted_for_attr _ _ (emit a s)); [reflexivity |].
    apply (emitted_for_emit _ _ _ _ a) in He.
    rewrite (about_order_other oid o) in He; [| exact Ho | congruence].
    now rewrite app_nil_r in He.
Qed.

(** X23. In a session, that is after any sequence of operations on a
    newly made monitor, no two deadline alerts are for the same order,
    and the order of every deadline alert is recorded as warned about;
    and for an order that is recorded as warned about the deadline
    check creates no alert, whatever the store and the clock show: an
    order announced as due is never announced as overdue. *)
Theorem deadline_alert_at_most_once
    (role email : string) (poll weather days hours : Z) (ops : list op) :
  let st := run ops (init role email poll weather days hours) in
  (forall l1 l2 a1 a2 oid,
     alerts st !! l1 = Some a1 -> alerts st !! l2 = Some a2 ->
     deadline_alert_for oid a1 -> deadline_alert_for oid a2 ->
     l1 = l2)
  /\ (forall l a oid,
        alerts st !! l = Some a -> deadline_alert_for oid a ->
        oid ∈ _warned_deadlines st)
  /\ (forall db now oid,
        oid ∈ _warned_deadlines st ->
        emitted_for (about_order oid) st (_check_delivery_deadlines db now st) []).
Proof.
  cbn zeta.
  assert (Hinv : deadline_invariant
                   (run ops (init role email poll weather days hours))).
  { unfold run. apply fold_left_invariant.
    - intros s o. apply deadline_invariant_run_op.
    - apply deadline_invariant_init. }
  destruct Hinv as (Hrec & Huniq). split; [exact Huniq |]. split.
  - intros l a oid Hl (Hd & Ho).
    destruct (Hrec l a Hl Hd) as (o' & Ho' & Hin). congruence.
  - intros db now oid Hw.
    set (st := run ops (init role email poll weather days hours)) in *.
    unfold _check_delivery_deadlines.
    destruct (get_db db); [| apply emitted_for_refl].
    apply (fold_left_invariant
             (fun s => oid ∈ _warned_deadlines s
                       /\ emitted_for (about_order oid) st s []));
      [| split; [exact Hw | apply emitted_for_refl]].
    intros s o (Hs & He). now apply deadline_order_step_after_warning.
Qed.

End DeadlineOnce.

(** Order 7 is announced as due at noon; a day later, overdue by twelve
    hours, it is passed over. *)
Example due_then_overdue_one_alert :
  map alert_type (alerts (run due_then_overdue fresh_monitor))
  = ["deadline_approaching"%string].
Proof. vm_compute. reflexivity. Qed.

(** * The orders a monitor watches *)

Section Watched.

Lemma sorted_take_drop (l : list Z) (n : nat) :
  StronglySorted (fun a b => b <= a) l ->
  forall x y, x ∈ take n l -> y ∈ drop n l -> y <= x.
Proof.
  intros Hsorted. revert n. induction Hsorted as [|a l Hl IH Ha];
    intros n x y; [now rewrite take_nil; intros ?%elem_of_nil |].
  destruct n as [|n].
  - cbn [take]. now intros ?%elem_of_nil.
  - cbn [take drop]. intros [-> | Hx]%elem_of_cons Hy.
    + rewrite List.Forall_forall in Ha. apply Ha, list_elem_of_In.
      now apply (subseteq_drop n l).
    + now apply (IH n).
Qed.

(** X24. The monitor of an administrator watches at most twenty orders,
    those with the highest ids in the store, highest first: every id it
    watches is stored, and a stored id above a watched one is watched
    too. *)
Theorem admin_watches_latest_twenty (db : Db) (st : State) :
  connected db = true ->
  user_role st = "admin"%string ->
  let ids := _get_user_order_ids db st in
  (length ids <= 20)%nat
  /\ StronglySorted (fun a b => b <= a) ids
  /\ (forall oid, oid ∈ ids -> exists doc, doc ∈ orders db /\ id doc = oid)
  /\ (forall doc oid, doc ∈ orders db -> oid ∈ ids -> oid < id doc ->
        id doc ∈ ids).
Proof.
  intros Hdb Hrole. cbn zeta. unfold _get_user_order_ids, get_db.
  rewrite Hdb, Hrole. cbn [String.eqb Ascii.eqb Bool.eqb].
  set (all := sorted_reverse (map id (orders db))).
  pose proof (sorted_reverse_descending (map id (orders db))) as Hsorted.
  pose proof (sorted_reverse_perm (map id (orders db))) as Hperm.
  fold all in Hsorted, Hperm.
  split; [rewrite length_take; lia |]. split; [| split].
  - clear Hperm. revert Hsorted. generalize 20%nat. generalize all.
    intros l n Hsorted. revert n.
    induction Hsorted as [|a l Hl IH Ha]; intros [|n]; cbn [take];
      try constructor; [apply IH |].
    apply List.Forall_forall. intros x Hx%list_elem_of_In.
    rewrite List.Forall_forall in Ha. apply Ha, list_elem_of_In.
    now apply (subseteq_take n l).
  - intros oid Hoid. apply (subseteq_take 20 all) in Hoid.
    assert (Hin : oid ∈ map id (orders db)) by now rewrite <- Hperm.
    apply list_elem_of_In, List.in_map_iff in Hin as (doc & <- & Hdoc).
    exists doc. split; [now apply list_elem_of_In | reflexivity].
  - intros doc oid Hdoc Hoid Hlt.
    assert (Hin : id doc ∈ all).
    { rewrite Hperm. apply list_elem_of_In, List.in_map.
      now apply list_elem_of_In. }
    rewrite <- (take_drop 20 all) in Hin.
    apply elem_of_app in Hin as [Hin | Hin]; [exact Hin |].
    pose proof (sorted_take_drop all 20 Hsorted oid (id doc) Hoid Hin). lia.
Qed.

End Watched.

(** Of the orders 1 to 25 the administrator's monitor watches 25 down
    to 6. *)
Lemma admin_watches_latest_twenty_witness :
  _get_user_order_ids many_orders_db admin_monitor
  = [25; 24; 23; 22; 21; 20; 19; 18; 17; 16; 15; 14; 13; 12; 11; 10; 9; 8; 7; 6]
  /\ (length (_get_user_order_ids many_orders_db admin_monitor) <= 20)%nat.
Proof.
  destruct (admin_watches_latest_twenty many_orders_db admin_monitor
              eq_refl eq_refl) as (Hlen & _).
  split; [vm_compute; reflexivity | exact Hlen].
Defined.

(** * The classification of a permit by its date *)

Section Expiry.
Context `{DatetimeLib}.

Lemma us_per_day_pos : 0 < us_per_day.
Proof. reflexivity. Qed.

Lemma whole_days (x w : Z) :
  (x / us_per_day < 0 <-> x < 0)
  /\ (x / us_per_day <= w <-> x < (w + 1) * us_per_day).
Proof.
  pose proof us_per_day_pos as Hpos. split; split; intros Hx.
  - destruct (Z.lt_ge_cases x 0) as [Hneg | Hnn]; [exact Hneg |].
    pose proof (Z.div_pos x us_per_day Hnn Hpos). lia.
  - apply Z.div_lt_upper_bound; lia.
  - destruct (Z.lt_ge_cases x ((w + 1) * us_per_day)) as [Hlt | Hge];
      [exact Hlt |].
    assert (w + 1 <= x / us_per_day); [| lia].
    apply Z.div_le_lower_bound; lia.
  - assert (x / us_per_day < w + 1); [| lia].
    apply Z.div_lt_upper_bound; lia.
Qed.

(** X25. For a route whose attachment date can be read, the permit is
    taken to expire seven days after it, and the check counts whole
    days, rounding down: past that instant, by however little, the
    route gets the expired alert; up to one day more than the warning
    days before it, that day excluded, the expiring alert; earlier
    than that, nothing. *)
Theorem permit_expiry_classification
    (now oid : Z) (name : string) (v : DateVal) (attach : Z) (st : State) :
  truthy_date v = true ->
  _parse_date v = Some attach ->
  let expiry := attach + 7 * us_per_day in
  let days := (expiry - now) / us_per_day in
  let key := permit_key oid name in
  (expiry < now ->
     days < 0
     /\ expiry_step now oid name (Some v) st
        = add_warned_permit key
            (emit (permit_expired_alert now oid name days) st))
  /\ (now <= expiry < now + (permit_warning_days st + 1) * us_per_day ->
        0 <= days <= permit_warning_days st
        /\ expiry_step now oid name (Some v) st
           = add_warned_permit key
               (emit (permit_expiring_alert now oid name days) st))
  /\ (now <= expiry ->
      now + (permit_warning_days st + 1) * us_per_day <= expiry ->
      expiry_step now oid name (Some v) st = st).
Proof.
  intros Htruthy Hparse. cbn zeta.
  set (x := attach + 7 * us_per_day - now).
  destruct (whole_days x (permit_warning_days st)) as (Hneg & Hwin).
  unfold expiry_step. rewrite Htruthy, Hparse. fold x.
  split; [| split].
  - intros Hpast. assert (Hx : x / us_per_day < 0) by (apply Hneg; lia).
    split; [exact Hx |]. now rewrite (proj2 (Z.ltb_lt _ _) Hx).
  - intros [Hfrom Hto].
    assert (Hx0 : ~ x / us_per_day < 0) by (rewrite Hneg; lia).
    assert (Hx1 : x / us_per_day <= permit_warning_days st)
      by (apply Hwin; lia).
    split; [lia |].
    rewrite (proj2 (Z.ltb_ge _ _)) by lia.
    now rewrite (proj2 (Z.leb_le _ _) Hx1).
  - intros Hfrom Hto.
    assert (Hx0 : ~ x / us_per_day < 0) by (rewrite Hneg; lia).
    assert (Hx1 : ~ x / us_per_day <= permit_warning_days st)
      by (rewrite Hwin; lia).
    rewrite (proj2 (Z.ltb_ge _ _)) by lia.
    now rewrite (proj2 (Z.leb_gt _ _)) by lia.
Qed.

End Expiry.

(** With three warning days: a permit attached seven days and one
    microsecond ago is expired, by one day as the alert has it. *)
Lemma permit_expiry_classification_witness :
  expiry_step noon 7 "Texas"
    (Some (DDatetime (noon - 7 * us_per_day - 1))) fresh_monitor
  = add_warned_permit (permit_key 7 "Texas")
      (emit (permit_expired_alert noon 7 "Texas" (-1)) fresh_monitor).
Proof.
  destruct (permit_expiry_classification noon 7 "Texas"
              (DDatetime (noon - 7 * us_per_day - 1))
              (noon - 7 * us_per_day - 1) fresh_monitor eq_refl eq_refl)
    as (Hexpired & _).
  destruct Hexpired as (_ & Hstep); [lia |]. exact Hstep.
Defined.

(** * Users and weather texts *)

Section Users.

(** X26. For a driver or a client, [verify_email] accepts an address
    exactly when [get_user_info] finds the user, over the same store;
    the order list of the info is then the stored one, or empty if
    none is stored. *)
Theorem verify_email_agrees_with_user_info (db : Mongo.Db) (role email : string) :
  role = "driver"%string \/ role = "client"%string ->
  (verify_email db role email = true <->
   exists info, get_user_info db role email = InfoDict info)
  /\ forall info, get_user_info db role email = InfoDict info ->
       exists user_doc,
         Mongo.find_user (if String.eqb role "driver" then Mongo.drivers db
                          else Mongo.clients db) email = Some user_doc
         /\ listed_orders info = default [] (Mongo.order_ids user_doc).
Proof.
  intros Hrole. unfold verify_email, get_user_info, Mongo.get_db.
  destruct Hrole as [-> | ->]; cbn [String.eqb Ascii.eqb Bool.eqb].
  - destruct (Mongo.connected db).
    + destruct (Mongo.find_user (Mongo.drivers db) email) as [user_doc|].
      * split; [split; [intros _; eexists; reflexivity | reflexivity] |].
        intros info [= <-]. exists user_doc. split; reflexivity.
      * split; [split; [discriminate | intros (? & [=])] | intros ? [=]].
    + split; [split; [discriminate | intros (? & [=])] | intros ? [=]].
  - destruct (Mongo.connected db).
    + destruct (Mongo.find_user (Mongo.clients db) email) as [user_doc|].
      * split; [split; [intros _; eexists; reflexivity | reflexivity] |].
        intros info [= <-]. exists user_doc. split; reflexivity.
      * split; [split; [discriminate | intros (? & [=])] | intros ? [=]].
    + split; [split; [discriminate | intros (? & [=])] | intros ? [=]].
Qed.

End Users.

Lemma verify_email_agrees_with_user_info_witness :
  verify_email four_orders_db "driver" "driver@example.com" = true
  /\ verify_email four_orders_db "driver" "nobody@example.com" = false.
Proof.
  destruct (verify_email_agrees_with_user_info four_orders_db "driver"
              "driver@example.com" (or_introl eq_refl)) as (Hiff & _).
  split; [| vm_compute; reflexivity].
  apply Hiff. eexists. vm_compute. reflexivity.
Defined.

Section WeatherTexts.

Lemma lower_app (a b : string) : lower (a +:+ b) = lower a +:+ lower b.
Proof.
  induction a as [|c a IH]; [reflexivity |].
  change (String c a +:+ b) with (String c (a +:+ b)).
  cbn [lower]. now rewrite IH.
Qed.

Lemma prefix_app (k s q : string) :
  String.prefix k s = true -> String.prefix k (s +:+ q) = true.
Proof.
  revert s. induction k as [|c k IH]; intros s;
    [intros _; now destruct (s +:+ q) |].
  destruct s as [|d s]; [discriminate |].
  change (String d s +:+ q) with (String d (s +:+ q)). cbn [String.prefix].
  destruct (ascii_dec c d); [apply IH | discriminate].
Qed.

Lemma contains_app_r (k s q : string) :
  contains k s = true -> contains k (s +:+ q) = true.
Proof.
  induction s as [|c s IH].
  - cbn [contains]. rewrite orb_false_r. intros Hk.
    destruct k; [| discriminate]. now destruct (_ +:+ _).
  - rewrite contains_cons. intros [Hp | Hc]%orb_true_iff.
    + change (String c s +:+ q) with (String c (s +:+ q)).
      rewrite contains_cons.
      change (String c (s +:+ q)) with (String c s +:+ q).
      now rewrite (prefix_app _ _ _ Hp).
    + change (String c s +:+ q) with (String c (s +:+ q)).
      rewrite contains_cons, (IH Hc). apply orb_true_r.
Qed.

Lemma contains_app_l (k p s : string) :
  contains k s = true -> contains k (p +:+ s) = true.
Proof.
  intros Hk. induction p as [|c p IH]; [exact Hk |].
  change (String c p +:+ s) with (String c (p +:+ s)).
  rewrite contains_cons, IH. apply orb_true_r.
Qed.

Lemma contains_within (k pre s post : string) :
  contains k (lower s) = true ->
  contains k (lower (pre +:+ s +:+ post)) = true.
Proof.
  intros Hk. rewrite !lower_app. now apply contains_app_l, contains_app_r.
Qed.

Lemma get_weather_by_city_shape response city :
  exists c pre post,
    get_weather_by_city response city = String c pre +:+ city +:+ post.
Proof.
  unfold get_weather_by_city, _format_weather.
  destruct response as [|code [reading|]]; [| destruct (negb _) | destruct (negb _)];
    eexists _, _, _; cbn; reflexivity.
Qed.

(** X27. A weather text counts as severe as soon as a keyword occurs
    anywhere in it, inside a longer word or in the name of the city: for
    a city whose name contains a keyword, in any case of letters, every
    answer of [get_weather_by_city] is severe, the messages about a
    failed request included, and the weather check raises the alert for
    the city unless its key is recorded. *)
Theorem keyword_in_city_name_is_severe
    (keyword city : string) (response : Response) :
  In keyword severe_keywords ->
  contains keyword (lower city) = true ->
  let weather_info := get_weather_by_city response city in
  truthy_str weather_info = true
  /\ _is_severe_weather weather_info = true
  /\ forall (service : string -> Response) now oid st,
       service city = response ->
       weather_key oid city ∉ _delivered_keys st ->
       weather_city_step (fun c => get_weather_by_city (service c) c)
         now oid st city
       = add_delivered_key (weather_key oid city)
           (emit (weather_alert now oid city weather_info) st).
Proof.
  intros Hkeyword Hcity. cbn zeta.
  destruct (get_weather_by_city_shape response city) as (c & pre & post & Hshape).
  assert (Htruthy : truthy_str (get_weather_by_city response city) = true)
    by now rewrite Hshape.
  assert (Hsevere : _is_severe_weather (get_weather_by_city response city) = true).
  { unfold _is_severe_weather. apply existsb_exists. exists keyword.
    split; [exact Hkeyword |]. rewrite Hshape. now apply contains_within. }
  split; [exact Htruthy |]. split; [exact Hsevere |].
  intros service now oid st Hservice Hkey. unfold weather_city_step.
  rewrite bool_decide_eq_false_2 by exact Hkey.
  now rewrite Hservice, Htruthy, Hsevere.
Qed.

End WeatherTexts.

(** The town of Nice on a clear day. *)
Lemma keyword_in_city_name_is_severe_witness :
  _is_severe_weather (get_weather_by_city clear_sky "Nice") = true
  /\ _is_severe_weather (get_weather_by_city clear_sky "Dallas") = false.
Proof.
  destruct (keyword_in_city_name_is_severe "ice" "Nice" clear_sky)
    as (_ & Hsevere & _).
  - cbn. tauto.
  - reflexivity.
  - split; [exact Hsevere | vm_compute; reflexivity].
Defined.

(** * The cache and the choice of the order *)

Section CacheFiles.

Lemma append_left_cancel (a x y : string) : a +:+ x = a +:+ y -> x = y.
Proof.
  induction a as [|c a IH]; [now rewrite !append_nil |].
  rewrite !append_cons. intros [= Heq]. now apply IH.
Qed.

Lemma append_length (x s : string) :
  String.length (x +:+ s) = (String.length x + String.length s)%nat.
Proof.
  induction x as [|c x IH]; [reflexivity |].
  rewrite append_cons. cbn [String.length]. now rewrite IH.
Qed.

Lemma append_right_cancel (x y s : string) : x +:+ s = y +:+ s -> x = y.
Proof.
  revert y. induction x as [|c x IH]; intros [|d y] Heq.
  - reflexivity.
  - apply (f_equal String.length) in Heq.
    rewrite append_nil, append_length in Heq. cbn [String.length] in Heq. lia.
  - apply (f_equal String.length) in Heq.
    rewrite append_nil, append_length in Heq. cbn [String.length] in Heq. lia.
  - rewrite !append_cons in Heq. injection Heq as -> Heq.
    f_equal. now apply IH.
Qed.

Lemma cache_file_inj o r oid role :
  cache_file o r = cache_file oid role -> o = oid /\ r = role.
Proof.
  unfold cache_file. intros Heq. apply append_left_cancel in Heq.
  apply (permit_key_inj o (r +:+ ".json") oid (role +:+ ".json")) in Heq
    as [-> Heq].
  split; [reflexivity |]. now apply append_right_cancel in Heq.
Qed.

Lemma cache_path_inj c o r oid role :
  _get_cache_path c o r = _get_cache_path c oid role -> o = oid /\ r = role.
Proof.
  unfold _get_cache_path, path_join.
  change (String.prefix "/" (cache_file o r)) with false.
  change (String.prefix "/" (cache_file oid role)) with false.
  cbn match. intros Heq. apply cache_file_inj.
  destruct (negb (truthy_str (cache_dir c)) || ends_with_slash (cache_dir c));
    apply append_left_cancel in Heq; [exact Heq |].
  now apply append_left_cancel in Heq.
Qed.

(** X28. [save] answers [True] exactly when it has written its
    document in full, and [load] then returns, for the same order and
    role, the details and the explanation saved, [json.load] being
    taken to read back the value that [json.dump] wrote.  A [save] that
    cannot open its file leaves the cache as it is; one that fails
    after the file is opened loses the entry of its order and role:
    [load] answers [(None, None)] for it, whatever was cached before.
    However the writing ends, the cached entry of any other order or
    role is what it was before. *)
Theorem cache_save_then_load
    (c : OrderCache) (writing : Writing) (order_id : Z) (details : json)
    (text role : string) (other_id : Z) (other_role : string) :
  let saved := save writing order_id details text role c in
  (fst saved = true <-> writing = Written)
  /\ (writing = Written ->
      load order_id role (snd saved) = (details, JStr text))
  /\ (writing = NotOpened -> snd saved = c)
  /\ (writing = Interrupted ->
      load order_id role (snd saved) = (JNull, JNull))
  /\ ((other_id, other_role) <> (order_id, role) ->
      load other_id other_role (snd saved) = load other_id other_role c).
Proof.
  cbn zeta.
  assert (Hother : forall content,
            (other_id, other_role) <> (order_id, role) ->
            load other_id other_role
              (set_files (<[_get_cache_path c order_id role := content]>
                            (files c)) c)
            = load other_id other_role c).
  { intros content Hne. unfold load.
    change (_get_cache_path (set_files _ c) other_id other_role)
      with (_get_cache_path c other_id other_role).
    cbn [files set_files]. rewrite lookup_insert_ne; [reflexivity |].
    intros Heq. apply cache_path_inj in Heq as [-> ->]. now apply Hne. }
  assert (Hsame : forall content,
            files (set_files (<[_get_cache_path c order_id role := content]>
                                (files c)) c)
              !! _get_cache_path
                   (set_files (<[_get_cache_path c order_id role := content]>
                                 (files c)) c) order_id role
            = Some content).
  { intros content. unfold _get_cache_path. cbn [files cache_dir set_files].
    apply lookup_insert_eq. }
  unfold save. destruct writing; cbn [fst snd].
  - split; [now split |]. split; [| split; [discriminate |
      split; [discriminate | apply Hother]]].
    intros _. unfold load. rewrite Hsame.
    cbn [cache_data dict_get String.eqb Ascii.eqb Bool.eqb].
    now rewrite String.eqb_refl.
  - split; [split; discriminate |]. split; [discriminate |].
    split; [reflexivity |]. split; [discriminate | reflexivity].
  - split; [split; discriminate |]. split; [discriminate |].
    split; [discriminate |]. split; [| apply Hother].
    intros _. unfold load. now rewrite Hsame.
Qed.

End CacheFiles.

(** An order is cached for a driver, and the next [save] of the same
    order fails.  If its file could not be opened, the entry is still
    there; if the file was opened, the entry that was there is lost. *)
Lemma cache_save_then_load_witness :
  let cached :=
    snd (save Written 500 (JList []) "Using latest order 500 for driver"
           "driver" empty_cache) in
  load 500 "driver" cached
  = (JList [], JStr "Using latest order 500 for driver")
  /\ load 500 "driver"
       (snd (save NotOpened 500 (JList []) "Continuing" "driver" cached))
     = (JList [], JStr "Using latest order 500 for driver")
  /\ load 500 "driver"
       (snd (save Interrupted 500 (JList []) "Continuing" "driver" cached))
     = (JNull, JNull)
  /\ load 500 "client"
       (snd (save Interrupted 500 (JList []) "Continuing" "driver" cached))
     = load 500 "client" cached.
Proof.
  cbn zeta.
  destruct (cache_save_then_load empty_cache Written 500 (JList [])
              "Using latest order 500 for driver" "driver" 500 "client")
    as (_ & Hwritten & _).
  destruct (cache_save_then_load
              (snd (save Written 500 (JList [])
                      "Using latest order 500 for driver" "driver"
                      empty_cache))
              NotOpened 500 (JList []) "Continuing" "driver" 500 "client")
    as (_ & _ & Hkept & _).
  destruct (cache_save_then_load
              (snd (save Written 500 (JList [])
                      "Using latest order 500 for driver" "driver"
                      empty_cache))
              Interrupted 500 (JList []) "Continuing" "driver" 500 "client")
    as (_ & _ & _ & Hlost & Hother).
  cbn zeta in Hwritten, Hkept, Hlost, Hother.
  split; [exact (Hwritten eq_refl) |].
  split; [rewrite (Hkept eq_refl); exact (Hwritten eq_refl) |].
  split; [exact (Hlost eq_refl) |].
  apply Hother. discriminate.
Defined.

Section Choice.

Lemma user_info_own db role email user_data :
  role = "driver"%string \/ role = "client"%string ->
  get_user_info db role email = InfoDict user_data ->
  forall query cur,
    answer_for (own_orders db role email) cur
      (resolve_order_context db query cur user_data).
Proof.
  intros Hrole Hinfo query cur.
  assert (Hfor : forall ids ut,
            answer_for ids cur
              match resolve_for_user query cur (sorted_reverse ids) ut
              with Ok r => r | Raise _ => (false, [], "Error in processing"%string)
              end).
  { intros ids ut.
    destruct (resolve_for_user _ _ _ _) as [r|e] eqn:Hres; [| now left].
    apply resolve_for_user_answer in Hres.
    destruct r as [[[] l] e]; simpl in *; [| exact Hres].
    destruct Hres as (oid & -> & Hin). exists oid. split; [reflexivity |].
    now rewrite sorted_reverse_perm in Hin. }
  unfold get_user_info, Mongo.get_db, own_orders in *.
  destruct (Mongo.connected db); [| discriminate].
  destruct Hrole as [-> | ->]; cbn [String.eqb Ascii.eqb Bool.eqb] in *.
  - destruct (Mongo.find_user (Mongo.drivers db) email) as [user_doc|];
      [| discriminate].
    injection Hinfo as <-. apply Hfor.
  - destruct (Mongo.find_user (Mongo.clients db) email) as [user_doc|];
      [| discriminate].
    injection Hinfo as <-. apply Hfor.
Qed.

Lemma switch_order_current store writing role relevant text c c' :
  switch_order store writing role relevant text c = inr c' ->
  current_order_id c' = current_order_id c
  \/ exists new rest, relevant = new :: rest /\ current_order_id c' = Some new.
Proof.
  unfold switch_order. destruct relevant as [|new rest]; [intros [= <-]; now left |].
  destruct (load new role c) as [cached text'].
  intros Hc. right. exists new, rest. split; [reflexivity |].
  destruct cached;
    try (injection Hc as <-; reflexivity).
  destruct (get_order_details store (new :: rest) role); [discriminate |].
  now injection Hc as <-.
Qed.

(** X29. For a driver or a client the current order of the assistant
    is always one of the user's own: if it is so before a query, or if
    there is none, it is so after the choice the query leads to,
    whatever the query says and whatever the cache holds. *)
Theorem chosen_order_is_own
    (db : Mongo.Db) (store : OrderStore) (writing : Writing)
    (query email role : string) (c : OrderCache) :
  role = "driver"%string \/ role = "client"%string ->
  (forall oid, current_order_id c = Some oid ->
     oid ∈ own_orders db role email) ->
  forall oid,
    current_order_id (snd (choose_order db store writing query email role c))
    = Some oid ->
    oid ∈ own_orders db role email.
Proof.
  intros Hrole Hown oid. unfold choose_order.
  destruct (get_user_info db role email) as [message|user_data] eqn:Hinfo;
    [apply Hown |].
  pose proof (user_info_own db role email user_data Hrole Hinfo query
                (current_order_id c)) as Hanswer.
  destruct (resolve_order_context db query (current_order_id c) user_data)
    as [[should_switch relevant] text].
  assert (Hswitch : forall c',
            switch_order store writing role relevant text c = inr c' ->
            (should_switch
             || match current_order_id c with None => true | Some _ => false end)
            = true ->
            current_order_id c' = Some oid -> oid ∈ own_orders db role email).
  { intros c' Hc' Hcond Hcur.
    apply switch_order_current in Hc' as [Hsame | (new & rest & -> & Hnew)];
      [apply Hown; congruence |].
    assert (new = oid) as -> by congruence.
    destruct should_switch; cbn [answer_for] in Hanswer.
    - destruct Hanswer as (o & [= -> ->] & Hin). exact Hin.
    - destruct Hanswer as [[=] | (cur & Hsome & _)].
      cbn [orb] in Hcond. now rewrite Hsome in Hcond. }
  destruct (should_switch
            || match current_order_id c with None => true | Some _ => false end)
    eqn:Hcond.
  - destruct (switch_order store writing role relevant text c) as [message|c']
      eqn:Hc'; [apply Hown |].
    destruct (truthy_json (current_details c')); cbn [snd];
      now apply (Hswitch c').
  - destruct (truthy_json (current_details c)); apply Hown.
Qed.

Lemma plain_key_not_hidden (k : string) :
  k = "Order ID"%string \/ k = "Order Details"%string ->
  (k ∉ META_EXCLUDED_FIELDS) /\ (k ∉ ADMIN_EXCLUDED_FIELDS)
  /\ (k ∉ COMMON_EXCLUDED_FIELDS).
Proof.
  unfold META_EXCLUDED_FIELDS, ADMIN_EXCLUDED_FIELDS, COMMON_EXCLUDED_FIELDS.
  intros [-> | ->]; (split; [| split]); intros Hk;
    rewrite !elem_of_union, !elem_of_singleton in Hk;
    repeat (destruct Hk as [Hk | Hk]); discriminate.
Qed.

Lemma role_view_clean order_data role view :
  filter_order_by_role order_data role = Returned view -> clean_for role view.
Proof.
  pose proof admin_fields_commonly_hidden as Hsub.
  unfold filter_order_by_role, clean_for.
  destruct (String.eqb role "driver") eqn:Hd;
    [| destruct (String.eqb role "client") eqn:Hc;
       [| destruct (String.eqb role "admin") eqn:Ha; [| discriminate]]];
    intros [= <-] k Hk;
    apply filter_recursive_keys in Hk as (_ & Hex & Hmeta);
    (split; [exact Hmeta | split]); auto.
  intros Hrole. apply String.eqb_eq in Ha. contradiction.
Qed.

Lemma detail_entries_clean role orders entries :
  detail_entries role orders = Returned entries ->
  clean_for role (JList entries).
Proof.
  revert entries. induction orders as [|o orders IH]; intros entries;
    cbn [detail_entries].
  - intros [= <-] k [].
  - unfold detail_entry at 1.
    destruct (raw_order o) as [payload|]; [| discriminate].
    destruct (filter_order_by_role payload role) as [view|] eqn:Hview;
      [| discriminate].
    destruct (detail_entries role orders) as [rest|]; [| discriminate].
    intros [= <-] k.
    change (all_keys (JList (?e :: rest)))
      with (all_keys e ++ all_keys (JList rest)).
    rewrite List.in_app_iff. intros [Hk | Hk]; [| now apply (IH rest)].
    rewrite all_keys_dict in Hk. simpl in Hk. rewrite app_nil_r in Hk.
    destruct Hk as [<- | [<- | Hk]].
    + destruct (plain_key_not_hidden "Order ID") as (? & ? & ?); auto.
    + destruct (plain_key_not_hidden "Order Details") as (? & ? & ?); auto.
    + now apply (role_view_clean payload role view).
Qed.

Lemma get_order_details_clean store order_ids role :
  clean_for role (JList (get_order_details store order_ids role)).
Proof.
  unfold get_order_details.
  destruct (reachable store); [| intros k []].
  destruct (detail_entries role (find_in store order_ids)) as [entries|]
    eqn:Hentries; [| intros k []].
  now apply (detail_entries_clean role (find_in store order_ids)).
Qed.

Lemma load_clean order_id role c details text :
  clean_files c -> load order_id role c = (details, text) ->
  clean_for role details.
Proof.
  intros Hfiles. unfold load.
  destruct (files c !! _get_cache_path c order_id role)
    as [[[| | | | |entries]|]|] eqn:Hfile; try (intros [= <- _] k []).
  destruct (dict_get "role" entries) as [[| | |r| |]|] eqn:Hrole;
    try (intros [= <- _] k []).
  destruct (String.eqb r role) eqn:Hr; [| intros [= <- _] k []].
  apply String.eqb_eq in Hr as ->.
  destruct (dict_get "order_details" entries) as [d|] eqn:Hd;
    [| intros [= <- _] k []].
  destruct (dict_get "explanation" entries); intros [= <- _]; [| intros k []].
  now apply (Hfiles _ entries role d Hfile).
Qed.

Lemma clean_files_save writing order_id details text role c :
  clean_files c -> clean_for role details ->
  clean_files (snd (save writing order_id details text role c)).
Proof.
  intros Hfiles Hclean. unfold save.
  destruct writing; [| exact Hfiles |];
    intros path entries r d; cbn [snd files set_files];
    (destruct (decide (path = _get_cache_path c order_id role)) as [-> | Hne];
     [rewrite lookup_insert_eq
     | rewrite lookup_insert_ne by congruence; apply Hfiles]).
  - intros [= <-].
    cbn [dict_get String.eqb Ascii.eqb Bool.eqb]. now intros [= <-] [= <-].
  - discriminate.
Qed.

(** X30. Hidden fields never reach the assistant: if no cache file
    holds, at any depth, a key that is hidden from the role it names,
    and the current details hold none that is hidden from the user's
    role, then the same is true after the choice of the order, whether
    the details come from the cache or from the store.  This is so in
    particular from an empty cache directory onwards. *)
Theorem chosen_details_are_clean
    (db : Mongo.Db) (store : OrderStore) (writing : Writing)
    (query email role : string) (c : OrderCache) :
  clean_files c ->
  clean_for role (current_details c) ->
  let c' := snd (choose_order db store writing query email role c) in
  clean_files c' /\ clean_for role (current_details c').
Proof.
  intros Hfiles Hcurrent. cbn zeta. unfold choose_order.
  destruct (get_user_info db role email) as [message|user_data];
    [now split |].
  destruct (resolve_order_context db query (current_order_id c) user_data)
    as [[should_switch relevant] text].
  assert (Hswitch : forall c',
            switch_order store writing role relevant text c = inr c' ->
            clean_files c' /\ clean_for role (current_details c')).
  { intros c'. unfold switch_order.
    destruct relevant as [|new rest]; [intros [= <-]; now split |].
    destruct (load new role c) as [cached text'] eqn:Hload.
    pose proof (load_clean new role c cached text' Hfiles Hload) as Hcached.
    assert (Hhit : forall c0,
              @inr string OrderCache (assign new cached text c) = inr c0 ->
              clean_files c0 /\ clean_for role (current_details c0))
      by (intros c0 [= <-]; now split).
    destruct cached; try exact (Hhit c').
    pose proof (get_order_details_clean store (new :: rest) role) as Hfetched.
    destruct (get_order_details store (new :: rest) role) as [|d ds];
      [discriminate |].
    intros [= <-]. split; [| exact Hfetched].
    unfold set_current_order.
    apply (clean_files_save writing new (JList (d :: ds)) text role
             (set_current_role role (assign new (JList (d :: ds)) text c)));
      [exact Hfiles | exact Hfetched]. }
  destruct (should_switch || _).
  - destruct (switch_order store writing role relevant text c) as [message|c']
      eqn:Hc'; [now split |].
    destruct (truthy_json (current_details c')); now apply Hswitch.
  - destruct (truthy_json (current_details c)); now split.
Qed.

End Choice.

(** The driver asks for the latest order with nothing cached: order 500
    becomes the current order, with the view of a driver. *)
Lemma chosen_order_is_own_witness :
  current_order_id
    (snd (choose_order four_orders_db driver_store Written
            "show me the latest order" "driver@example.com" "driver"
            empty_cache))
  = Some 500
  /\ 500 ∈ own_orders four_orders_db "driver" "driver@example.com".
Proof.
  assert (Hcur : current_order_id
            (snd (choose_order four_orders_db driver_store Written
                    "show me the latest order" "driver@example.com" "driver"
                    empty_cache)) = Some 500) by (vm_compute; reflexivity).
  split; [exact Hcur |].
  apply (chosen_order_is_own four_orders_db driver_store Written
           "show me the latest order" "driver@example.com" "driver"
           empty_cache (or_introl eq_refl)); [| exact Hcur].
  intros oid [=].
Defined.

Lemma chosen_details_are_clean_witness :
  clean_for "driver"
    (current_details
       (snd (choose_order four_orders_db driver_store Written
               "show me the latest order" "driver@example.com" "driver"
               empty_cache))).
Proof.
  apply (chosen_details_are_clean four_orders_db driver_store Written
           "show me the latest order" "driver@example.com" "driver"
           empty_cache).
  - intros path entries role details Hfile. cbn in Hfile.
    now rewrite lookup_empty in Hfile.
  - intros k [].
Defined.
